(** * Procedure (custom block) mutation and synchronisation

    A shallow embedding of the procedure blocks of scratch-blocks
    (the block definitions with [updateDisplay_], [createAllInputs_],
    [populateArgumentOn*_], [updateArgumentReporterNames_] and the
    serialisers, and [procedures.ts] with [getCallers],
    [mutateCallersAndPrototype] and [deleteProcedureDefCallback]).

    JavaScript strings are [string]s whose characters stand for UTF-16 code
    units below 256.  Block objects live in a store indexed by references
    ([nat]); the methods of a block take the reference [self] of [this].
    Exceptions are modelled by an outcome carried next to the state, so the
    writes made before a [throw] stay visible. *)

From stdpp Require Import gmap strings list fin_maps pretty.
From Stdlib Require Import Ascii String Permutation.

Open Scope string_scope.
Open Scope list_scope.

Set Warnings "-clear-no-such-hyp".

(** ** JavaScript string primitives used by the procedure blocks *)

Module JS.

(** White space removed by [String.prototype.trim] (code units below 256):
    TAB, LF, VT, FF, CR, SP and NBSP. *)
Definition isWhiteSpace (c : ascii) : bool :=
  let n := nat_of_ascii c in
  ((9 <=? n)%nat && (n <=? 13)%nat) || (n =? 32)%nat || (n =? 160)%nat.

Fixpoint trimStart (s : string) : string :=
  match s with
  | EmptyString => EmptyString
  | String c s' => if isWhiteSpace c then trimStart s' else s
  end.

Fixpoint trimEnd (s : string) : string :=
  match s with
  | EmptyString => EmptyString
  | String c s' =>
      match trimEnd s' with
      | EmptyString => if isWhiteSpace c then EmptyString else String c EmptyString
      | t => String c t
      end
  end.

Definition trim (s : string) : string := trimEnd (trimStart s).

(** [s.substring(from)] *)
Fixpoint substringFrom (from : nat) (s : string) : string :=
  match from, s with
  | O, _ => s
  | S n, EmptyString => EmptyString
  | S n, String _ s' => substringFrom n s'
  end.

(** [s.substring(from, to)] for [from <= to] *)
Definition substring (from to : nat) (s : string) : string :=
  String.substring from (to - from) s.

(** [s.replace(/\\%/, "%")]: without the [g] flag only the first
    backslash-percent pair is rewritten. *)
Fixpoint replaceEscapedPercent (s : string) : string :=
  match s with
  | EmptyString => EmptyString
  | String c r =>
      match r with
      | String p r' =>
          if (Ascii.eqb c "\" && Ascii.eqb p "%")%bool
          then String "%" r'
          else String c (replaceEscapedPercent r)
      | EmptyString => s
      end
  end.

(** [arr[i]], [undefined] out of range *)
Definition index {A} (l : list A) (i : nat) : option A := l !! i.

(** [arr.indexOf(x)], [None] for -1 *)
Fixpoint indexOf (l : list string) (x : string) : option nat :=
  match l with
  | [] => None
  | y :: l' => if String.eqb y x then Some 0 else option_map S (indexOf l' x)
  end.

End JS.

(** ** Splitting a procCode into its components *)

(** Possible types for procedure arguments (enum ArgumentType). *)
Inductive ArgumentType := STRING | NUMBER | BOOLEAN.

#[global] Instance ArgumentType_eq_dec : EqDecision ArgumentType.
Proof. solve_decision. Defined.

Definition argumentTypeLetter (t : ArgumentType) : string :=
  match t with STRING => "s" | NUMBER => "n" | BOOLEAN => "b" end.

(** The comparison chain [argumentType === NUMBER || ... BOOLEAN || ... STRING]
    on the one-character string [component.substring(1, 2)]. *)
Definition argumentTypeOfString (s : string) : option ArgumentType :=
  if String.eqb s "n" then Some NUMBER
  else if String.eqb s "b" then Some BOOLEAN
  else if String.eqb s "s" then Some STRING
  else None.

Definition isArgLetter (c : ascii) : bool :=
  Ascii.eqb c "n" || Ascii.eqb c "b" || Ascii.eqb c "s".

(** The look-ahead [(?=[^\\]%[nbs])] tried at the start of [s]. *)
Definition argMarkerAhead (s : string) : bool :=
  match s with
  | String c (String p (String t _)) =>
      negb (Ascii.eqb c "\") && Ascii.eqb p "%" && isArgLetter t
  | _ => false
  end.

Arguments argMarkerAhead : simpl never.

(** [procCode.split(/(?=[^\\]%[nbs])/)]: the separator is empty, so the
    string is cut before every position [q > 0] at which the look-ahead
    succeeds; no cut is made at position 0. *)
Fixpoint splitProcCode (s : string) : list string :=
  match s with
  | EmptyString => [EmptyString]
  | String c s' =>
      if argMarkerAhead s' then String c EmptyString :: splitProcCode s'
      else match splitProcCode s' with
           | cur :: rest => String c cur :: rest
           | [] => [String c EmptyString]
           end
  end.

(** [procCode_.split(...).map(c => c.trim())] *)
Definition procComponents (procCode : string) : list string :=
  map JS.trim (splitProcCode procCode).

Example split_move : procComponents "move %n steps" = ["move"; "%n steps"].
Proof. reflexivity. Qed.

Example split_glued : procComponents "say%s" = ["sa"; "y%s"].
Proof. reflexivity. Qed.

Example split_escaped : procComponents "100\%s done %b" = ["100\%s done"; "%b"].
Proof. reflexivity. Qed.

Example split_leading : procComponents " %n%b" = ["%"; "n%b"].
Proof. reflexivity. Qed.

(** ** Blocks, inputs and the workspace *)

(** Modelled from the spec: the constants module [./constants] imported by
    [procedures.ts] is not among the sources.  The four block type names are
    the keys under which the procedure blocks are registered in
    [Blockly.Blocks]. *)
Definition PROCEDURES_CALL_BLOCK_TYPE := "procedures_call".
Definition PROCEDURES_DECLARATION_BLOCK_TYPE := "procedures_declaration".
Definition PROCEDURES_DEFINITION_BLOCK_TYPE := "procedures_definition".
Definition PROCEDURES_PROTOTYPE_BLOCK_TYPE := "procedures_prototype".

(** A reference to a block object. *)
Abbreviation BlockRef := nat (only parsing).

(** The DOM node built by [buildShadowDom_]: a [shadow] element with one
    [field] child. *)
Record ShadowDom := mkShadowDom {
  shadowType : string;
  fieldName : string;
  fieldValue : string
}.

Inductive InputKind := VALUE | STATEMENT | DUMMY.

(** A field of a label row: [appendField(text)] makes a label,
    [new FieldTextInputRemovable(text)] an editable text field. *)
Inductive RowField := FieldLabel (text : string) | FieldTextInputRemovable (text : string).

(** An input of a block.  Value and statement inputs own a connection
    ([input.connection] is [null] on dummy inputs); [targetBlock] and
    [shadowDom] are the state of that connection. *)
Record Input := mkInput {
  name : string;
  kind : InputKind;
  check : option string;
  targetBlock : option BlockRef;
  shadowDom : option ShadowDom;
  fieldRow : list RowField
}.

Definition hasConnection (i : Input) : bool :=
  match kind i with DUMMY => false | _ => true end.

(** A block object: the host's state ([type], shadow flag, parent, fields,
    inputs, next block, disposal) and the mutation state the procedure
    blocks add in their [init].  [displayNames_], [argumentDefaults_] and
    [generateShadows_] are [None] where JavaScript has [undefined] or
    [null]. *)
Record Block := mkBlock {
  type : string;
  isShadow : bool;
  disposed : bool;
  parentBlock_ : option BlockRef;
  fields : gmap string string;
  inputList : list Input;
  nextBlock : option BlockRef;
  procCode_ : string;
  argumentIds_ : list string;
  displayNames_ : option (list string);
  argumentDefaults_ : option (list string);
  warp_ : bool;
  generateShadows_ : option bool
}.

Definition emptyBlock (ty : string) : Block :=
  {| type := ty; isShadow := false; disposed := false; parentBlock_ := None;
     fields := ∅; inputList := []; nextBlock := None;
     procCode_ := ""; argumentIds_ := []; displayNames_ := None;
     argumentDefaults_ := None; warp_ := false; generateShadows_ := None |}.

#[global] Instance Block_inhabited : Inhabited Block := populate (emptyBlock "").

(** The serialised mutation, as an element with typed attribute values.
    [JSON.stringify]/[JSON.parse] and the XML text are injective on string
    arrays and booleans and are not spelled out: an attribute holds the value
    its text denotes.  [proccode], [argumentids] and [warp] are taken as
    present; the other attributes may be absent. *)
Record MutationDom := mkMutationDom {
  generateshadows : option bool;
  proccode : string;
  argumentids : list string;
  argumentnames : option (list string);
  argumentdefaults : option (list string);
  warp : bool
}.

#[global] Instance ShadowDom_eq_dec : EqDecision ShadowDom.
Proof. solve_decision. Defined.
#[global] Instance MutationDom_eq_dec : EqDecision MutationDom.
Proof. solve_decision. Defined.

(** Events handed to [Blockly.Events.fire], and [alert] messages. *)
Inductive Event :=
  | BLOCK_CREATE (block : BlockRef)
  | BLOCK_CHANGE (block : BlockRef) (element : string)
                 (oldValue newValue : MutationDom)
  | ALERT (msg : string).

(** The workspace: the store of block objects, the list of top blocks, the
    event system ([fired] lists the events this code handed to
    [Blockly.Events.fire] while events were enabled, and the messages of
    [alert]; [disabled] counts [Events.disable()] minus
    [Events.enable()], [group] is the flag set by [Events.setGroup]) and the
    counter behind [Blockly.utils.idGenerator.genUid].

    [blockDB] holds every block object that was created, the disposed ones
    too: a disposed block keeps its reference and its properties, and is
    told from a block of the workspace by its [disposed] flag. *)
Record Workspace := mkWorkspace {
  blockDB : gmap BlockRef Block;
  topBlocks : list BlockRef;
  fired : list Event;
  disabled : nat;
  group : bool;
  uidCounter : nat
}.

Definition getBlock (ws : Workspace) (b : BlockRef) : Block := blockDB ws !!! b.

Definition setBlockDB (db : gmap BlockRef Block) (ws : Workspace) : Workspace :=
  {| blockDB := db; topBlocks := topBlocks ws; fired := fired ws;
     disabled := disabled ws; group := group ws; uidCounter := uidCounter ws |}.

Definition setTopBlocks (tops : list BlockRef) (ws : Workspace) : Workspace :=
  {| blockDB := blockDB ws; topBlocks := tops; fired := fired ws;
     disabled := disabled ws; group := group ws; uidCounter := uidCounter ws |}.

Definition setFired (evs : list Event) (ws : Workspace) : Workspace :=
  {| blockDB := blockDB ws; topBlocks := topBlocks ws; fired := evs;
     disabled := disabled ws; group := group ws; uidCounter := uidCounter ws |}.

Definition setDisabled (n : nat) (ws : Workspace) : Workspace :=
  {| blockDB := blockDB ws; topBlocks := topBlocks ws; fired := fired ws;
     disabled := n; group := group ws; uidCounter := uidCounter ws |}.

Definition setGroup (g : bool) (ws : Workspace) : Workspace :=
  {| blockDB := blockDB ws; topBlocks := topBlocks ws; fired := fired ws;
     disabled := disabled ws; group := g; uidCounter := uidCounter ws |}.

Definition setUidCounter (n : nat) (ws : Workspace) : Workspace :=
  {| blockDB := blockDB ws; topBlocks := topBlocks ws; fired := fired ws;
     disabled := disabled ws; group := group ws; uidCounter := n |}.

(** In-place update of the object behind a reference. *)
Definition updateBlock (b : BlockRef) (f : Block → Block) (ws : Workspace) : Workspace :=
  setBlockDB (<[b := f (getBlock ws b)]> (blockDB ws)) ws.

(** *** Field-wise setters of a block *)

Definition setInputList (l : list Input) (b : Block) : Block :=
  {| type := type b; isShadow := isShadow b; disposed := disposed b;
     parentBlock_ := parentBlock_ b; fields := fields b; inputList := l;
     nextBlock := nextBlock b; procCode_ := procCode_ b;
     argumentIds_ := argumentIds_ b; displayNames_ := displayNames_ b;
     argumentDefaults_ := argumentDefaults_ b; warp_ := warp_ b;
     generateShadows_ := generateShadows_ b |}.

Definition setParent (p : option BlockRef) (b : Block) : Block :=
  {| type := type b; isShadow := isShadow b; disposed := disposed b;
     parentBlock_ := p; fields := fields b; inputList := inputList b;
     nextBlock := nextBlock b; procCode_ := procCode_ b;
     argumentIds_ := argumentIds_ b; displayNames_ := displayNames_ b;
     argumentDefaults_ := argumentDefaults_ b; warp_ := warp_ b;
     generateShadows_ := generateShadows_ b |}.

Definition setShadow (s : bool) (b : Block) : Block :=
  {| type := type b; isShadow := s; disposed := disposed b;
     parentBlock_ := parentBlock_ b; fields := fields b; inputList := inputList b;
     nextBlock := nextBlock b; procCode_ := procCode_ b;
     argumentIds_ := argumentIds_ b; displayNames_ := displayNames_ b;
     argumentDefaults_ := argumentDefaults_ b; warp_ := warp_ b;
     generateShadows_ := generateShadows_ b |}.

Definition setDisposed (b : Block) : Block :=
  {| type := type b; isShadow := isShadow b; disposed := true;
     parentBlock_ := parentBlock_ b; fields := fields b; inputList := inputList b;
     nextBlock := nextBlock b; procCode_ := procCode_ b;
     argumentIds_ := argumentIds_ b; displayNames_ := displayNames_ b;
     argumentDefaults_ := argumentDefaults_ b; warp_ := warp_ b;
     generateShadows_ := generateShadows_ b |}.

Definition setFields (fs : gmap string string) (b : Block) : Block :=
  {| type := type b; isShadow := isShadow b; disposed := disposed b;
     parentBlock_ := parentBlock_ b; fields := fs; inputList := inputList b;
     nextBlock := nextBlock b; procCode_ := procCode_ b;
     argumentIds_ := argumentIds_ b; displayNames_ := displayNames_ b;
     argumentDefaults_ := argumentDefaults_ b; warp_ := warp_ b;
     generateShadows_ := generateShadows_ b |}.

Definition setNextBlock (n : option BlockRef) (b : Block) : Block :=
  {| type := type b; isShadow := isShadow b; disposed := disposed b;
     parentBlock_ := parentBlock_ b; fields := fields b; inputList := inputList b;
     nextBlock := n; procCode_ := procCode_ b;
     argumentIds_ := argumentIds_ b; displayNames_ := displayNames_ b;
     argumentDefaults_ := argumentDefaults_ b; warp_ := warp_ b;
     generateShadows_ := generateShadows_ b |}.

(** The assignments made by [callerDomToMutation] and
    [definitionDomToMutation]. *)
Definition setCallerMutation (m : MutationDom) (b : Block) : Block :=
  {| type := type b; isShadow := isShadow b; disposed := disposed b;
     parentBlock_ := parentBlock_ b; fields := fields b; inputList := inputList b;
     nextBlock := nextBlock b; procCode_ := proccode m;
     argumentIds_ := argumentids m; displayNames_ := displayNames_ b;
     argumentDefaults_ := argumentDefaults_ b; warp_ := warp m;
     generateShadows_ := generateshadows m |}.

Definition setDefinitionMutation (m : MutationDom) (b : Block) : Block :=
  {| type := type b; isShadow := isShadow b; disposed := disposed b;
     parentBlock_ := parentBlock_ b; fields := fields b; inputList := inputList b;
     nextBlock := nextBlock b; procCode_ := proccode m;
     argumentIds_ := argumentids m; displayNames_ := argumentnames m;
     argumentDefaults_ := argumentdefaults m; warp_ := warp m;
     generateShadows_ := generateShadows_ b |}.

(** ** State and exceptions *)

Inductive Outcome (A : Type) :=
  | Return (a : A)
  | Throw (msg : string).
Arguments Return {A} a.
Arguments Throw {A} msg.

(** A computation reads and writes the workspace and either returns or
    throws; the workspace reached at a [Throw] is the one the exception
    leaves behind. *)
Definition M (A : Type) : Type := Workspace → Workspace * Outcome A.

#[global] Instance M_ret : MRet M := λ A a ws, (ws, Return a).
#[global] Instance M_bind : MBind M := λ A B k m ws,
  match m ws with
  | (ws', Return a) => k a ws'
  | (ws', Throw e) => (ws', Throw e)
  end.

Definition ret {A} (a : A) : M A := mret a.
Definition throw {A} (msg : string) : M A := λ ws, (ws, Throw msg).
Definition gets {A} (f : Workspace → A) : M A := λ ws, (ws, Return (f ws)).
Definition modify (f : Workspace → Workspace) : M unit := λ ws, (f ws, Return tt).

(** [for (const x of l) { acc = body(acc, x) }] *)
Fixpoint forOf {A S} (body : S → A → M S) (acc : S) (l : list A) : M S :=
  match l with
  | [] => ret acc
  | x :: l' => acc' ← body acc x; forOf body acc' l'
  end.

(** [l.forEach(body)] *)
Definition forEach {A} (body : A → M unit) (l : list A) : M unit :=
  forOf (λ _ x, body x) tt l.

(** JavaScript truthiness of a flag that may be [null] or [undefined]. *)
Definition truthy (b : option bool) : bool := default false b.

(** ** The host toolkit

    The operations of the block-editing toolkit that the procedure code
    calls, reduced to their effect on the block graph.  Rendering, layout,
    connection type checks and the respawning of shadows from a shadow DOM
    are outside the model. *)

Definition setTarget (t : option BlockRef) (i : Input) : Input :=
  {| name := name i; kind := kind i; check := check i; targetBlock := t;
     shadowDom := shadowDom i; fieldRow := fieldRow i |}.

Definition setCheckOf (c : option string) (i : Input) : Input :=
  {| name := name i; kind := kind i; check := c; targetBlock := targetBlock i;
     shadowDom := shadowDom i; fieldRow := fieldRow i |}.

Definition setShadowDomOf (d : option ShadowDom) (i : Input) : Input :=
  {| name := name i; kind := kind i; check := check i; targetBlock := targetBlock i;
     shadowDom := d; fieldRow := fieldRow i |}.

(** In-place update of the input at position [idx] of block [self]. *)
Definition updateInput (self : BlockRef) (idx : nat) (f : Input → Input)
    (ws : Workspace) : Workspace :=
  updateBlock self (λ b, setInputList (alter f idx (inputList b)) b) ws.

(** [block.getChildren(true)]: the blocks attached to the inputs, in input
    order, then the next block. *)
Definition getChildren (b : Block) : list BlockRef :=
  omap targetBlock (inputList b) ++ option_list (nextBlock b).

Fixpoint getDescendantsFrom (fuel : nat) (db : gmap BlockRef Block)
    (b : BlockRef) : list BlockRef :=
  match fuel with
  | O => []
  | S fuel' =>
      match db !! b with
      | None => []
      | Some blk => b :: flat_map (getDescendantsFrom fuel' db) (getChildren blk)
      end
  end.

(** [block.getDescendants(false)]: the block itself followed by the
    descendants of each child.  A tree in a store of [n] blocks is at most
    [n] deep. *)
Definition getDescendants (ws : Workspace) (b : BlockRef) : list BlockRef :=
  getDescendantsFrom (S (size (blockDB ws))) (blockDB ws) b.

(** Field table of a block type at creation ([jsonInit] of the argument
    reporters and editors). *)
Definition initFields (ty : string) : gmap string string :=
  if bool_decide (ty = "argument_reporter_boolean") then {[ "VALUE" := "" ]}
  else if bool_decide (ty = "argument_reporter_string_number") then {[ "VALUE" := "" ]}
  else if bool_decide (ty = "argument_editor_boolean") then {[ "TEXT" := "foo" ]}
  else if bool_decide (ty = "argument_editor_string_number") then {[ "TEXT" := "foo" ]}
  else ∅.

(** [workspace.newBlock(type)]: a new top block behind an unused reference. *)
Definition freshRef (ws : Workspace) : BlockRef := fresh (dom (blockDB ws)).

Definition addBlock (ty : string) (ws : Workspace) : Workspace :=
  setTopBlocks (topBlocks ws ++ [freshRef ws])
    (setBlockDB (<[freshRef ws := setFields (initFields ty) (emptyBlock ty)]> (blockDB ws)) ws).

Definition newBlock (ty : string) : M BlockRef := λ ws, (addBlock ty ws, Return (freshRef ws)).

(** [block.setFieldValue(value, name)]; an [undefined] value leaves the
    field as it is. *)
Definition setFieldValue (b : BlockRef) (value : option string) (fname : string) : M unit :=
  match value with
  | Some v => modify (updateBlock b (λ blk, setFields (<[fname := v]> (fields blk)) blk))
  | None => ret tt
  end.

(** [block.getFieldValue(name)], [None] for [null] *)
Definition getFieldValue (ws : Workspace) (b : BlockRef) (fname : string) : option string :=
  fields (getBlock ws b) !! fname.

(** [child.outputConnection.connect(input.connection)] for the input at
    position [idx] of [self] (the same for the call made from the input's
    side).

    The host connects only what its connection checker accepts (an input
    with a check takes an output that meets the check) and otherwise
    leaves everything as it is; it also moves away a block that sits in
    the input already.  [connectState] is the connection of a block the
    checker accepts to an input that holds none.  That is the case for
    the shadows, reporters and editors the rebuild creates and for a
    reporter a prototype takes back for a slot of its kind; for a saved
    block a call block takes back it is a hypothesis of the theorems
    ([accepted]). *)
Definition connectState (self : BlockRef) (idx : nat) (child : BlockRef)
    (ws : Workspace) : Workspace :=
  let ws1 := updateInput self idx (setTarget (Some child)) ws in
  let ws2 := updateBlock child (setParent (Some self)) ws1 in
  setTopBlocks (filter (λ t, t ≠ child) (topBlocks ws2)) ws2.

Definition connect (self : BlockRef) (idx : nat) (child : BlockRef) : M unit :=
  modify (connectState self idx child).

(** [input.connection.disconnect()] for the input at position [idx] holding
    [child]: the child becomes a top block. *)
Definition disconnectState (self : BlockRef) (idx : nat) (child : BlockRef)
    (ws : Workspace) : Workspace :=
  let ws1 := updateInput self idx (setTarget None) ws in
  let ws2 := updateBlock child (setParent None) ws1 in
  setTopBlocks (topBlocks ws2 ++ [child]) ws2.

Definition disconnect (self : BlockRef) (idx : nat) (child : BlockRef) : M unit :=
  modify (disconnectState self idx child).

(** Removal of [b] from whatever connection of its parent holds it. *)
Definition unplug (b : BlockRef) (ws : Workspace) : Workspace :=
  match parentBlock_ (getBlock ws b) with
  | None => ws
  | Some p =>
      let detach (i : Input) :=
        if bool_decide (targetBlock i = Some b) then setTarget None i else i in
      updateBlock b (setParent None)
        (updateBlock p (λ pb,
           setNextBlock (if bool_decide (nextBlock pb = Some b) then None else nextBlock pb)
             (setInputList (map detach (inputList pb)) pb)) ws)
  end.

(** [block.dispose()]: the block is unplugged and it and all its
    descendants are disposed.  The objects stay in the store with
    [disposed] set; a block with this flag is no block of the workspace
    any more. *)
Definition disposeState (b : BlockRef) (ws : Workspace) : Workspace :=
  let ds := getDescendants ws b in
  let ws1 := unplug b ws in
  let ws2 := foldr (λ d w, updateBlock d setDisposed w) ws1 ds in
  setTopBlocks (filter (λ t, t ≠ b) (topBlocks ws2)) ws2.

Definition dispose (b : BlockRef) : M unit := modify (disposeState b).

(** [Blockly.Events]: [disable], [enable], [isEnabled], [fire], [setGroup].
    [fire] drops the event while events are disabled. *)
Definition Events_disable : M unit :=
  modify (λ ws, setDisabled (S (disabled ws)) ws).
Definition Events_enable : M unit :=
  modify (λ ws, setDisabled (pred (disabled ws)) ws).
Definition Events_isEnabled : M bool := gets (λ ws, bool_decide (disabled ws = 0)).
Definition Events_fire (e : Event) : M unit :=
  modify (λ ws, if bool_decide (disabled ws = 0)
                then setFired (fired ws ++ [e]) ws else ws).
Definition Events_setGroup (g : bool) : M unit := modify (setGroup g).

(** [alert(msg)]: the message is shown whether events are enabled or not. *)
Definition alert (msg : string) : M unit :=
  modify (λ ws, setFired (fired ws ++ [ALERT msg]) ws).

(** [Blockly.utils.idGenerator.genUid()]: a new name at every call. *)
Definition genUid : M string := λ ws,
  (setUidCounter (S (uidCounter ws)) ws, Return ("uid:" +:+ pretty (uidCounter ws))).

(** ** The connection map

    [ConnectionMap] is an object used as a map from input names to saved
    connections.  Keys keep their insertion order and an assignment to an
    existing key keeps its place, so the object is an association list
    without repeated keys; an entry may hold [null].  Names are assumed not
    to be property names of [Object.prototype]. *)

Record SaveInfo := mkSaveInfo {
  shadow : option ShadowDom;
  block : option BlockRef
}.

Definition ConnectionMap := list (string * option SaveInfo).

(** [connectionMap[id]] when [id in connectionMap] *)
Fixpoint cmGet (id : string) (cm : ConnectionMap) : option (option SaveInfo) :=
  match cm with
  | [] => None
  | (k, v) :: cm' => if String.eqb k id then Some v else cmGet id cm'
  end.

(** [connectionMap[id] = v] *)
Fixpoint cmSet (id : string) (v : option SaveInfo) (cm : ConnectionMap) : ConnectionMap :=
  match cm with
  | [] => [(id, v)]
  | (k, v') :: cm' => if String.eqb k id then (k, v) :: cm' else (k, v') :: cmSet id v cm'
  end.

(** The block saved under [id], if the map has one. *)
Definition savedBlock (connectionMap : ConnectionMap) (id : string) : option BlockRef :=
  match cmGet id connectionMap with
  | Some (Some saveInfo) => block saveInfo
  | _ => None
  end.

(** ** Shared by all three procedure blocks *)

(** The block type decides which implementations [init] binds to
    [populateArgument_], [addProcedureLabel_], [mutationToDom] and
    [domToMutation]. *)
Inductive Role := Call | Prototype | Declaration.

Definition roleOfType (ty : string) : option Role :=
  if bool_decide (ty = "procedures_call") then Some Call
  else if bool_decide (ty = "procedures_prototype") then Some Prototype
  else if bool_decide (ty = "procedures_declaration") then Some Declaration
  else None.

Definition roleOf (ws : Workspace) (self : BlockRef) : option Role :=
  roleOfType (type (getBlock ws self)).

(** The inputs with their positions, counted from [i]. *)
Fixpoint indexedFrom (i : nat) (l : list Input) : list (nat * Input) :=
  match l with
  | [] => []
  | x :: l' => (i, x) :: indexedFrom (S i) l'
  end.

(** [disconnectOldBlocks_]: one turn of the loop, for the input at
    position [idx]. *)
Definition disconnectOldBlock (self : BlockRef) (connectionMap : ConnectionMap)
    (entry : nat * Input) : M ConnectionMap :=
  let '(idx, _) := entry in
  input ← gets (λ ws, inputList (getBlock ws self) !! idx);
  match input with
  | None => ret connectionMap
  | Some input =>
      if hasConnection input then
        let target := targetBlock input in
        let saveInfo := {| shadow := shadowDom input; block := target |} in
        let connectionMap := cmSet (name input) (Some saveInfo) connectionMap in
        match target with
        | Some t => disconnect self idx t;; ret connectionMap
        | None => ret connectionMap
        end
      else ret connectionMap
  end.

Definition disconnectOldBlocks_ (self : BlockRef) : M ConnectionMap :=
  inputs ← gets (λ ws, inputList (getBlock ws self));
  forOf (disconnectOldBlock self) [] (indexedFrom 0 inputs).

Definition removeAllInputs_ (self : BlockRef) : M unit :=
  modify (updateBlock self (setInputList [])).

(** [this.appendInput]: the new input goes to the end of [inputList]; its
    position stands for the returned input object. *)
Definition appendInput (self : BlockRef) (i : Input) : M nat := λ ws,
  let idx := List.length (inputList (getBlock ws self)) in
  (updateBlock self (λ b, setInputList (inputList b ++ [i]) b) ws, Return idx).

(** [this.appendValueInput(name)]: the host rejects a missing or empty
    name. *)
Definition appendValueInput (self : BlockRef) (id : option string) : M nat :=
  match id with
  | None | Some "" => throw "Value inputs must have a non-empty name"
  | Some n =>
      appendInput self {| name := n; kind := VALUE; check := None;
                          targetBlock := None; shadowDom := None; fieldRow := [] |}
  end.

(** [this.appendDummyInput(name).appendField(f)], [fs] being the fields
    that [appendField] adds to the row. *)
Definition appendDummyInputWithField (self : BlockRef) (n : string) (fs : list RowField)
    : M unit :=
  appendInput self {| name := n; kind := DUMMY; check := None;
                      targetBlock := None; shadowDom := None; fieldRow := fs |};;
  ret tt.

(** What [appendField(text)] adds for a string without field name: a label,
    and nothing at all for the empty string. *)
Definition labelFields (text : string) : list RowField :=
  if bool_decide (text = "") then [] else [FieldLabel text].

Definition addLabelField_ (self : BlockRef) (text : string) : M unit :=
  appendDummyInputWithField self "" (labelFields text).

Definition addLabelEditor_ (self : BlockRef) (text : string) : M unit :=
  if bool_decide (text = "") then ret tt
  else
    uid ← genUid;
    appendDummyInputWithField self uid [FieldTextInputRemovable text].

Definition buildShadowDom_ (ty : ArgumentType) : ShadowDom :=
  match ty with
  | NUMBER => {| shadowType := "math_number"; fieldName := "NUM"; fieldValue := "1" |}
  | _ => {| shadowType := "text"; fieldName := "TEXT"; fieldValue := "" |}
  end.

Definition fireCreateIfEnabled (b : BlockRef) : M unit :=
  enabled ← Events_isEnabled;
  if enabled : bool then Events_fire (BLOCK_CREATE b) else ret tt.

Definition attachShadow_ (self : BlockRef) (input : nat) (argumentType : ArgumentType) : M unit :=
  match argumentType with
  | NUMBER | STRING =>
      let blockType := match argumentType with NUMBER => "math_number" | _ => "text" end in
      Events_disable;;
      newBlock ← newBlock blockType;
      match argumentType with
      | NUMBER => setFieldValue newBlock (Some "1") "NUM"
      | _ => setFieldValue newBlock (Some "") "TEXT"
      end;;
      modify (updateBlock newBlock (setShadow true));;
      Events_enable;;
      fireCreateIfEnabled newBlock;;
      connect self input newBlock
  | BOOLEAN => ret tt
  end.

Definition createArgumentReporter_ (argumentType : ArgumentType)
    (displayName : option string) : M BlockRef :=
  let blockType := match argumentType with
                   | NUMBER | STRING => "argument_reporter_string_number"
                   | BOOLEAN => "argument_reporter_boolean"
                   end in
  Events_disable;;
  newBlock ← newBlock blockType;
  modify (updateBlock newBlock (setShadow true));;
  setFieldValue newBlock displayName "VALUE";;
  Events_enable;;
  fireCreateIfEnabled newBlock;;
  ret newBlock.

Definition createArgumentEditor_ (argumentType : ArgumentType)
    (displayName : option string) : M BlockRef :=
  let blockType := match argumentType with
                   | NUMBER | STRING => "argument_editor_string_number"
                   | BOOLEAN => "argument_editor_boolean"
                   end in
  Events_disable;;
  newBlock ← newBlock blockType;
  setFieldValue newBlock displayName "TEXT";;
  modify (updateBlock newBlock (setShadow true));;
  Events_enable;;
  fireCreateIfEnabled newBlock;;
  ret newBlock.

(** The first lines of the three [populateArgumentOn*_]: the saved block and
    shadow DOM of [id].  Reading a property of a [null] entry throws. *)
Definition savedConnection (connectionMap : ConnectionMap) (id : string)
    : M (option BlockRef * option ShadowDom) :=
  match cmGet id connectionMap with
  | Some (Some saveInfo) => ret (block saveInfo, shadow saveInfo)
  | Some None => throw "TypeError: Cannot read properties of null"
  | None => ret (None, None)
  end.

(** [input.connection.setShadowDom(shadowDom)] is the record of the DOM on
    the input.  Where a shadow block sits in the input the host moreover
    replaces it by a shadow made from the DOM and disposes of it; the
    theorems about blocks a call block takes back are stated for call
    blocks that take back no shadow in this way ([noShadowReplaced]). *)
Definition populateArgumentOnCaller_ (self : BlockRef) (ty : ArgumentType) (index : nat)
    (connectionMap : ConnectionMap) (id : string) (input : nat) : M ConnectionMap :=
  '(oldBlock, oldShadow) ← savedConnection connectionMap id;
  generateShadows ← gets (λ ws, truthy (generateShadows_ (getBlock ws self)));
  match oldBlock with
  | Some oldBlock =>
      let connectionMap := cmSet id None connectionMap in
      connect self input oldBlock;;
      (if negb (bool_decide (ty = BOOLEAN)) && generateShadows then
         let shadowDom := default (buildShadowDom_ ty) oldShadow in
         modify (updateInput self input (setShadowDomOf (Some shadowDom)))
       else ret tt);;
      ret connectionMap
  | None =>
      (if generateShadows then attachShadow_ self input ty else ret tt);;
      ret connectionMap
  end.

Definition checkOldTypeMatches_ (ws : Workspace) (oldBlock : option BlockRef)
    (ty : ArgumentType) : bool :=
  match oldBlock with
  | None => false
  | Some oldBlock =>
      let oldType := type (getBlock ws oldBlock) in
      if (bool_decide (ty = NUMBER) || bool_decide (ty = STRING))
         && bool_decide (oldType = "argument_reporter_string_number") then true
      else if bool_decide (ty = BOOLEAN)
         && bool_decide (oldType = "argument_reporter_boolean") then true
      else false
  end.

(** [this.displayNames_[index]]; indexing [null] or [undefined] throws. *)
Definition displayNameAt (self : BlockRef) (index : nat) : M (option string) :=
  names ← gets (λ ws, displayNames_ (getBlock ws self));
  match names with
  | Some names => ret (JS.index names index)
  | None => throw "TypeError: Cannot read properties of undefined"
  end.

Definition populateArgumentOnPrototype_ (self : BlockRef) (ty : ArgumentType) (index : nat)
    (connectionMap : ConnectionMap) (id : string) (input : nat) : M ConnectionMap :=
  '(oldBlock, _) ← savedConnection connectionMap id;
  oldTypeMatches ← gets (λ ws, checkOldTypeMatches_ ws oldBlock ty);
  displayName ← displayNameAt self index;
  '(argumentReporter, connectionMap) ←
    match oldBlock with
    | Some old =>
        if oldTypeMatches : bool then
          setFieldValue old displayName "VALUE";;
          ret (old, cmSet id None connectionMap)
        else
          r ← createArgumentReporter_ ty displayName; ret (r, connectionMap)
    | None =>
        r ← createArgumentReporter_ ty displayName; ret (r, connectionMap)
    end;
  connect self input argumentReporter;;
  ret connectionMap.

Definition populateArgumentOnDeclaration_ (self : BlockRef) (ty : ArgumentType) (index : nat)
    (connectionMap : ConnectionMap) (id : string) (input : nat) : M ConnectionMap :=
  '(oldBlock, _) ← savedConnection connectionMap id;
  oldTypeMatches ← gets (λ ws, checkOldTypeMatches_ ws oldBlock ty);
  displayName ← displayNameAt self index;
  '(argumentEditor, connectionMap) ←
    match oldBlock with
    | Some old =>
        if oldTypeMatches : bool then
          setFieldValue old displayName "TEXT";;
          ret (old, cmSet id None connectionMap)
        else
          e ← createArgumentEditor_ ty displayName; ret (e, connectionMap)
    | None =>
        e ← createArgumentEditor_ ty displayName; ret (e, connectionMap)
    end;
  connect self input argumentEditor;;
  ret connectionMap.

(** [this.populateArgument_] and [this.addProcedureLabel_], as bound by the
    [init] of the three procedure blocks. *)
Definition populateArgument_ (self : BlockRef) (ty : ArgumentType) (index : nat)
    (connectionMap : ConnectionMap) (id : string) (input : nat) : M ConnectionMap :=
  role ← gets (λ ws, roleOf ws self);
  match role with
  | Some Call => populateArgumentOnCaller_ self ty index connectionMap id input
  | Some Prototype => populateArgumentOnPrototype_ self ty index connectionMap id input
  | Some Declaration => populateArgumentOnDeclaration_ self ty index connectionMap id input
  | None => throw "TypeError: this.populateArgument_ is not a function"
  end.

Definition addProcedureLabel_ (self : BlockRef) (text : string) : M unit :=
  role ← gets (λ ws, roleOf ws self);
  match role with
  | Some Call | Some Prototype => addLabelField_ self text
  | Some Declaration => addLabelEditor_ self text
  | None => throw "TypeError: this.addProcedureLabel_ is not a function"
  end.

Definition invalidTypeMessage (argumentType : string) : string :=
  "Found an custom procedure with an invalid type: " +:+ argumentType.

(** One turn of the loop of [createAllInputs_]; the loop state is
    [argumentCount] and the connection map the turns share. *)
Definition createInput (self : BlockRef) (st : nat * ConnectionMap)
    (component : string) : M (nat * ConnectionMap) :=
  let '(argumentCount, connectionMap) := st in
  if bool_decide (JS.substring 0 1 component = "%") then
    let argumentType := JS.substring 1 2 component in
    match argumentTypeOfString argumentType with
    | None => throw (invalidTypeMessage argumentType)
    | Some ty =>
        let labelText := JS.trim (JS.substringFrom 2 component) in
        id ← gets (λ ws, JS.index (argumentIds_ (getBlock ws self)) argumentCount);
        input ← appendValueInput self id;
        (if bool_decide (ty = BOOLEAN)
         then modify (updateInput self input (setCheckOf (Some "Boolean")))
         else ret tt);;
        connectionMap ← populateArgument_ self ty argumentCount connectionMap
                           (default "" id) input;
        addProcedureLabel_ self (JS.replaceEscapedPercent labelText);;
        ret (S argumentCount, connectionMap)
    end
  else
    let labelText := JS.trim component in
    addProcedureLabel_ self (JS.replaceEscapedPercent labelText);;
    ret (argumentCount, connectionMap).

(** [createAllInputs_]; the map is returned as the turns left it, for
    [deleteShadows_] reads the same object. *)
Definition createAllInputs_ (self : BlockRef) (connectionMap : ConnectionMap)
    : M ConnectionMap :=
  procCode ← gets (λ ws, procCode_ (getBlock ws self));
  st ← forOf (createInput self) (0, connectionMap) (procComponents procCode);
  ret (snd st).

(** One turn of [for (const id in connectionMap)] in [deleteShadows_]. *)
Definition deleteShadow (entry : string * option SaveInfo) : M unit :=
  match snd entry with
  | Some saveInfo =>
      match block saveInfo with
      | Some b =>
          shadowed ← gets (λ ws, isShadow (getBlock ws b));
          if shadowed : bool then dispose b else ret tt
      | None => ret tt
      end
  | None => ret tt
  end.

(** [deleteShadows_]; the entries it sets to [null] are read by nobody
    afterwards. *)
Definition deleteShadows_ (connectionMap : ConnectionMap) : M unit :=
  forEach deleteShadow connectionMap.

Definition updateDisplay_ (self : BlockRef) : M unit :=
  connectionMap ← disconnectOldBlocks_ self;
  removeAllInputs_ self;;
  connectionMap ← createAllInputs_ self connectionMap;
  deleteShadows_ connectionMap.

(** ** Serialization and deserialization *)

Definition callerMutationToDom (ws : Workspace) (self : BlockRef) : MutationDom :=
  let b := getBlock ws self in
  {| generateshadows := None; proccode := procCode_ b;
     argumentids := argumentIds_ b; argumentnames := None;
     argumentdefaults := None; warp := warp_ b |}.

Definition callerDomToMutation (self : BlockRef) (xmlElement : MutationDom) : M unit :=
  modify (updateBlock self (setCallerMutation xmlElement));;
  updateDisplay_ self.

Definition definitionMutationToDom (ws : Workspace) (self : BlockRef)
    (opt_generateShadows : bool) : MutationDom :=
  let b := getBlock ws self in
  {| generateshadows := if opt_generateShadows then Some true else None;
     proccode := procCode_ b; argumentids := argumentIds_ b;
     argumentnames := displayNames_ b; argumentdefaults := argumentDefaults_ b;
     warp := warp_ b |}.

(** ** Renaming of argument reporters *)

Record NameChange := mkNameChange {
  newName : option string;
  blocks : list BlockRef
}.

Definition isArgumentReporter (ws : Workspace) (b : BlockRef) : bool :=
  let blk := getBlock ws b in
  (bool_decide (type blk = "argument_reporter_string_number")
   || bool_decide (type blk = "argument_reporter_boolean"))
  && negb (isShadow blk).

(** [block.getFieldValue("VALUE") === prevName]: a field value is a string
    or [null], and [prevName] is [undefined] when [prevIndex] is out of
    range, in which case nothing is equal to it. *)
Definition labelMatches (ws : Workspace) (prevName : option string) (b : BlockRef) : bool :=
  match prevName, getFieldValue ws b "VALUE" with
  | Some p, Some v => String.eqb v p
  | _, _ => false
  end.

(** The loop [for (let i = 0, id; (id = this.argumentIds_[i]); i++)]: it
    stops at the end of the array and at the first empty id, and walks the
    remaining ids [ids] from position [i]. *)
Fixpoint collectNameChanges (ws : Workspace) (argReporters : list BlockRef)
    (prevArgIds : list string) (prevDisplayNames : list string)
    (displayNames : list string) (i : nat) (ids : list string) : list NameChange :=
  match ids with
  | [] => []
  | id :: ids' =>
      if bool_decide (id = "") then []
      else
        let rest := collectNameChanges ws argReporters prevArgIds prevDisplayNames
                      displayNames (S i) ids' in
        match JS.indexOf prevArgIds id with
        | None => rest
        | Some prevIndex =>
            let prevName := JS.index prevDisplayNames prevIndex in
            if bool_decide (prevName ≠ JS.index displayNames i) then
              {| newName := JS.index displayNames i;
                 blocks := filter (λ b, labelMatches ws prevName b = true) argReporters |}
              :: rest
            else rest
        end
  end.

Definition applyNameChange (nameChange : NameChange) : M unit :=
  forEach (λ b, setFieldValue b (newName nameChange) "VALUE") (blocks nameChange).

(** Whether the loop reads [prevDisplayNames] and [this.displayNames_] at
    all: it does at the first id that is found in [prevArgIds]. *)
Fixpoint readsDisplayNames (prevArgIds : list string) (ids : list string) : bool :=
  match ids with
  | [] => false
  | id :: ids' =>
      if bool_decide (id = "") then false
      else match JS.indexOf prevArgIds id with
           | Some _ => true
           | None => readsDisplayNames prevArgIds ids'
           end
  end.

(** The argument reporters in the stack of [definitionBlock], shadows
    excluded. *)
Definition argReportersOf (ws : Workspace) (definitionBlock : BlockRef) : list BlockRef :=
  filter (λ b, isArgumentReporter ws b = true) (getDescendants ws definitionBlock).

(** The list [nameChanges] built for the prototype [self] below
    [definitionBlock]. *)
Definition nameChangesOf (ws : Workspace) (self definitionBlock : BlockRef)
    (prevArgIds : list string) (prevDisplayNames : option (list string))
    : Outcome (list NameChange) :=
  let me := getBlock ws self in
  match prevDisplayNames, displayNames_ me with
  | Some prevDisplayNames, Some displayNames =>
      Return (collectNameChanges ws (argReportersOf ws definitionBlock) prevArgIds
                prevDisplayNames displayNames 0 (argumentIds_ me))
  | _, _ =>
      if readsDisplayNames prevArgIds (argumentIds_ me)
      then Throw "TypeError: Cannot read properties of undefined"
      else Return []
  end.

Definition updateArgumentReporterNames_ (self : BlockRef)
    (prevArgIds : list string) (prevDisplayNames : option (list string)) : M unit :=
  definitionBlock ← gets (λ ws, parentBlock_ (getBlock ws self));
  match definitionBlock with
  | None => ret tt
  | Some definitionBlock =>
      nameChanges ← (λ ws, (ws, nameChangesOf ws self definitionBlock prevArgIds
                                  prevDisplayNames));
      forEach applyNameChange nameChanges
  end.

Definition definitionDomToMutation (self : BlockRef) (xmlElement : MutationDom) : M unit :=
  prevArgIds ← gets (λ ws, argumentIds_ (getBlock ws self));
  prevDisplayNames ← gets (λ ws, displayNames_ (getBlock ws self));
  modify (updateBlock self (setDefinitionMutation xmlElement));;
  updateDisplay_ self;;
  role ← gets (λ ws, roleOf ws self);
  match role with
  | Some Prototype => updateArgumentReporterNames_ self prevArgIds prevDisplayNames
  | _ => ret tt
  end.

(** [caller.mutationToDom()] and [caller.domToMutation(mutation)], as bound
    by [init]; other blocks have neither method. *)
Definition mutationToDom (self : BlockRef) : M MutationDom :=
  role ← gets (λ ws, roleOf ws self);
  match role with
  | Some Call => gets (λ ws, callerMutationToDom ws self)
  | Some Prototype | Some Declaration => gets (λ ws, definitionMutationToDom ws self false)
  | None => throw "TypeError: caller.mutationToDom is not a function"
  end.

Definition domToMutation (self : BlockRef) (xmlElement : MutationDom) : M unit :=
  role ← gets (λ ws, roleOf ws self);
  match role with
  | Some Call => callerDomToMutation self xmlElement
  | Some Prototype | Some Declaration => definitionDomToMutation self xmlElement
  | None => throw "TypeError: caller.domToMutation is not a function"
  end.

(** ** Utility functions for handling procedures *)

Definition isProcedureBlock (ws : Workspace) (b : BlockRef) : bool :=
  let ty := type (getBlock ws b) in
  bool_decide (ty = PROCEDURES_CALL_BLOCK_TYPE)
  || bool_decide (ty = PROCEDURES_DECLARATION_BLOCK_TYPE)
  || bool_decide (ty = PROCEDURES_PROTOTYPE_BLOCK_TYPE).

(** The filter of [getCallers]. *)
Definition isCallerOf (ws : Workspace) (name : string) (descendant : BlockRef) : bool :=
  isProcedureBlock ws descendant
  && bool_decide (type (getBlock ws descendant) = PROCEDURES_CALL_BLOCK_TYPE)
  && bool_decide (procCode_ (getBlock ws descendant) = name).

(** [getCallers(name, workspace, definitionRoot, allowRecursive)]; block
    ids are compared as references. *)
Definition getCallers (name : string) (ws : Workspace) (definitionRoot : BlockRef)
    (allowRecursive : bool) : list BlockRef :=
  flat_map (λ block,
      if bool_decide (block = definitionRoot) && negb allowRecursive then []
      else filter (λ d, isCallerOf ws name d = true) (getDescendants ws block))
    (topBlocks ws).

(** [block.getInput(name)] *)
Definition getInput (ws : Workspace) (b : BlockRef) (n : string) : option Input :=
  List.find (λ i, String.eqb (name i) n) (inputList (getBlock ws b)).

(** The predicate of the [find] in [getDefineBlock]; [getInput] may return
    [null] and the connection may be empty, and reading through either
    throws. *)
Definition definesProcedure (ws : Workspace) (procCode : string) (block : BlockRef)
    : Outcome bool :=
  if bool_decide (type (getBlock ws block) = PROCEDURES_DEFINITION_BLOCK_TYPE) then
    match getInput ws block "custom_block" with
    | None => Throw "TypeError: Cannot read properties of null"
    | Some input =>
        if hasConnection input then
          match targetBlock input with
          | None => Throw "TypeError: Cannot read properties of null"
          | Some prototypeBlock =>
              Return (isProcedureBlock ws prototypeBlock
                      && bool_decide (procCode_ (getBlock ws prototypeBlock) = procCode))
          end
        else Throw "TypeError: Cannot read properties of null"
    end
  else Return false.

Fixpoint findDefineBlock (ws : Workspace) (procCode : string) (tops : list BlockRef)
    : Outcome (option BlockRef) :=
  match tops with
  | [] => Return None
  | block :: tops' =>
      match definesProcedure ws procCode block with
      | Throw e => Throw e
      | Return true => Return (Some block)
      | Return false => findDefineBlock ws procCode tops'
      end
  end.

Definition getDefineBlock (procCode : string) : M (option BlockRef) :=
  λ ws, (ws, findDefineBlock ws procCode (topBlocks ws)).

Definition getPrototypeBlock (procCode : string) : M (option BlockRef) :=
  defineBlock ← getDefineBlock procCode;
  match defineBlock with
  | Some defineBlock =>
      gets (λ ws, getInput ws defineBlock "custom_block" ≫= targetBlock)
  | None => ret None
  end.

(** The body of [callers.forEach] in [mutateCallersAndPrototype]. *)
Definition mutateCaller (mutation : MutationDom) (caller : BlockRef) : M unit :=
  oldMutation ← mutationToDom caller;
  domToMutation caller mutation;;
  newMutation ← mutationToDom caller;
  if bool_decide (oldMutation ≠ newMutation) then
    Events_fire (BLOCK_CHANGE caller "mutation" oldMutation newMutation)
  else ret tt.

Definition mutateCallersAndPrototype (name : string) (mutation : MutationDom) : M unit :=
  defineBlock ← getDefineBlock name;
  prototypeBlock ← getPrototypeBlock name;
  match defineBlock, prototypeBlock with
  | Some defineBlock, Some prototypeBlock =>
      callers ← gets (λ ws, getCallers name ws defineBlock true);
      let callers := callers ++ [prototypeBlock] in
      Events_setGroup true;;
      forEach (mutateCaller mutation) callers;;
      Events_setGroup false
  | _, _ => alert "No define block on workspace"
  end.

(** [Blockly.BlockSvg.prototype.checkAndDelete.call(block)] of the host:
    the block and its subtree are disposed. *)
Definition checkAndDelete (b : BlockRef) : M unit := dispose b.

Definition deleteProcedureDefCallback (procCode : string) (definitionRoot : BlockRef)
    : M bool :=
  callers ← gets (λ ws, getCallers procCode ws definitionRoot false);
  if (0 <? List.length callers)%nat then ret false
  else
    checkAndDelete definitionRoot;;
    ret true.

(** * Properties *)

(** ** Running a computation *)

Lemma bind_run {A B} (m : M A) (k : A → M B) (ws : Workspace) :
  (m ≫= k) ws =
  match m ws with
  | (ws', Return a) => k a ws'
  | (ws', Throw e) => (ws', Throw e)
  end.
Proof. reflexivity. Qed.

Lemma bind_return {A B} (m : M A) (k : A → M B) ws ws' a :
  m ws = (ws', Return a) → (m ≫= k) ws = k a ws'.
Proof. intros H. rewrite bind_run, H. reflexivity. Qed.

Lemma bind_throw {A B} (m : M A) (k : A → M B) ws ws' e :
  m ws = (ws', Throw e) → (m ≫= k) ws = (ws', Throw e).
Proof. intros H. rewrite bind_run, H. reflexivity. Qed.

Lemma forOf_app {A S} (body : S → A → M S) acc l1 l2 ws :
  forOf body acc (l1 ++ l2) ws =
  match forOf body acc l1 ws with
  | (ws', Return acc') => forOf body acc' l2 ws'
  | (ws', Throw e) => (ws', Throw e)
  end.
Proof.
  revert acc ws. induction l1 as [|x l1 IH]; intros acc ws; simpl.
  - reflexivity.
  - rewrite !bind_run. destruct (body acc x ws) as [ws1 [acc1|e]]; auto.
Qed.

(** ** The signature parser *)

Section Parser.

Fixpoint allWhite (s : string) : bool :=
  match s with
  | EmptyString => true
  | String c s' => JS.isWhiteSpace c && allWhite s'
  end.

Lemma trimEnd_cons_nonwhite c s :
  JS.isWhiteSpace c = false → ∃ t, JS.trimEnd (String c s) = String c t.
Proof.
  intros Hc. simpl. destruct (JS.trimEnd s) eqn:E.
  - rewrite Hc. eauto.
  - eauto.
Qed.

Lemma append_nil s : "" +:+ s = s.
Proof. reflexivity. Qed.

Lemma append_cons c s t : String c s +:+ t = String c (s +:+ t).
Proof. reflexivity. Qed.

Lemma trim_leading_marker lead x rest :
  allWhite lead = true → JS.isWhiteSpace x = false →
  ∃ t, JS.trim (lead +:+ String "%" (String x rest)) = String "%" (String x t).
Proof.
  intros Hl Hx. unfold JS.trim. induction lead as [|c lead IH].
  - rewrite append_nil.
    destruct (trimEnd_cons_nonwhite x rest Hx) as [t Ht].
    change (JS.trimStart (String "%" (String x rest))) with (String "%" (String x rest)).
    cbn [JS.trimEnd]. cbn [JS.trimEnd] in Ht. rewrite Ht. eauto.
  - cbn [allWhite] in Hl. apply andb_prop in Hl as [Hc Hl].
    rewrite append_cons. cbn [JS.trimStart]. rewrite Hc. auto.
Qed.

(** The first piece of the split keeps a prefix on which no cut falls. *)
Lemma splitProcCode_first_char c s :
  ∃ cur rest, splitProcCode (String c s) = String c cur :: rest.
Proof.
  cbn [splitProcCode]. destruct (argMarkerAhead s); [eauto|].
  destruct (splitProcCode s); eauto.
Qed.

Lemma splitProcCode_leading_marker lead x rest :
  allWhite lead = true → x ≠ "%"%char → isArgLetter x = false →
  argMarkerAhead (String x rest) = false →
  ∃ more others,
    splitProcCode (lead +:+ String "%" (String x rest))
    = (lead +:+ String "%" (String x more)) :: others.
Proof.
  intros Hl Hx Hn Hcut. induction lead as [|c lead IH].
  - rewrite append_nil.
    destruct (splitProcCode_first_char x rest) as (cur & others & Hsp).
    exists cur, others. rewrite append_nil.
    change (splitProcCode (String "%" (String x rest))) with
      (if argMarkerAhead (String x rest)
       then ["%"] ++ splitProcCode (String x rest)
       else match splitProcCode (String x rest) with
            | cur :: rest => String "%" cur :: rest
            | [] => ["%"]
            end).
    rewrite Hcut, Hsp. reflexivity.
  - cbn [allWhite] in Hl. apply andb_prop in Hl as [Hc Hl].
    destruct (IH Hl) as (more & others & IHeq).
    exists more, others. rewrite !append_cons.
    change (splitProcCode (String c (lead +:+ String "%" (String x rest)))) with
      (if argMarkerAhead (lead +:+ String "%" (String x rest))
       then [String c ""] ++ splitProcCode (lead +:+ String "%" (String x rest))
       else match splitProcCode (lead +:+ String "%" (String x rest)) with
            | cur :: rest => String c cur :: rest
            | [] => [String c ""]
            end).
    rewrite IHeq.
    assert (argMarkerAhead (lead +:+ String "%" (String x rest)) = false) as ->; [|done].
    unfold argMarkerAhead.
    destruct lead as [|c1 [|c2 lead]]; rewrite ?append_cons, ?append_nil.
    + destruct rest as [|t rest']; [done|].
      destruct (Ascii.eqb_spec x "%"); [done|].
      by rewrite andb_false_r.
    + rewrite Hn. by rewrite andb_false_r.
    + cbn [allWhite] in Hl. apply andb_prop in Hl as [_ Hl].
      apply andb_prop in Hl as [Hc2 _].
      destruct (lead +:+ String "%" (String x rest)); [done|].
      destruct (Ascii.eqb_spec c2 "%") as [->|]; [done|].
      by rewrite andb_false_r.
Qed.

Lemma argumentTypeOfString_invalid x :
  isArgLetter x = false → argumentTypeOfString (String x "") = None.
Proof.
  unfold isArgLetter, argumentTypeOfString. intros H.
  apply orb_false_elim in H as [H Hs]. apply orb_false_elim in H as [Hn Hb].
  cbn [String.eqb]. rewrite Hn, Hb, Hs. reflexivity.
Qed.

End Parser.

(** ** Sample workspaces *)

Module Sample.

Definition valueInput (n : string) (t : option BlockRef) : Input :=
  {| name := n; kind := VALUE; check := None; targetBlock := t;
     shadowDom := None; fieldRow := [] |}.

Definition labelInput (text : string) : Input :=
  {| name := ""; kind := DUMMY; check := None; targetBlock := None;
     shadowDom := None; fieldRow := labelFields text |}.

Definition statementInput (n : string) (t : option BlockRef) : Input :=
  {| name := n; kind := STATEMENT; check := None; targetBlock := t;
     shadowDom := None; fieldRow := [] |}.

(** A procedure block of type [ty] with the given mutation and inputs. *)
Definition procedureBlock (ty procCode : string) (ids : list string)
    (names : option (list string)) (gen : option bool) (parent : option BlockRef)
    (inputs : list Input) : Block :=
  {| type := ty; isShadow := false; disposed := false; parentBlock_ := parent;
     fields := ∅; inputList := inputs; nextBlock := None;
     procCode_ := procCode; argumentIds_ := ids; displayNames_ := names;
     argumentDefaults_ := (λ l, map (λ _, "") l) <$> names; warp_ := false;
     generateShadows_ := gen |}.

(** A plain block of type [ty] with one field. *)
Definition leafBlock (ty : string) (shadowed : bool) (parent : option BlockRef)
    (fname fvalue : string) : Block :=
  {| type := ty; isShadow := shadowed; disposed := false; parentBlock_ := parent;
     fields := {[ fname := fvalue ]}; inputList := []; nextBlock := None;
     procCode_ := ""; argumentIds_ := []; displayNames_ := None;
     argumentDefaults_ := None; warp_ := false; generateShadows_ := None |}.

Definition workspace (db : list (BlockRef * Block)) (tops : list BlockRef) : Workspace :=
  {| blockDB := list_to_map db; topBlocks := tops; fired := [];
     disabled := 0; group := false; uidCounter := 0 |}.

Definition mutation (procCode : string) (ids : list string)
    (names : option (list string)) (gen : option bool) : MutationDom :=
  {| generateshadows := gen; proccode := procCode; argumentids := ids;
     argumentnames := names;
     argumentdefaults := (λ l, map (λ _, "") l) <$> names; warp := false |}.

(** A call block "say %s" holding a number block in its only slot. *)
Definition sayCall : Workspace :=
  workspace
    [ (0, procedureBlock "procedures_call" "say %s" ["a1"] None (Some true) None
            [labelInput "say"; valueInput "a1" (Some 1); labelInput ""]);
      (1, leafBlock "math_number" false (Some 0) "NUM" "7") ]
    [0].

End Sample.

(** ** C6: which invalid markers are reported *)

Section InvalidMarkers.

(** The claim's premise: an unescaped [%] followed by a letter other than
    [n], [b] and [s] somewhere in the procCode. *)
Definition containsInvalidMarker (procCode : string) (letter : ascii) : Prop :=
  ∃ before after, procCode = before +:+ String "%" (String letter after)
    ∧ isArgLetter letter = false
    ∧ (before = "" ∨ ∃ b c, before = b +:+ String c "" ∧ c ≠ "\"%char).

(** C6 fails as stated: in "say %x now" the marker [%x] follows label text,
    no cut falls before it, and the whole procCode becomes one label; the
    mutation is applied and no error is raised. *)
Lemma C6_counterexample :
  containsInvalidMarker "say %x now" "x"
  ∧ ∃ ws', callerDomToMutation 0 (Sample.mutation "say %x now" [] None None) Sample.sayCall
           = (ws', Return tt)
         ∧ inputList (getBlock ws' 0) = [Sample.labelInput "say %x now"].
Proof.
  split.
  - exists "say ", " now". split; [reflexivity|]. split; [reflexivity|].
    right. exists "say", " "%char. split; [reflexivity|]. discriminate.
  - eexists. split; [vm_compute; reflexivity|]. vm_compute. reflexivity.
Qed.

(** The first component of a procCode that begins, after blanks, with an
    invalid marker is that marker and what follows it up to the next cut. *)
Lemma procComponents_leading_marker (lead : string) (x : ascii) (rest : string) :
  allWhite lead = true →
  JS.isWhiteSpace x = false →
  x ≠ "%"%char →
  isArgLetter x = false →
  argMarkerAhead (String x rest) = false →
  ∃ t others,
    procComponents (lead +:+ String "%" (String x rest))
    = String "%" (String x t) :: others.
Proof.
  intros Hlead Hx Hpc Hletter Hcut. unfold procComponents.
  destruct (splitProcCode_leading_marker lead x rest Hlead Hpc Hletter Hcut)
    as (more & others & ->).
  destruct (trim_leading_marker lead x more Hlead Hx) as (t & Ht).
  exists t, (map JS.trim others). cbn [map]. by rewrite Ht.
Qed.

(** A component that begins with an invalid marker makes its turn of the
    loop throw, with nothing written. *)
Lemma createInput_invalid_marker self st (x : ascii) (t : string) ws :
  isArgLetter x = false →
  createInput self st (String "%" (String x t)) ws
  = (ws, Throw (invalidTypeMessage (String x ""))).
Proof.
  intros Hletter. unfold createInput. destruct st as [argumentCount connectionMap].
  change (JS.substring 0 1 (String "%" (String x t))) with "%".
  rewrite bool_decide_eq_true_2 by reflexivity.
  replace (JS.substring 1 2 (String "%" (String x t))) with (String x "").
  2:{ unfold JS.substring. cbn. by destruct t. }
  by rewrite argumentTypeOfString_invalid.
Qed.

(** C6 (amended): when the first non-blank character of the procCode is a
    [%] followed by a non-blank character other than [n], [b], [s] and [%],
    and no argument marker starts right behind that character, building the
    inputs throws the error that names the character, before anything is
    written. *)
Theorem C6_leading_invalid_marker_reported
    (ws : Workspace) (self : BlockRef) (connectionMap : ConnectionMap)
    (lead : string) (x : ascii) (rest : string) :
  procCode_ (getBlock ws self) = lead +:+ String "%" (String x rest) →
  allWhite lead = true →
  JS.isWhiteSpace x = false →
  x ≠ "%"%char →
  isArgLetter x = false →
  argMarkerAhead (String x rest) = false →
  createAllInputs_ self connectionMap ws
  = (ws, Throw (invalidTypeMessage (String x ""))).
Proof.
  intros Hcode Hlead Hx Hpc Hletter Hcut.
  unfold createAllInputs_. rewrite bind_run. cbn [gets]. rewrite Hcode.
  destruct (procComponents_leading_marker lead x rest Hlead Hx Hpc Hletter Hcut)
    as (t & others & ->).
  cbn [forOf]. rewrite !bind_run.
  by rewrite createInput_invalid_marker.
Qed.

Lemma C6_leading_invalid_marker_witness :
  createAllInputs_ 0 []
    (updateBlock 0 (setCallerMutation (Sample.mutation " %x now" [] None None))
       Sample.sayCall)
  = (updateBlock 0 (setCallerMutation (Sample.mutation " %x now" [] None None))
       Sample.sayCall,
     Throw (invalidTypeMessage "x")).
Proof.
  apply (C6_leading_invalid_marker_reported _ 0 [] " " "x" " now");
    first [reflexivity | discriminate].
Defined.

End InvalidMarkers.

(** ** The block store *)

Section Store.

Lemma getBlock_updateBlock b f ws b' :
  getBlock (updateBlock b f ws) b' =
  if decide (b = b') then f (getBlock ws b) else getBlock ws b'.
Proof.
  unfold getBlock, updateBlock. cbn. rewrite lookup_total_insert.
  by destruct (decide (b = b')) as [->|].
Qed.

Lemma getBlock_updateBlock_eq b f ws :
  getBlock (updateBlock b f ws) b = f (getBlock ws b).
Proof. rewrite getBlock_updateBlock. by rewrite decide_True. Qed.

Lemma getBlock_updateBlock_ne b f ws b' :
  b ≠ b' → getBlock (updateBlock b f ws) b' = getBlock ws b'.
Proof. intros. rewrite getBlock_updateBlock. by rewrite decide_False. Qed.

Lemma getBlock_setTopBlocks tops ws b :
  getBlock (setTopBlocks tops ws) b = getBlock ws b.
Proof. reflexivity. Qed.

Lemma dom_updateBlock b f ws :
  dom (blockDB (updateBlock b f ws)) = {[b]} ∪ dom (blockDB ws).
Proof. unfold updateBlock. cbn. by rewrite dom_insert_L. Qed.

Lemma getBlock_fresh ws :
  getBlock ws (freshRef ws) = emptyBlock "".
Proof.
  unfold getBlock, freshRef. rewrite lookup_total_alt.
  by rewrite (not_elem_of_dom_1 _ _ (is_fresh (dom (blockDB ws)))).
Qed.

Lemma getBlock_updateInput_eq self idx f ws :
  getBlock (updateInput self idx f ws) self
  = setInputList (alter f idx (inputList (getBlock ws self))) (getBlock ws self).
Proof. unfold updateInput. by rewrite getBlock_updateBlock_eq. Qed.

Lemma getBlock_updateInput_ne self idx f ws b :
  self ≠ b → getBlock (updateInput self idx f ws) b = getBlock ws b.
Proof. intros. unfold updateInput. by rewrite getBlock_updateBlock_ne. Qed.

End Store.

(** ** What a computation leaves untouched *)

Section Frames.

(** The mutation state of a block. *)
Definition mutationState (b : Block) :=
  (procCode_ b, argumentIds_ b, displayNames_ b, argumentDefaults_ b, warp_ b,
   generateShadows_ b).

Definition isChange (e : Event) : bool :=
  match e with BLOCK_CHANGE _ _ _ _ => true | _ => false end.

(** The mutation-change notifications among the fired events. *)
Definition changeEvents (evs : list Event) : list Event := List.filter isChange evs.

(** [frame ws ws']: from [ws] to [ws'] no block changed its mutation state,
    no existing block changed its type, no reference was lost and no
    mutation-change notification was fired. *)
Record frame (ws ws' : Workspace) : Prop := mkFrame {
  frame_mutation : ∀ b, mutationState (getBlock ws' b) = mutationState (getBlock ws b);
  frame_type : ∀ b, b ∈ dom (blockDB ws) → type (getBlock ws' b) = type (getBlock ws b);
  frame_dom : dom (blockDB ws) ⊆ dom (blockDB ws');
  frame_events : changeEvents (fired ws') = changeEvents (fired ws)
}.

(** [quiet ws ws']: in addition no block was disposed. *)
Record quiet (ws ws' : Workspace) : Prop := mkQuiet {
  quiet_frame : frame ws ws';
  quiet_disposed : ∀ b, disposed (getBlock ws' b) = disposed (getBlock ws b)
}.

#[global] Instance frame_preorder : PreOrder frame.
Proof.
  split.
  - intros ws. by split.
  - intros ws1 ws2 ws3 [Hm1 Ht1 Hd1 He1] [Hm2 Ht2 Hd2 He2]. split.
    + intros b. by rewrite Hm2.
    + intros b Hb. rewrite Ht2 by set_solver. by apply Ht1.
    + set_solver.
    + congruence.
Qed.

#[global] Instance quiet_preorder : PreOrder quiet.
Proof.
  split.
  - intros ws. by split.
  - intros ws1 ws2 ws3 [Hf1 Hd1] [Hf2 Hd2]. split.
    + by transitivity ws2.
    + intros b. by rewrite Hd2.
Qed.

(** [preserves R m]: the state [m] stops in, by return or by throw, is
    related to the one it started from. *)
Definition preserves {A} (R : relation Workspace) (m : M A) : Prop :=
  ∀ ws, R ws (m ws).1.

Context (R : relation Workspace) `{!PreOrder R}.

Lemma preserves_ret {A} (a : A) : preserves R (ret a).
Proof. intros ws. reflexivity. Qed.

Lemma preserves_throw {A} e : preserves R (throw (A:=A) e).
Proof. intros ws. reflexivity. Qed.

Lemma preserves_gets {A} (f : Workspace → A) : preserves R (gets f).
Proof. intros ws. reflexivity. Qed.

Lemma preserves_modify f : (∀ ws, R ws (f ws)) → preserves R (modify f).
Proof. intros H ws. apply H. Qed.

Lemma preserves_bind {A B} (m : M A) (k : A → M B) :
  preserves R m → (∀ a, preserves R (k a)) → preserves R (m ≫= k).
Proof.
  intros Hm Hk ws. rewrite bind_run. specialize (Hm ws).
  destruct (m ws) as [ws1 [a|e]]; cbn in *; [|done].
  transitivity ws1; [done|]. apply Hk.
Qed.

Lemma preserves_forOf {A S} (body : S → A → M S) acc l :
  (∀ acc x, preserves R (body acc x)) → preserves R (forOf body acc l).
Proof.
  intros Hb. revert acc. induction l as [|x l IH]; intros acc; cbn [forOf].
  - apply preserves_ret.
  - apply preserves_bind; auto.
Qed.

Lemma preserves_forEach {A} (body : A → M unit) l :
  (∀ x, preserves R (body x)) → preserves R (forEach body l).
Proof. intros Hb. apply preserves_forOf. auto. Qed.

End Frames.

(** One step through the syntax of a computation. *)
Ltac preserves_step :=
  cbv beta;
  lazymatch goal with
  | |- preserves _ (_ ≫= _) => apply preserves_bind; [typeclasses eauto| |intros]
  | |- preserves _ (ret _) => apply preserves_ret; typeclasses eauto
  | |- preserves _ (throw _) => apply preserves_throw; typeclasses eauto
  | |- preserves _ (gets _) => apply preserves_gets; typeclasses eauto
  | |- preserves _ (forOf _ _ _) => apply preserves_forOf; [typeclasses eauto|intros]
  | |- preserves _ (forEach _ _) => apply preserves_forEach; [typeclasses eauto|intros]
  | |- preserves _ (match ?x with _ => _ end) => destruct x
  end.

Create HintDb preserves discriminated.

Ltac preserves_auto := repeat first [preserves_step | solve [auto with preserves]].

Section FramePrimitives.

(** Updates of a block that touch neither its mutation state nor its type
    nor its disposal. *)
Definition benign (f : Block → Block) : Prop :=
  ∀ b, mutationState (f b) = mutationState b ∧ type (f b) = type b
       ∧ disposed (f b) = disposed b.

Lemma benign_setInputList l : benign (setInputList l).
Proof. by intros []. Qed.
Lemma benign_setParent p : benign (setParent p).
Proof. by intros []. Qed.
Lemma benign_setShadow s : benign (setShadow s).
Proof. by intros []. Qed.
Lemma benign_setFields fs : benign (setFields fs).
Proof. by intros []. Qed.
Lemma benign_setNextBlock n : benign (setNextBlock n).
Proof. by intros []. Qed.
Lemma benign_compose f g : benign f → benign g → benign (λ b, f (g b)).
Proof.
  intros Hf Hg b. destruct (Hf (g b)) as (-> & -> & ->). apply Hg.
Qed.

Lemma quiet_updateBlock b f ws : benign f → quiet ws (updateBlock b f ws).
Proof.
  intros Hf. destruct (Hf (getBlock ws b)) as (Hm & Ht & Hd).
  split; [split|].
  - intros b'. rewrite getBlock_updateBlock. by case_decide; subst.
  - intros b' _. rewrite getBlock_updateBlock. by case_decide; subst.
  - rewrite dom_updateBlock. set_solver.
  - done.
  - intros b'. rewrite getBlock_updateBlock. by case_decide; subst.
Qed.

Lemma quiet_updateInput self idx f ws : quiet ws (updateInput self idx f ws).
Proof.
  unfold updateInput.
  split; [split|].
  - intros b'. rewrite getBlock_updateBlock. by case_decide; subst.
  - intros b' _. rewrite getBlock_updateBlock. by case_decide; subst.
  - rewrite dom_updateBlock. set_solver.
  - done.
  - intros b'. rewrite getBlock_updateBlock. by case_decide; subst.
Qed.

Lemma quiet_setTopBlocks tops ws : quiet ws (setTopBlocks tops ws).
Proof. by split; [split|]. Qed.
Lemma quiet_setDisabled n ws : quiet ws (setDisabled n ws).
Proof. by split; [split|]. Qed.
Lemma quiet_setGroup g ws : quiet ws (setGroup g ws).
Proof. by split; [split|]. Qed.
Lemma quiet_setUidCounter n ws : quiet ws (setUidCounter n ws).
Proof. by split; [split|]. Qed.

Lemma quiet_setFired e ws : isChange e = false → quiet ws (setFired (fired ws ++ [e]) ws).
Proof.
  intros He. split; [split|]; try done.
  cbn. unfold changeEvents. rewrite List.filter_app. cbn. rewrite He.
  by rewrite app_nil_r.
Qed.

Lemma quiet_addBlock ty ws : quiet ws (addBlock ty ws).
Proof.
  unfold addBlock.
  assert (Hfresh : getBlock ws (freshRef ws) = emptyBlock "") by apply getBlock_fresh.
  split; [split|]; cbn.
  - intros b. unfold getBlock at 1. cbn. rewrite lookup_total_insert.
    case_decide; subst; [by rewrite Hfresh|done].
  - intros b Hb. unfold getBlock at 1. cbn. rewrite lookup_total_insert.
    case_decide; subst; [|done]. by destruct (is_fresh (dom (blockDB ws))).
  - rewrite dom_insert_L. set_solver.
  - done.
  - intros b. unfold getBlock at 1. cbn. rewrite lookup_total_insert.
    case_decide; subst; [by rewrite Hfresh|done].
Qed.

End FramePrimitives.

(** *** The operations keep quiet *)

Lemma frame_of_quiet {A} (m : M A) : preserves quiet m → preserves frame m.
Proof. intros H ws. apply H. Qed.

Lemma quiet_modify_updateBlock b f : benign f → preserves quiet (modify (updateBlock b f)).
Proof. intros Hf ws. by apply quiet_updateBlock. Qed.

Lemma quiet_modify_updateInput self idx f : preserves quiet (modify (updateInput self idx f)).
Proof. intros ws. apply quiet_updateInput. Qed.

Lemma quiet_newBlock ty : preserves quiet (newBlock ty).
Proof. intros ws. apply quiet_addBlock. Qed.

Lemma quiet_genUid : preserves quiet genUid.
Proof. intros ws. apply quiet_setUidCounter. Qed.

Lemma quiet_Events_disable : preserves quiet Events_disable.
Proof. intros ws. apply quiet_setDisabled. Qed.

Lemma quiet_Events_enable : preserves quiet Events_enable.
Proof. intros ws. apply quiet_setDisabled. Qed.

Lemma quiet_Events_isEnabled : preserves quiet Events_isEnabled.
Proof. apply preserves_gets. apply _. Qed.

Lemma quiet_Events_setGroup g : preserves quiet (Events_setGroup g).
Proof. intros ws. apply quiet_setGroup. Qed.

Lemma quiet_Events_fire e : isChange e = false → preserves quiet (Events_fire e).
Proof.
  intros He ws. unfold Events_fire, modify. cbn [fst].
  case_bool_decide; [by apply quiet_setFired|reflexivity].
Qed.

Lemma quiet_setFieldValue b v fname : preserves quiet (setFieldValue b v fname).
Proof.
  destruct v; [|apply preserves_ret; apply _].
  intros ws. apply quiet_updateBlock. by intros [].
Qed.

Lemma quiet_connect self idx child : preserves quiet (connect self idx child).
Proof.
  intros ws. unfold connect, modify, connectState. cbn [fst].
  etransitivity; [apply quiet_updateInput|].
  etransitivity; [apply quiet_updateBlock, benign_setParent|].
  apply quiet_setTopBlocks.
Qed.

Lemma quiet_disconnect self idx child : preserves quiet (disconnect self idx child).
Proof.
  intros ws. unfold disconnect, modify, disconnectState. cbn [fst].
  etransitivity; [apply quiet_updateInput|].
  etransitivity; [apply quiet_updateBlock, benign_setParent|].
  apply quiet_setTopBlocks.
Qed.

Lemma quiet_appendInput self i : preserves quiet (appendInput self i).
Proof. intros ws. cbn. apply quiet_updateBlock. by intros []. Qed.

#[global] Hint Resolve quiet_modify_updateBlock quiet_modify_updateInput quiet_newBlock
  quiet_genUid quiet_Events_disable quiet_Events_enable quiet_Events_isEnabled
  quiet_Events_setGroup quiet_Events_fire quiet_setFieldValue quiet_connect
  quiet_disconnect quiet_appendInput benign_setShadow benign_setInputList
  benign_setParent benign_setFields : preserves.

Lemma quiet_appendValueInput self id : preserves quiet (appendValueInput self id).
Proof. unfold appendValueInput. destruct id as [[|]|]; preserves_auto. Qed.

Lemma quiet_appendDummyInputWithField self n f :
  preserves quiet (appendDummyInputWithField self n f).
Proof. unfold appendDummyInputWithField. preserves_auto. Qed.

#[global] Hint Resolve quiet_appendValueInput quiet_appendDummyInputWithField : preserves.

Lemma quiet_addLabelField_ self text : preserves quiet (addLabelField_ self text).
Proof. unfold addLabelField_. preserves_auto. Qed.

Lemma quiet_addLabelEditor_ self text : preserves quiet (addLabelEditor_ self text).
Proof. unfold addLabelEditor_. case_bool_decide; preserves_auto. Qed.

Lemma quiet_fireCreateIfEnabled b : preserves quiet (fireCreateIfEnabled b).
Proof. unfold fireCreateIfEnabled. preserves_auto. Qed.

#[global] Hint Resolve quiet_addLabelField_ quiet_addLabelEditor_
  quiet_fireCreateIfEnabled : preserves.

Lemma quiet_attachShadow_ self input ty : preserves quiet (attachShadow_ self input ty).
Proof. unfold attachShadow_. destruct ty; preserves_auto. Qed.

Lemma quiet_createArgumentReporter_ ty n : preserves quiet (createArgumentReporter_ ty n).
Proof. unfold createArgumentReporter_. preserves_auto. Qed.

Lemma quiet_createArgumentEditor_ ty n : preserves quiet (createArgumentEditor_ ty n).
Proof. unfold createArgumentEditor_. preserves_auto. Qed.

Lemma quiet_savedConnection cm id : preserves quiet (savedConnection cm id).
Proof. unfold savedConnection. preserves_auto. Qed.

Lemma quiet_displayNameAt self index : preserves quiet (displayNameAt self index).
Proof. unfold displayNameAt. preserves_auto. Qed.

#[global] Hint Resolve quiet_attachShadow_ quiet_createArgumentReporter_
  quiet_createArgumentEditor_ quiet_savedConnection quiet_displayNameAt : preserves.

Lemma quiet_populateArgumentOnCaller_ self ty index cm id input :
  preserves quiet (populateArgumentOnCaller_ self ty index cm id input).
Proof. unfold populateArgumentOnCaller_. preserves_auto. Qed.

Lemma quiet_populateArgumentOnPrototype_ self ty index cm id input :
  preserves quiet (populateArgumentOnPrototype_ self ty index cm id input).
Proof. unfold populateArgumentOnPrototype_. preserves_auto. Qed.

Lemma quiet_populateArgumentOnDeclaration_ self ty index cm id input :
  preserves quiet (populateArgumentOnDeclaration_ self ty index cm id input).
Proof. unfold populateArgumentOnDeclaration_. preserves_auto. Qed.

#[global] Hint Resolve quiet_populateArgumentOnCaller_ quiet_populateArgumentOnPrototype_
  quiet_populateArgumentOnDeclaration_ : preserves.

Lemma quiet_populateArgument_ self ty index cm id input :
  preserves quiet (populateArgument_ self ty index cm id input).
Proof. unfold populateArgument_. preserves_auto. Qed.

Lemma quiet_addProcedureLabel_ self text : preserves quiet (addProcedureLabel_ self text).
Proof. unfold addProcedureLabel_. preserves_auto. Qed.

#[global] Hint Resolve quiet_populateArgument_ quiet_addProcedureLabel_ : preserves.

Lemma quiet_createInput self st component : preserves quiet (createInput self st component).
Proof.
  unfold createInput. destruct st as [argumentCount connectionMap].
  case_bool_decide; preserves_auto.
Qed.

#[global] Hint Resolve quiet_createInput : preserves.

Lemma quiet_createAllInputs_ self cm : preserves quiet (createAllInputs_ self cm).
Proof. unfold createAllInputs_. preserves_auto. Qed.

Lemma quiet_disconnectOldBlock self cm entry : preserves quiet (disconnectOldBlock self cm entry).
Proof. unfold disconnectOldBlock. destruct entry. preserves_auto. Qed.

#[global] Hint Resolve quiet_disconnectOldBlock : preserves.

Lemma quiet_disconnectOldBlocks_ self : preserves quiet (disconnectOldBlocks_ self).
Proof. unfold disconnectOldBlocks_. preserves_auto. Qed.

Lemma quiet_removeAllInputs_ self : preserves quiet (removeAllInputs_ self).
Proof. unfold removeAllInputs_. preserves_auto. Qed.

#[global] Hint Resolve quiet_createAllInputs_ quiet_disconnectOldBlocks_
  quiet_removeAllInputs_ : preserves.

(** Disposal keeps the frame, not the quiet. *)
Lemma frame_updateBlock b f ws :
  (∀ blk, mutationState (f blk) = mutationState blk ∧ type (f blk) = type blk) →
  frame ws (updateBlock b f ws).
Proof.
  intros Hf. destruct (Hf (getBlock ws b)) as (Hm & Ht). split.
  - intros b'. rewrite getBlock_updateBlock. by case_decide; subst.
  - intros b' _. rewrite getBlock_updateBlock. by case_decide; subst.
  - rewrite dom_updateBlock. apply union_subseteq_r.
  - done.
Qed.

Lemma frame_unplug b ws : frame ws (unplug b ws).
Proof.
  unfold unplug. destruct (parentBlock_ (getBlock ws b)); [|reflexivity].
  etransitivity; [|apply frame_updateBlock; by intros []].
  apply frame_updateBlock. by intros [].
Qed.

Lemma frame_dispose b : preserves frame (dispose b).
Proof.
  intros ws. unfold dispose, modify, disposeState. cbn [fst].
  etransitivity; [|apply quiet_setTopBlocks].
  transitivity (unplug b ws); [apply frame_unplug|].
  generalize (unplug b ws). intros ws1.
  induction (getDescendants ws b) as [|d ds IH]; cbn [foldr]; [reflexivity|].
  etransitivity; [apply IH|]. apply frame_updateBlock. by intros [].
Qed.

#[global] Hint Resolve frame_dispose : preserves.

Lemma frame_deleteShadow entry : preserves frame (deleteShadow entry).
Proof. unfold deleteShadow. preserves_auto. Qed.

#[global] Hint Resolve frame_deleteShadow : preserves.

Lemma frame_deleteShadows_ cm : preserves frame (deleteShadows_ cm).
Proof. unfold deleteShadows_. preserves_auto. Qed.

#[global] Hint Resolve frame_deleteShadows_ : preserves.

Lemma frame_updateDisplay_ self : preserves frame (updateDisplay_ self).
Proof.
  unfold updateDisplay_. preserves_auto; apply frame_of_quiet; auto with preserves.
Qed.

#[global] Hint Resolve frame_updateDisplay_ : preserves.

Lemma quiet_applyNameChange nc : preserves quiet (applyNameChange nc).
Proof. unfold applyNameChange. preserves_auto. Qed.

#[global] Hint Resolve quiet_applyNameChange : preserves.

Lemma quiet_updateArgumentReporterNames_ self prevArgIds prevDisplayNames :
  preserves quiet (updateArgumentReporterNames_ self prevArgIds prevDisplayNames).
Proof.
  unfold updateArgumentReporterNames_. preserves_auto.
Qed.

#[global] Hint Resolve quiet_updateArgumentReporterNames_ : preserves.


(** ** C9: loading a mutation and saving it back *)

Section RoundTrip.

(** C9 fails as stated: a call-site record carrying [generateShadows] is
    loaded (the flag reaches [generateShadows_]) but the flag is not written
    back, so the saved record differs from the loaded one. *)
Lemma C9_counterexample :
  let record := Sample.mutation "say %s" ["a1"] None (Some true) in
  let ws' := (callerDomToMutation 0 record Sample.sayCall).1 in
  generateShadows_ (getBlock ws' 0) = Some true
  ∧ generateshadows (callerMutationToDom ws' 0) = None
  ∧ callerMutationToDom ws' 0 ≠ record.
Proof. vm_compute. split; [done|]. split; [done|]. discriminate. Qed.

Lemma modify_then {B} f (k : unit → M B) ws : (modify f ≫= k) ws = k tt (f ws).
Proof. reflexivity. Qed.

Lemma gets_then {A B} (f : Workspace → A) (k : A → M B) ws :
  (gets f ≫= k) ws = k (f ws) ws.
Proof. reflexivity. Qed.

Lemma mutationState_after {A} (m : M A) ws b :
  preserves frame m →
  mutationState (getBlock (m ws).1 b) = mutationState (getBlock ws b).
Proof. intros H. apply (H ws). Qed.

(** C9 (amended): loading a record into a block and saving it back
    reproduces [procCode], [argumentIds] and [warp] on a call site, and in
    addition [argumentNames] and [argumentDefaults] on a prototype or a
    declaration; the saved record of a call site has no [generateShadows],
    whatever the loaded one had.  This holds in whatever state the load
    stops. *)
Theorem C9_load_then_save (ws : Workspace) (self : BlockRef) (record : MutationDom) :
  callerMutationToDom (callerDomToMutation self record ws).1 self
  = {| generateshadows := None; proccode := proccode record;
       argumentids := argumentids record; argumentnames := None;
       argumentdefaults := None; warp := warp record |}
  ∧ definitionMutationToDom (definitionDomToMutation self record ws).1 self false
  = {| generateshadows := None; proccode := proccode record;
       argumentids := argumentids record; argumentnames := argumentnames record;
       argumentdefaults := argumentdefaults record; warp := warp record |}.
Proof.
  split.
  - unfold callerDomToMutation. rewrite modify_then.
    pose proof (mutationState_after (updateDisplay_ self)
      (updateBlock self (setCallerMutation record) ws) self
      (frame_updateDisplay_ self)) as H.
    rewrite getBlock_updateBlock_eq in H.
    unfold callerMutationToDom. unfold mutationState in H. cbn in H.
    by injection H as -> -> _ _ -> _.
  - unfold definitionDomToMutation. rewrite !gets_then, modify_then.
    match goal with |- context [(?m ?w).1] =>
      pose proof (mutationState_after m w self) as H end.
    rewrite getBlock_updateBlock_eq in H.
    unfold definitionMutationToDom. unfold mutationState in H. cbn in H.
    assert (Hp := frame_updateDisplay_ self).
    assert (Hq := λ a b, frame_of_quiet _ (quiet_updateArgumentReporterNames_ self a b)).
    lapply H; [|preserves_auto].
    by intros [= -> -> -> -> -> _].
Qed.

End RoundTrip.

(** ** C3: the deletion guard *)

Section DeletionGuard.

(** A definition "hop %s" (block 0) with its prototype (1), the argument
    reporter of the prototype (2) and a recursive call (3) below it, and a
    second stack (4) that calls "hop %s" through block 5 when [withCaller]
    is set. *)
Definition hopWorkspace (withCaller : bool) : Workspace :=
  Sample.workspace
    [ (0, setNextBlock (Some 3)
            (Sample.procedureBlock "procedures_definition" "" [] None None None
               [Sample.statementInput "custom_block" (Some 1)]));
      (1, setShadow true
            (Sample.procedureBlock "procedures_prototype" "hop %s" ["a1"]
               (Some ["height"]) None (Some 0)
               [Sample.labelInput "hop"; Sample.valueInput "a1" (Some 2);
                Sample.labelInput ""]));
      (2, Sample.leafBlock "argument_reporter_string_number" true (Some 1) "VALUE" "height");
      (3, Sample.procedureBlock "procedures_call" "hop %s" ["a1"] None None (Some 0)
            [Sample.labelInput "hop"; Sample.valueInput "a1" None; Sample.labelInput ""]);
      (4, setNextBlock (if withCaller then Some 5 else None)
            (Sample.leafBlock "event_whenflagclicked" false None "X" ""));
      (5, Sample.procedureBlock "procedures_call" "hop %s" ["a1"] None None (Some 4)
            [Sample.labelInput "hop"; Sample.valueInput "a1" None; Sample.labelInput ""]) ]
    [0; 4].

Lemma getCallers_spec name ws definitionRoot allowRecursive c :
  c ∈ getCallers name ws definitionRoot allowRecursive ↔
  ∃ top, top ∈ topBlocks ws
    ∧ (allowRecursive = true ∨ top ≠ definitionRoot)
    ∧ c ∈ getDescendants ws top
    ∧ type (getBlock ws c) = PROCEDURES_CALL_BLOCK_TYPE
    ∧ procCode_ (getBlock ws c) = name.
Proof.
  unfold getCallers. rewrite list_elem_of_In, in_flat_map. split.
  - intros (top & Htop & Hc). exists top. rewrite list_elem_of_In. split; [done|].
    destruct (bool_decide (top = definitionRoot) && negb allowRecursive) eqn:E.
    { by apply List.in_nil in Hc. }
    apply list_elem_of_In, list_elem_of_filter in Hc as [Hf Hd].
    unfold isCallerOf in Hf.
    apply andb_prop in Hf as [Hf Hn]. apply andb_prop in Hf as [_ Hty].
    apply bool_decide_eq_true in Hn, Hty.
    repeat split; try done.
    apply andb_false_iff in E as [E|E].
    + right. by apply bool_decide_eq_false in E.
    + left. by destruct allowRecursive.
  - intros (top & Htop & Hrec & Hd & Hty & Hn). exists top.
    rewrite <- list_elem_of_In. split; [done|].
    assert (bool_decide (top = definitionRoot) && negb allowRecursive = false) as ->.
    { destruct Hrec as [->|Hne]; [by rewrite andb_false_r|].
      by rewrite bool_decide_eq_false_2. }
    apply list_elem_of_In, list_elem_of_filter. split; [|done].
    unfold isCallerOf, isProcedureBlock. rewrite Hty, Hn.
    rewrite (bool_decide_eq_true_2 (name = name)) by done. reflexivity.
Qed.

Lemma disposed_after_marking ds ws d :
  d ∈ ds →
  disposed (getBlock (foldr (λ d w, updateBlock d setDisposed w) ws ds) d) = true.
Proof.
  induction ds as [|d' ds IH]; [by intros ?%elem_of_nil|].
  intros Hd. cbn [foldr]. rewrite getBlock_updateBlock.
  case_decide; [done|]. apply IH.
  apply elem_of_cons in Hd as [Heq|Hin]; [by subst|done].
Qed.

Lemma unmarked_after_marking ds ws b :
  b ∉ ds →
  getBlock (foldr (λ d w, updateBlock d setDisposed w) ws ds) b = getBlock ws b.
Proof.
  induction ds as [|d' ds IH]; [done|].
  intros Hd. cbn [foldr]. rewrite getBlock_updateBlock_ne by set_solver.
  apply IH. set_solver.
Qed.

Lemma topBlocks_after_marking ds ws :
  topBlocks (foldr (λ d w, updateBlock d setDisposed w) ws ds) = topBlocks ws.
Proof. induction ds as [|d' ds IH]; [done|]. cbn [foldr]. by rewrite <- IH. Qed.

Lemma getBlock_unplug_other b ws b' :
  b' ≠ b → parentBlock_ (getBlock ws b) ≠ Some b' →
  getBlock (unplug b ws) b' = getBlock ws b'.
Proof.
  intros Hb Hp. unfold unplug. destruct (parentBlock_ (getBlock ws b)) as [p|]; [|done].
  rewrite !getBlock_updateBlock_ne; [done| |done]. congruence.
Qed.

(** C3: [deleteProcedureDefCallback] returns [true] exactly when the search
    for callers with recursion excluded is empty, that is when no call block
    of [procCode] lies in a stack other than the one rooted at
    [definitionRoot].  In that case every block of the definition's subtree
    is disposed, the definition is no longer a top block and the blocks
    outside the subtree (the parent of the root apart) are as they were.
    Otherwise [false] is returned and the workspace is unchanged. *)
Theorem C3_deletion_guard (ws : Workspace) (procCode : string) (definitionRoot : BlockRef) :
  let callers := getCallers procCode ws definitionRoot false in
  let result := deleteProcedureDefCallback procCode definitionRoot ws in
  (callers = [] ↔
     ∀ top c, top ∈ topBlocks ws → top ≠ definitionRoot → c ∈ getDescendants ws top →
       ¬ (type (getBlock ws c) = PROCEDURES_CALL_BLOCK_TYPE
          ∧ procCode_ (getBlock ws c) = procCode))
  ∧ result.2 = Return (bool_decide (callers = []))
  ∧ (callers = [] →
       (∀ d, d ∈ getDescendants ws definitionRoot → disposed (getBlock result.1 d) = true)
       ∧ (definitionRoot ∉ topBlocks (result.1))
       ∧ (∀ b, b ∉ getDescendants ws definitionRoot → b ≠ definitionRoot →
              parentBlock_ (getBlock ws definitionRoot) ≠ Some b →
              getBlock result.1 b = getBlock ws b))
  ∧ (callers ≠ [] → result.1 = ws).
Proof.
  intros callers result. split; [|split; [|split]].
  - split.
    + intros Hnil top c Htop Hne Hc [Hty Hn].
      assert (c ∈ callers) as Hin.
      { apply getCallers_spec. exists top. naive_solver. }
      rewrite Hnil in Hin. by apply elem_of_nil in Hin.
    + intros H. destruct callers as [|c cs] eqn:E; [done|]. exfalso.
      assert (c ∈ callers) as Hin by (rewrite E; left).
      apply getCallers_spec in Hin as (top & Htop & [?|Hne] & Hd & Hty & Hn); [done|].
      by apply (H top c).
  - unfold result, deleteProcedureDefCallback. rewrite gets_then. fold callers.
    destruct callers; reflexivity.
  - intros Hnil. unfold result, deleteProcedureDefCallback. rewrite gets_then.
    fold callers. rewrite Hnil. cbn [List.length Nat.ltb Nat.leb].
    unfold checkAndDelete, dispose, disposeState. rewrite modify_then.
    cbn [fst ret mret M_ret].
    split; [|split].
    + intros d Hd. rewrite getBlock_setTopBlocks. by apply disposed_after_marking.
    + cbn [topBlocks setTopBlocks]. intros Hin%list_elem_of_filter. by destruct Hin.
    + intros b Hb Hne Hp. rewrite getBlock_setTopBlocks.
      rewrite unmarked_after_marking by done. by apply getBlock_unplug_other.
  - intros Hne. unfold result, deleteProcedureDefCallback. rewrite gets_then.
    fold callers. by destruct callers.
Qed.

Lemma C3_deletion_guard_witness :
  (deleteProcedureDefCallback "hop %s" 0 (hopWorkspace true)).1 = hopWorkspace true
  ∧ (∀ d, d ∈ [0; 1; 2; 3] →
       disposed (getBlock (deleteProcedureDefCallback "hop %s" 0 (hopWorkspace false)).1 d)
       = true).
Proof.
  split.
  - apply (C3_deletion_guard (hopWorkspace true) "hop %s" 0). vm_compute. discriminate.
  - apply (C3_deletion_guard (hopWorkspace false) "hop %s" 0). vm_compute. reflexivity.
Defined.

End DeletionGuard.

(** ** C7 and C10: renaming the argument reporters of a definition *)

Section ReporterRenames.

(** The calls [block.setFieldValue(newName, "VALUE")] made by the last loop
    of [updateArgumentReporterNames_], in order. *)
Definition writesOf (nameChanges : list NameChange) : list (BlockRef * option string) :=
  flat_map (λ nc, map (λ b, (b, newName nc)) (blocks nc)) nameChanges.

(** How many times [b] is relabeled. *)
Definition relabelCount (b : BlockRef) (nameChanges : list NameChange) : nat :=
  List.length (filter (λ w, w.1 = b) (writesOf nameChanges)).

Definition setLabel (w : BlockRef * option string) (ws : Workspace) : Workspace :=
  (setFieldValue w.1 w.2 "VALUE" ws).1.

Definition applyWrites (writes : list (BlockRef * option string)) (ws : Workspace)
    : Workspace :=
  foldl (λ ws w, setLabel w ws) ws writes.

(** The value of the last effective write to [b], if any. *)
Definition lastWrite (b : BlockRef) (writes : list (BlockRef * option string))
    : option string :=
  foldl (λ acc w, if bool_decide (w.1 = b) then from_option Some acc w.2 else acc)
        None writes.

Definition withLabel (v : option string) (blk : Block) : Block :=
  match v with
  | Some v => setFields (<["VALUE" := v]> (fields blk)) blk
  | None => blk
  end.

Lemma forEach_setFieldValue bs v ws :
  forEach (λ b, setFieldValue b v "VALUE") bs ws
  = (applyWrites (map (λ b, (b, v)) bs) ws, Return tt).
Proof.
  revert ws. induction bs as [|b bs IH]; intros ws; [done|].
  unfold forEach in *. cbn [forOf map]. rewrite bind_run.
  unfold applyWrites. cbn [foldl]. unfold setLabel at 2. cbn [fst snd].
  destruct v as [v|]; cbn; apply IH.
Qed.

Lemma applyWrites_app w1 w2 ws :
  applyWrites (w1 ++ w2) ws = applyWrites w2 (applyWrites w1 ws).
Proof. unfold applyWrites. by rewrite foldl_app. Qed.

Lemma forEach_applyNameChange nameChanges ws :
  forEach applyNameChange nameChanges ws
  = (applyWrites (writesOf nameChanges) ws, Return tt).
Proof.
  revert ws. induction nameChanges as [|nc ncs IH]; intros ws; [done|].
  unfold forEach in *. cbn [forOf]. rewrite bind_run.
  unfold applyNameChange at 1. rewrite forEach_setFieldValue.
  rewrite IH. unfold writesOf. cbn [flat_map]. by rewrite applyWrites_app.
Qed.

Lemma withLabel_withLabel v1 v2 blk :
  withLabel v2 (withLabel v1 blk) = withLabel (from_option Some v1 v2) blk.
Proof.
  destruct v2 as [v2|], v1 as [v1|]; cbn; try done.
  by rewrite insert_insert_eq.
Qed.

Lemma getBlock_setLabel w ws b :
  getBlock (setLabel w ws) b
  = if bool_decide (w.1 = b) then withLabel w.2 (getBlock ws b) else getBlock ws b.
Proof.
  unfold setLabel, setFieldValue. destruct w as [b' [v|]]; cbn.
  - rewrite getBlock_updateBlock. case_decide; subst.
    + by rewrite bool_decide_eq_true_2.
    + by rewrite bool_decide_eq_false_2.
  - by case_bool_decide.
Qed.

Lemma lastWrite_snoc b writes w :
  lastWrite b (writes ++ [w])
  = if bool_decide (w.1 = b) then from_option Some (lastWrite b writes) w.2
    else lastWrite b writes.
Proof. unfold lastWrite. by rewrite foldl_app. Qed.

Lemma getBlock_applyWrites writes ws b :
  getBlock (applyWrites writes ws) b = withLabel (lastWrite b writes) (getBlock ws b).
Proof.
  induction writes as [|w writes IH] using rev_ind; [done|].
  rewrite applyWrites_app, lastWrite_snoc.
  unfold applyWrites at 1. cbn [foldl]. rewrite getBlock_setLabel, IH.
  case_bool_decide; [|done]. by rewrite withLabel_withLabel.
Qed.

Lemma lastWrite_not_written b writes :
  b ∉ writes.*1 → lastWrite b writes = None.
Proof.
  induction writes as [|w writes IH] using rev_ind; [done|].
  rewrite fmap_app, lastWrite_snoc. intros Hb.
  rewrite bool_decide_eq_false_2; [apply IH|]; set_solver.
Qed.

Lemma indexOf_Some l x j : JS.indexOf l x = Some j → l !! j = Some x.
Proof.
  revert j. induction l as [|y l IH]; intros j; cbn; [done|].
  destruct (String.eqb_spec y x) as [->|Hne].
  - by intros [= <-].
  - destruct (JS.indexOf l x) as [j'|]; cbn; [|done].
    intros [= <-]. by apply IH.
Qed.


Lemma labelMatches_true ws prevName b :
  labelMatches ws prevName b = true ↔
  ∃ p, prevName = Some p ∧ getFieldValue ws b "VALUE" = Some p.
Proof.
  unfold labelMatches. destruct prevName as [p|]; [|naive_solver].
  destruct (getFieldValue ws b "VALUE") as [v|]; [|naive_solver].
  destruct (String.eqb_spec v p); naive_solver.
Qed.

(** Where a name change comes from: a non-empty current id found at
    [prevIndex] in the previous ids, whose name differs from the previous
    one. *)
Lemma collectNameChanges_elem ws reps prevIds prevNames names i ids nc :
  nc ∈ collectNameChanges ws reps prevIds prevNames names i ids →
  ∃ k id prevIndex,
    ids !! k = Some id ∧ id ≠ "" ∧ JS.indexOf prevIds id = Some prevIndex
    ∧ prevNames !! prevIndex ≠ names !! (i + k)
    ∧ newName nc = names !! (i + k)
    ∧ blocks nc = filter (λ b, labelMatches ws (prevNames !! prevIndex) b = true) reps.
Proof.
  revert i. induction ids as [|id ids IH]; intros i; cbn [collectNameChanges].
  { by intros ?%elem_of_nil. }
  case_bool_decide as Hid; [by intros ?%elem_of_nil|].
  assert (Hrest : nc ∈ collectNameChanges ws reps prevIds prevNames names (S i) ids →
    ∃ k id0 prevIndex, (id :: ids) !! k = Some id0 ∧ id0 ≠ "" ∧
      JS.indexOf prevIds id0 = Some prevIndex
      ∧ prevNames !! prevIndex ≠ names !! (i + k)
      ∧ newName nc = names !! (i + k)
      ∧ blocks nc = filter (λ b, labelMatches ws (prevNames !! prevIndex) b = true) reps).
  { intros (k & id0 & j & Hk & ? & ? & ? & ? & ?)%IH.
    exists (S k), id0, j. by replace (i + S k) with (S i + k) by lia. }
  destruct (JS.indexOf prevIds id) as [j|] eqn:Hj; [|done].
  unfold JS.index. case_bool_decide as Hchg; [|done].
  intros [->|Hin]%elem_of_cons; [|by apply Hrest].
  exists 0, id, j. rewrite Nat.add_0_r. done.
Qed.

Lemma fst_pairs {A B} (l : list A) (v : B) : (map (λ b, (b, v)) l).*1 = l.
Proof. induction l as [|x l IH]; [done|]. cbn. by rewrite IH. Qed.

Lemma writesOf_cons nc ncs :
  writesOf (nc :: ncs) = map (λ b, (b, newName nc)) (blocks nc) ++ writesOf ncs.
Proof. reflexivity. Qed.

Lemma elem_of_writesOf b v ncs :
  (b, v) ∈ writesOf ncs ↔ ∃ nc, nc ∈ ncs ∧ b ∈ blocks nc ∧ v = newName nc.
Proof.
  unfold writesOf. rewrite list_elem_of_In, in_flat_map. split.
  - intros (nc & Hnc & Hb). exists nc. rewrite list_elem_of_In. split; [done|].
    apply list_elem_of_In, list_elem_of_fmap in Hb as (b' & [= -> ->] & Hb). done.
  - intros (nc & Hnc & Hb & ->). exists nc. rewrite <- list_elem_of_In. split; [done|].
    apply list_elem_of_In, list_elem_of_fmap. eauto.
Qed.

(** With pairwise distinct previous names and current ids, and a reporter
    list without repetition, no block is written twice. *)
Lemma collectNameChanges_NoDup ws reps prevIds prevNames names i ids :
  NoDup reps → NoDup prevNames → NoDup ids →
  NoDup (writesOf (collectNameChanges ws reps prevIds prevNames names i ids)).*1.
Proof.
  intros Hreps Hnames. revert i.
  induction ids as [|id ids IH]; intros i Hids; cbn [collectNameChanges].
  { constructor. }
  apply NoDup_cons in Hids as [Hid Hids].
  case_bool_decide; [constructor|].
  destruct (JS.indexOf prevIds id) as [j|] eqn:Hj; [|by apply IH].
  case_bool_decide as Hchg; [|by apply IH].
  rewrite writesOf_cons, fmap_app. cbn [newName blocks].
  apply NoDup_app. split; [|split; [|by apply IH]].
  - rewrite fst_pairs. by apply NoDup_filter.
  - intros b Hb1 Hb2.
    apply list_elem_of_fmap in Hb1 as ([b1 v1] & -> & Hb1). cbn in *.
    apply list_elem_of_fmap in Hb1 as (b' & [= -> ->] & Hb1).
    apply list_elem_of_filter in Hb1 as [Hm1 _].
    apply list_elem_of_fmap in Hb2 as ([b2 v2] & Heq & Hb2). cbn in Heq. subst b2.
    apply elem_of_writesOf in Hb2 as (nc & Hnc & Hb2 & _).
    apply collectNameChanges_elem in Hnc
      as (k & id' & j' & Hk & _ & Hj' & _ & _ & Hblocks).
    rewrite Hblocks in Hb2. apply list_elem_of_filter in Hb2 as [Hm2 _].
    apply labelMatches_true in Hm1 as (p1 & Hp1 & Hl1).
    apply labelMatches_true in Hm2 as (p2 & Hp2 & Hl2).
    assert (p1 = p2) as <- by congruence.
    unfold JS.index in *.
    assert (j = j') as <- by exact (NoDup_lookup _ _ _ _ Hnames Hp1 Hp2).
    apply indexOf_Some in Hj, Hj'.
    assert (id = id') as <- by congruence.
    apply Hid. by eapply list_elem_of_lookup_2.
Qed.

Lemma lastWrite_NoDup b v writes :
  NoDup writes.*1 → (b, v) ∈ writes → lastWrite b writes = v.
Proof.
  induction writes as [|w writes IH] using rev_ind; [by intros _ ?%elem_of_nil|].
  rewrite fmap_app, lastWrite_snoc. intros [Hnd [Hdis _]]%NoDup_app Hin.
  apply elem_of_app in Hin as [Hin|Hin].
  - rewrite bool_decide_eq_false_2; [by apply IH|].
    intros Hw. apply (Hdis b); [|rewrite <- Hw; set_solver].
    apply list_elem_of_fmap. by exists (b, v).
  - apply list_elem_of_singleton in Hin as <-. cbn.
    rewrite bool_decide_eq_true_2 by done.
    rewrite lastWrite_not_written; [by destruct v|].
    intros Hb. apply (Hdis b Hb). set_solver.
Qed.

Lemma filter_not_written b (writes : list (BlockRef * option string)) :
  b ∉ writes.*1 → filter (λ w, w.1 = b) writes = [].
Proof.
  induction writes as [|w writes IH]; [done|].
  rewrite fmap_cons. intros Hb.
  rewrite filter_cons_False by set_solver. apply IH. set_solver.
Qed.

Lemma relabeled_once b (writes : list (BlockRef * option string)) :
  NoDup writes.*1 → (List.length (filter (λ w, w.1 = b) writes) ≤ 1)%nat.
Proof.
  induction writes as [|w writes IH]; [cbn; lia|].
  rewrite fmap_cons. intros [Hw Hnd]%NoDup_cons.
  destruct (decide (w.1 = b)) as [<-|Hne].
  - rewrite filter_cons_True by done. by rewrite filter_not_written.
  - rewrite filter_cons_False by done. auto.
Qed.

Lemma not_written_of_count b (writes : list (BlockRef * option string)) :
  List.length (filter (λ w, w.1 = b) writes) = 0 → b ∉ writes.*1.
Proof.
  intros Hlen Hb. apply list_elem_of_fmap in Hb as (w & -> & Hw).
  assert (w ∈ filter (λ w', w'.1 = w.1) writes) as Hin
    by by apply list_elem_of_filter.
  destruct (filter _ writes); [by apply elem_of_nil in Hin|done].
Qed.

(** A definition (block 0) with prototype "hop %s %s" (block 1, ids a1 and
    a2, shadow reporters 2 and 3) whose body (block 4) holds the reporters 5
    and 6 labelled [l5] and [l6]; the prototype already carries the new
    display names [names]. *)
Definition renameWorkspace (names : list string) (l5 l6 : string) : Workspace :=
  Sample.workspace
    [ (0, setNextBlock (Some 4)
            (Sample.procedureBlock "procedures_definition" "" [] None None None
               [Sample.statementInput "custom_block" (Some 1)]));
      (1, setShadow true
            (Sample.procedureBlock "procedures_prototype" "hop %s %s" ["a1"; "a2"]
               (Some names) None (Some 0)
               [Sample.labelInput "hop"; Sample.valueInput "a1" (Some 2);
                Sample.labelInput ""; Sample.valueInput "a2" (Some 3);
                Sample.labelInput ""]));
      (2, Sample.leafBlock "argument_reporter_string_number" true (Some 1) "VALUE" "x");
      (3, Sample.leafBlock "argument_reporter_string_number" true (Some 1) "VALUE" "y");
      (4, setInputList [Sample.valueInput "A" (Some 5); Sample.valueInput "B" (Some 6)]
            (Sample.leafBlock "operator_join" false (Some 0) "X" ""));
      (5, Sample.leafBlock "argument_reporter_string_number" false (Some 4) "VALUE" l5);
      (6, Sample.leafBlock "argument_reporter_string_number" false (Some 4) "VALUE" l6) ]
    [0].

(** C10 fails as stated: when two arguments had the same display name (here
    both "number or text", the name every new argument gets) and one edit
    names them "x" and "y", the reporter carrying the old name is in the
    block list of both name changes and is relabeled twice. *)
Lemma C10_counterexample :
  let ws := renameWorkspace ["x"; "y"] "number or text" "other" in
  let prevNames := Some ["number or text"; "number or text"] in
  nameChangesOf ws 1 0 ["a1"; "a2"] prevNames
  = Return [ {| newName := Some "x"; blocks := [5] |};
             {| newName := Some "y"; blocks := [5] |} ]
  ∧ relabelCount 5 [ {| newName := Some "x"; blocks := [5] |};
                     {| newName := Some "y"; blocks := [5] |} ] = 2
  ∧ getFieldValue (updateArgumentReporterNames_ 1 ["a1"; "a2"] prevNames ws).1 5 "VALUE"
    = Some "y".
Proof. vm_compute. done. Qed.

Lemma updateArgumentReporterNames_run ws self definitionBlock prevArgIds
    prevDisplayNames nameChanges :
  parentBlock_ (getBlock ws self) = Some definitionBlock →
  nameChangesOf ws self definitionBlock prevArgIds prevDisplayNames = Return nameChanges →
  updateArgumentReporterNames_ self prevArgIds prevDisplayNames ws
  = (applyWrites (writesOf nameChanges) ws, Return tt).
Proof.
  intros Hparent Hncs. unfold updateArgumentReporterNames_.
  rewrite gets_then, Hparent, bind_run, Hncs.
  apply forEach_applyNameChange.
Qed.

(** C10 (amended): when the previous display names are pairwise distinct
    (and so are the current argument ids, and the stack of the definition
    lists no block twice), every reporter is relabeled at most once; a
    relabeled reporter carried, before the edit, the previous name of an
    argument and ends with the new name of that argument, and a reporter
    that is not relabeled is unchanged. *)
Theorem C10_relabeled_at_most_once
    (ws : Workspace) (self definitionBlock : BlockRef)
    (prevArgIds prevDisplayNames displayNames : list string) :
  parentBlock_ (getBlock ws self) = Some definitionBlock →
  displayNames_ (getBlock ws self) = Some displayNames →
  NoDup prevDisplayNames →
  NoDup (argumentIds_ (getBlock ws self)) →
  NoDup (getDescendants ws definitionBlock) →
  ∃ nameChanges ws',
    nameChangesOf ws self definitionBlock prevArgIds (Some prevDisplayNames)
    = Return nameChanges
    ∧ updateArgumentReporterNames_ self prevArgIds (Some prevDisplayNames) ws
      = (ws', Return tt)
    ∧ ∀ b,
        (relabelCount b nameChanges ≤ 1)%nat
        ∧ (relabelCount b nameChanges = 0 → getBlock ws' b = getBlock ws b)
        ∧ (∀ v, (b, v) ∈ writesOf nameChanges →
             getBlock ws' b = withLabel v (getBlock ws b)
             ∧ ∃ i id prevIndex oldName,
                 argumentIds_ (getBlock ws self) !! i = Some id
                 ∧ JS.indexOf prevArgIds id = Some prevIndex
                 ∧ prevDisplayNames !! prevIndex = Some oldName
                 ∧ getFieldValue ws b "VALUE" = Some oldName
                 ∧ v = displayNames !! i).
Proof.
  intros Hparent Hnames Hprev Hids Hdesc.
  eexists _, _. split; [|split].
  - unfold nameChangesOf. rewrite Hnames. reflexivity.
  - eapply updateArgumentReporterNames_run; [done|].
    unfold nameChangesOf. rewrite Hnames. reflexivity.
  - set (ncs := collectNameChanges _ _ _ _ _ _ _).
    assert (Hnd : NoDup (writesOf ncs).*1).
    { apply collectNameChanges_NoDup; [|done..]. by apply NoDup_filter. }
    intros b. split; [by apply relabeled_once|]. split.
    + intros Hcount%not_written_of_count.
      by rewrite getBlock_applyWrites, lastWrite_not_written.
    + intros v Hv. split.
      { by rewrite getBlock_applyWrites, (lastWrite_NoDup b v). }
      apply elem_of_writesOf in Hv as (nc & Hnc & Hb & ->).
      apply collectNameChanges_elem in Hnc
        as (k & id & j & Hk & _ & Hj & _ & Hnew & Hblocks).
      rewrite Hblocks in Hb. apply list_elem_of_filter in Hb as [Hm _].
      apply labelMatches_true in Hm as (p & Hp & Hl).
      exists k, id, j, p. by rewrite Hnew.
Qed.

(** One edit exchanges the names "A" and "B": the reporter named "A" ends
    as "B" and the one named "B" as "A". *)
Lemma C10_relabeled_at_most_once_witness :
  let ws := renameWorkspace ["B"; "A"] "A" "B" in
  ∃ ws', updateArgumentReporterNames_ 1 ["a1"; "a2"] (Some ["A"; "B"]) ws = (ws', Return tt)
    ∧ (relabelCount 5 [ {| newName := Some "B"; blocks := [5] |};
                        {| newName := Some "A"; blocks := [6] |} ] ≤ 1)%nat
    ∧ getBlock ws' 5 = withLabel (Some "B") (getBlock ws 5)
    ∧ getBlock ws' 6 = withLabel (Some "A") (getBlock ws 6).
Proof.
  intros ws.
  destruct (C10_relabeled_at_most_once ws 1 0 ["a1"; "a2"] ["A"; "B"] ["B"; "A"])
    as (ncs & ws' & Hncs & Hrun & H).
  - reflexivity.
  - reflexivity.
  - apply (bool_decide_unpack _). by vm_compute.
  - apply (bool_decide_unpack _). by vm_compute.
  - apply (bool_decide_unpack _). by vm_compute.
  - exists ws'. split; [done|].
    assert (ncs = [ {| newName := Some "B"; blocks := [5] |};
                    {| newName := Some "A"; blocks := [6] |} ]) as ->.
    { vm_compute in Hncs. by injection Hncs as <-. }
    split; [apply (H 5)|]. split.
    + apply (H 5). vm_compute. set_solver.
    + apply (H 6). vm_compute. set_solver.
Defined.

(** *** Stable slot ids *)











End ReporterRenames.

(** ** Computations that do not throw *)

Section Returns.

Definition returns {A} (m : M A) : Prop := ∀ ws, ∃ ws' a, m ws = (ws', Return a).

Lemma returns_ret {A} (a : A) : returns (ret a).
Proof. intros ws. by eexists _, _. Qed.

Lemma returns_gets {A} (f : Workspace → A) : returns (gets f).
Proof. intros ws. by eexists _, _. Qed.

Lemma returns_modify f : returns (modify f).
Proof. intros ws. by eexists _, _. Qed.

Lemma returns_bind {A B} (m : M A) (k : A → M B) :
  returns m → (∀ a, returns (k a)) → returns (m ≫= k).
Proof.
  intros Hm Hk ws. destruct (Hm ws) as (ws1 & a & Hrun).
  rewrite (bind_return _ _ _ _ _ Hrun). apply Hk.
Qed.

Lemma returns_forOf {A S} (body : S → A → M S) acc l :
  (∀ acc x, returns (body acc x)) → returns (forOf body acc l).
Proof.
  intros Hb. revert acc. induction l as [|x l IH]; intros acc; cbn [forOf].
  - apply returns_ret.
  - apply returns_bind; auto.
Qed.

Lemma returns_forEach {A} (body : A → M unit) l :
  (∀ x, returns (body x)) → returns (forEach body l).
Proof. intros Hb. apply returns_forOf. auto. Qed.

End Returns.

Create HintDb returns discriminated.

Ltac returns_step :=
  cbv beta;
  lazymatch goal with
  | |- returns (_ ≫= _) => apply returns_bind; [|intros]
  | |- returns (ret _) => apply returns_ret
  | |- returns (gets _) => apply returns_gets
  | |- returns (modify _) => apply returns_modify
  | |- returns (forOf _ _ _) => apply returns_forOf; intros
  | |- returns (forEach _ _) => apply returns_forEach; intros
  | |- returns (match ?x with _ => _ end) => destruct x
  end.

Ltac returns_auto := repeat first [returns_step | solve [auto with returns]].

Lemma returns_newBlock ty : returns (newBlock ty).
Proof. intros ws. by eexists _, _. Qed.

Lemma returns_genUid : returns genUid.
Proof. intros ws. by eexists _, _. Qed.

#[global] Hint Resolve returns_newBlock returns_genUid : returns.

Lemma returns_setFieldValue b v fname : returns (setFieldValue b v fname).
Proof. unfold setFieldValue. returns_auto. Qed.

Lemma returns_connect self idx child : returns (connect self idx child).
Proof. unfold connect. returns_auto. Qed.

Lemma returns_disconnect self idx child : returns (disconnect self idx child).
Proof. unfold disconnect. returns_auto. Qed.

Lemma returns_dispose b : returns (dispose b).
Proof. unfold dispose. returns_auto. Qed.

Lemma returns_Events_fire e : returns (Events_fire e).
Proof. unfold Events_fire. returns_auto. Qed.

Lemma returns_Events_disable : returns Events_disable.
Proof. unfold Events_disable. returns_auto. Qed.

Lemma returns_Events_enable : returns Events_enable.
Proof. unfold Events_enable. returns_auto. Qed.

Lemma returns_Events_isEnabled : returns Events_isEnabled.
Proof. unfold Events_isEnabled. returns_auto. Qed.

Lemma returns_appendInput self i : returns (appendInput self i).
Proof. intros ws. by eexists _, _. Qed.

#[global] Hint Resolve returns_setFieldValue returns_connect returns_disconnect
  returns_dispose returns_Events_fire returns_Events_disable returns_Events_enable
  returns_Events_isEnabled returns_appendInput : returns.

Lemma returns_fireCreateIfEnabled b : returns (fireCreateIfEnabled b).
Proof. unfold fireCreateIfEnabled. returns_auto. Qed.

Lemma returns_appendDummyInputWithField self n f :
  returns (appendDummyInputWithField self n f).
Proof. unfold appendDummyInputWithField. returns_auto. Qed.

#[global] Hint Resolve returns_fireCreateIfEnabled returns_appendDummyInputWithField
  : returns.

Lemma returns_attachShadow_ self input ty : returns (attachShadow_ self input ty).
Proof. unfold attachShadow_. destruct ty; returns_auto. Qed.

Lemma returns_createArgumentReporter_ ty n : returns (createArgumentReporter_ ty n).
Proof. unfold createArgumentReporter_. returns_auto. Qed.

Lemma returns_createArgumentEditor_ ty n : returns (createArgumentEditor_ ty n).
Proof. unfold createArgumentEditor_. returns_auto. Qed.

Lemma returns_addLabelField_ self text : returns (addLabelField_ self text).
Proof. unfold addLabelField_. returns_auto. Qed.

Lemma returns_addLabelEditor_ self text : returns (addLabelEditor_ self text).
Proof. unfold addLabelEditor_. case_bool_decide; returns_auto. Qed.

Lemma returns_deleteShadow entry : returns (deleteShadow entry).
Proof. unfold deleteShadow. returns_auto. Qed.

#[global] Hint Resolve returns_attachShadow_ returns_createArgumentReporter_
  returns_createArgumentEditor_ returns_addLabelField_ returns_addLabelEditor_
  returns_deleteShadow : returns.

Lemma returns_deleteShadows_ cm : returns (deleteShadows_ cm).
Proof. unfold deleteShadows_. returns_auto. Qed.

Lemma returns_disconnectOldBlock self cm entry : returns (disconnectOldBlock self cm entry).
Proof. unfold disconnectOldBlock. destruct entry. returns_auto. Qed.

#[global] Hint Resolve returns_deleteShadows_ returns_disconnectOldBlock : returns.

Lemma returns_disconnectOldBlocks_ self : returns (disconnectOldBlocks_ self).
Proof. unfold disconnectOldBlocks_. returns_auto. Qed.

Lemma returns_removeAllInputs_ self : returns (removeAllInputs_ self).
Proof. unfold removeAllInputs_. returns_auto. Qed.

#[global] Hint Resolve returns_disconnectOldBlocks_ returns_removeAllInputs_ : returns.

(** Running a computation that returns, with what it preserves. *)
Lemma run_returns {A} (m : M A) (R : relation Workspace) ws :
  returns m → preserves R m → ∃ ws' a, m ws = (ws', Return a) ∧ R ws ws'.
Proof.
  intros Hret Hpre. destruct (Hret ws) as (ws' & a & Hrun).
  exists ws', a. split; [done|]. specialize (Hpre ws). by rewrite Hrun in Hpre.
Qed.

(** ** Parents and inputs during the rebuild *)

(** [keepsParent self ws ws']: a block attached to [self] stays attached to
    [self]. *)
Definition keepsParent (self : BlockRef) (ws ws' : Workspace) : Prop :=
  ∀ b, parentBlock_ (getBlock ws b) = Some self →
       parentBlock_ (getBlock ws' b) = Some self.

(** [keepsInputs self ws ws']: the inputs of the existing block [self] are
    as they were. *)
Definition keepsInputs (self : BlockRef) (ws ws' : Workspace) : Prop :=
  self ∈ dom (blockDB ws) →
  inputList (getBlock ws' self) = inputList (getBlock ws self)
  ∧ self ∈ dom (blockDB ws').

#[global] Instance keepsParent_preorder self : PreOrder (keepsParent self).
Proof. split; [by intros ws b|]. intros ws1 ws2 ws3 H1 H2 b Hb. auto. Qed.

#[global] Instance keepsInputs_preorder self : PreOrder (keepsInputs self).
Proof.
  split; [by intros ws Hs|].
  intros ws1 ws2 ws3 H1 H2 Hs. destruct (H1 Hs) as [E1 Hs2].
  destruct (H2 Hs2) as [E2 Hs3]. split; [congruence|done].
Qed.

Definition parentSafe (self : BlockRef) (f : Block → Block) : Prop :=
  ∀ blk, parentBlock_ (f blk) = parentBlock_ blk ∨ parentBlock_ (f blk) = Some self.

Definition inputSafe (f : Block → Block) : Prop :=
  ∀ blk, inputList (f blk) = inputList blk.

Lemma keepsParent_updateBlock self b f ws :
  parentSafe self f → keepsParent self ws (updateBlock b f ws).
Proof.
  intros Hf b' Hb'. rewrite getBlock_updateBlock. case_decide; subst; [|done].
  destruct (Hf (getBlock ws b')) as [->| ->]; done.
Qed.

Lemma keepsInputs_updateBlock self b f ws :
  inputSafe f → keepsInputs self ws (updateBlock b f ws).
Proof.
  intros Hf Hs. split.
  - rewrite getBlock_updateBlock. case_decide; subst; [apply Hf|done].
  - rewrite dom_updateBlock. set_solver.
Qed.

Lemma keepsParent_addBlock self ty ws : keepsParent self ws (addBlock ty ws).
Proof.
  intros b Hb. unfold addBlock. rewrite getBlock_setTopBlocks.
  unfold getBlock at 1. cbn. rewrite lookup_total_insert.
  case_decide; subst; [|done].
  by rewrite (getBlock_fresh ws) in Hb.
Qed.

Lemma keepsInputs_addBlock self ty ws : keepsInputs self ws (addBlock ty ws).
Proof.
  intros Hs. unfold addBlock. rewrite getBlock_setTopBlocks. split.
  - unfold getBlock at 1. cbn. rewrite lookup_total_insert.
    case_decide; subst; [|done]. by destruct (is_fresh (dom (blockDB ws))).
  - cbn. rewrite dom_insert_L. set_solver.
Qed.

Lemma parentSafe_setShadow self s : parentSafe self (setShadow s).
Proof. intros []. by left. Qed.
Lemma parentSafe_setFields self fs : parentSafe self (λ blk, setFields (fs blk) blk).
Proof. intros []. by left. Qed.
Lemma parentSafe_setInputList self l : parentSafe self (λ blk, setInputList (l blk) blk).
Proof. intros []. by left. Qed.
Lemma parentSafe_setParent self : parentSafe self (setParent (Some self)).
Proof. intros []. by right. Qed.
Lemma inputSafe_setShadow s : inputSafe (setShadow s).
Proof. by intros []. Qed.
Lemma inputSafe_setFields fs : inputSafe (λ blk, setFields (fs blk) blk).
Proof. by intros []. Qed.
Lemma inputSafe_setParent p : inputSafe (setParent p).
Proof. by intros []. Qed.

#[global] Hint Resolve parentSafe_setShadow parentSafe_setFields parentSafe_setInputList
  parentSafe_setParent inputSafe_setShadow inputSafe_setFields inputSafe_setParent
  : preserves.

Lemma kp_modify_updateBlock self b f :
  parentSafe self f → preserves (keepsParent self) (modify (updateBlock b f)).
Proof. intros Hf ws. by apply keepsParent_updateBlock. Qed.

Lemma ki_modify_updateBlock self b f :
  inputSafe f → preserves (keepsInputs self) (modify (updateBlock b f)).
Proof. intros Hf ws. by apply keepsInputs_updateBlock. Qed.

Lemma kp_modify_updateInput self self' idx f :
  preserves (keepsParent self) (modify (updateInput self' idx f)).
Proof. intros ws. apply keepsParent_updateBlock. intros []. by left. Qed.

Lemma kp_newBlock self ty : preserves (keepsParent self) (newBlock ty).
Proof. intros ws. apply keepsParent_addBlock. Qed.

Lemma ki_newBlock self ty : preserves (keepsInputs self) (newBlock ty).
Proof. intros ws. apply keepsInputs_addBlock. Qed.

Lemma kp_trivial self {A} (m : M A) :
  (∀ ws b, getBlock (m ws).1 b = getBlock ws b) → preserves (keepsParent self) m.
Proof. intros H ws b. by rewrite H. Qed.

Lemma ki_trivial self {A} (m : M A) :
  (∀ ws, blockDB (m ws).1 = blockDB ws) → preserves (keepsInputs self) m.
Proof. intros H ws Hs. unfold getBlock. by rewrite H. Qed.

Lemma kp_setFieldValue self b v fname : preserves (keepsParent self) (setFieldValue b v fname).
Proof.
  destruct v; [|apply preserves_ret; apply _].
  apply kp_modify_updateBlock. intros []. by left.
Qed.

Lemma ki_setFieldValue self b v fname : preserves (keepsInputs self) (setFieldValue b v fname).
Proof.
  destruct v; [|apply preserves_ret; apply _].
  apply ki_modify_updateBlock. by intros [].
Qed.

Lemma kp_connect self idx child : preserves (keepsParent self) (connect self idx child).
Proof.
  intros ws. unfold connect, modify, connectState. cbn [fst].
  intros b Hb. rewrite getBlock_setTopBlocks.
  apply keepsParent_updateBlock; [apply parentSafe_setParent|].
  unfold updateInput. apply keepsParent_updateBlock; [|done]. intros []. by left.
Qed.

Lemma kp_appendInput self self' i : preserves (keepsParent self) (appendInput self' i).
Proof. intros ws. apply keepsParent_updateBlock. intros []. by left. Qed.

Lemma kp_genUid self : preserves (keepsParent self) genUid.
Proof. by apply kp_trivial. Qed.
Lemma kp_Events_disable self : preserves (keepsParent self) Events_disable.
Proof. by apply kp_trivial. Qed.
Lemma kp_Events_enable self : preserves (keepsParent self) Events_enable.
Proof. by apply kp_trivial. Qed.
Lemma kp_Events_isEnabled self : preserves (keepsParent self) Events_isEnabled.
Proof. by apply kp_trivial. Qed.
Lemma kp_Events_fire self e : preserves (keepsParent self) (Events_fire e).
Proof.
  apply kp_trivial. intros ws b. unfold Events_fire, modify. cbn [fst].
  by case_bool_decide.
Qed.
Lemma ki_Events_disable self : preserves (keepsInputs self) Events_disable.
Proof. by apply ki_trivial. Qed.
Lemma ki_Events_enable self : preserves (keepsInputs self) Events_enable.
Proof. by apply ki_trivial. Qed.
Lemma ki_Events_isEnabled self : preserves (keepsInputs self) Events_isEnabled.
Proof. by apply ki_trivial. Qed.
Lemma ki_Events_fire self e : preserves (keepsInputs self) (Events_fire e).
Proof.
  apply ki_trivial. intros ws. unfold Events_fire, modify. cbn [fst].
  by case_bool_decide.
Qed.

#[global] Hint Resolve kp_modify_updateBlock ki_modify_updateBlock kp_modify_updateInput
  kp_newBlock ki_newBlock kp_setFieldValue ki_setFieldValue kp_connect kp_appendInput
  kp_genUid kp_Events_disable kp_Events_enable kp_Events_isEnabled kp_Events_fire
  ki_Events_disable ki_Events_enable ki_Events_isEnabled ki_Events_fire : preserves.

Lemma kp_fireCreateIfEnabled self b : preserves (keepsParent self) (fireCreateIfEnabled b).
Proof. unfold fireCreateIfEnabled. preserves_auto. Qed.
Lemma ki_fireCreateIfEnabled self b : preserves (keepsInputs self) (fireCreateIfEnabled b).
Proof. unfold fireCreateIfEnabled. preserves_auto. Qed.

#[global] Hint Resolve kp_fireCreateIfEnabled ki_fireCreateIfEnabled : preserves.

Lemma kp_createArgumentReporter_ self ty n :
  preserves (keepsParent self) (createArgumentReporter_ ty n).
Proof. unfold createArgumentReporter_. preserves_auto. Qed.
Lemma ki_createArgumentReporter_ self ty n :
  preserves (keepsInputs self) (createArgumentReporter_ ty n).
Proof. unfold createArgumentReporter_. preserves_auto. Qed.
Lemma kp_createArgumentEditor_ self ty n :
  preserves (keepsParent self) (createArgumentEditor_ ty n).
Proof. unfold createArgumentEditor_. preserves_auto. Qed.
Lemma ki_createArgumentEditor_ self ty n :
  preserves (keepsInputs self) (createArgumentEditor_ ty n).
Proof. unfold createArgumentEditor_. preserves_auto. Qed.
Lemma kp_attachShadow_ self input ty : preserves (keepsParent self) (attachShadow_ self input ty).
Proof. unfold attachShadow_. destruct ty; preserves_auto. Qed.
Lemma kp_appendDummyInputWithField self n f :
  preserves (keepsParent self) (appendDummyInputWithField self n f).
Proof. unfold appendDummyInputWithField. preserves_auto. Qed.

#[global] Hint Resolve kp_createArgumentReporter_ ki_createArgumentReporter_
  kp_createArgumentEditor_ ki_createArgumentEditor_ kp_attachShadow_
  kp_appendDummyInputWithField : preserves.

Lemma kp_addProcedureLabel_ self text : preserves (keepsParent self) (addProcedureLabel_ self text).
Proof.
  unfold addProcedureLabel_, addLabelField_, addLabelEditor_.
  preserves_auto; case_bool_decide; preserves_auto.
Qed.

#[global] Hint Resolve kp_addProcedureLabel_ : preserves.

Lemma kp_savedConnection self cm id : preserves (keepsParent self) (savedConnection cm id).
Proof. unfold savedConnection. preserves_auto. Qed.
Lemma kp_displayNameAt self self' index : preserves (keepsParent self) (displayNameAt self' index).
Proof. unfold displayNameAt. preserves_auto. Qed.

#[global] Hint Resolve kp_savedConnection kp_displayNameAt : preserves.

Lemma kp_populateArgumentOnCaller_ self ty index cm id input :
  preserves (keepsParent self) (populateArgumentOnCaller_ self ty index cm id input).
Proof. unfold populateArgumentOnCaller_. preserves_auto. Qed.
Lemma kp_populateArgumentOnPrototype_ self ty index cm id input :
  preserves (keepsParent self) (populateArgumentOnPrototype_ self ty index cm id input).
Proof. unfold populateArgumentOnPrototype_. preserves_auto. Qed.
Lemma kp_populateArgumentOnDeclaration_ self ty index cm id input :
  preserves (keepsParent self) (populateArgumentOnDeclaration_ self ty index cm id input).
Proof. unfold populateArgumentOnDeclaration_. preserves_auto. Qed.

#[global] Hint Resolve kp_populateArgumentOnCaller_ kp_populateArgumentOnPrototype_
  kp_populateArgumentOnDeclaration_ : preserves.

Lemma kp_populateArgument_ self ty index cm id input :
  preserves (keepsParent self) (populateArgument_ self ty index cm id input).
Proof. unfold populateArgument_. preserves_auto. Qed.

#[global] Hint Resolve kp_populateArgument_ : preserves.

(** *** Stepping through a computation *)

Lemma ret_then {A B} (a : A) (k : A → M B) ws : (ret a ≫= k) ws = k a ws.
Proof. reflexivity. Qed.

Lemma newBlock_then {B} ty (k : BlockRef → M B) ws :
  (newBlock ty ≫= k) ws = k (freshRef ws) (addBlock ty ws).
Proof. reflexivity. Qed.

Lemma bind_assoc_run {A B C} (m : M A) (k : A → M B) (h : B → M C) ws :
  ((m ≫= k) ≫= h) ws = (m ≫= (λ a, k a ≫= h)) ws.
Proof. rewrite !bind_run. by destruct (m ws) as [ws1 [a|e]]. Qed.

Lemma inputList_connectState self idx child ws :
  inputList (getBlock (connectState self idx child ws) self)
  = alter (setTarget (Some child)) idx (inputList (getBlock ws self)).
Proof.
  unfold connectState. rewrite getBlock_setTopBlocks, getBlock_updateBlock.
  case_decide; subst.
  - rewrite getBlock_updateInput_eq. by destruct (getBlock ws self).
  - by rewrite getBlock_updateInput_eq.
Qed.

Lemma parent_connectState self idx child ws :
  parentBlock_ (getBlock (connectState self idx child ws) child) = Some self.
Proof.
  unfold connectState. rewrite getBlock_setTopBlocks, getBlock_updateBlock_eq.
  by destruct (getBlock _ child).
Qed.

Lemma dom_connectState self idx child ws :
  dom (blockDB ws) ⊆ dom (blockDB (connectState self idx child ws)).
Proof.
  unfold connectState, updateInput. cbn [blockDB setTopBlocks].
  rewrite !dom_updateBlock. set_solver.
Qed.

(** The block a saved connection may be reused for, by role: a call block
    takes back whatever was attached, a prototype or declaration only an
    argument reporter of the slot's kind. *)
Definition reusable (role : Role) (ws : Workspace) (c : BlockRef) (ty : ArgumentType) : Prop :=
  match role with
  | Call => True
  | Prototype | Declaration => checkOldTypeMatches_ ws (Some c) ty = true
  end.


(** No shadow block is attached to the inputs of [self] if [self] is a call
    block that generates shadows when [generateShadows] is set: then
    [setShadowDom] finds no shadow to replace in the slot of a block that
    is taken back. *)
Definition noShadowReplaced (role : Role) (generateShadows : option bool)
    (ws : Workspace) (self : BlockRef) : Prop :=
  role = Call → truthy generateShadows = true →
  ∀ inp c, inp ∈ inputList (getBlock ws self) → targetBlock inp = Some c →
    isShadow (getBlock ws c) = false.

Lemma savedConnection_run cm id ws :
  cmGet id cm ≠ Some None →
  ∃ oldShadow, savedConnection cm id ws = (ws, Return (savedBlock cm id, oldShadow)).
Proof.
  unfold savedConnection, savedBlock. intros Hnull.
  destruct (cmGet id cm) as [[info|]|]; [by eexists|done|by eexists].
Qed.

Definition fireCreateState (b : BlockRef) (ws : Workspace) : Workspace :=
  if bool_decide (disabled ws = 0) then setFired (fired ws ++ [BLOCK_CREATE b]) ws else ws.

Lemma fireCreateIfEnabled_then {B} b (k : unit → M B) ws :
  (fireCreateIfEnabled b ≫= k) ws = k tt (fireCreateState b ws).
Proof.
  unfold fireCreateIfEnabled, fireCreateState, Events_isEnabled.
  rewrite bind_assoc_run, gets_then. case_bool_decide as Hen; [|done].
  unfold Events_fire. rewrite modify_then. by rewrite bool_decide_eq_true_2.
Qed.

Lemma Events_disable_then {B} (k : unit → M B) ws :
  (Events_disable ≫= k) ws = k tt (setDisabled (S (disabled ws)) ws).
Proof. reflexivity. Qed.

Lemma Events_enable_then {B} (k : unit → M B) ws :
  (Events_enable ≫= k) ws = k tt (setDisabled (pred (disabled ws)) ws).
Proof. reflexivity. Qed.

Lemma setFieldValue_then {B} b v fname (k : unit → M B) ws :
  (setFieldValue b (Some v) fname ≫= k) ws
  = k tt (updateBlock b (λ blk, setFields (<[fname := v]> (fields blk)) blk) ws).
Proof. reflexivity. Qed.

Lemma connect_then {B} self idx child (k : unit → M B) ws :
  (connect self idx child ≫= k) ws = k tt (connectState self idx child ws).
Proof. reflexivity. Qed.

Lemma connect_run self idx child ws :
  connect self idx child ws = (connectState self idx child ws, Return tt).
Proof. reflexivity. Qed.

Lemma getBlock_fireCreateState b ws b' :
  getBlock (fireCreateState b ws) b' = getBlock ws b'.
Proof. unfold fireCreateState. by case_bool_decide. Qed.

Lemma getBlock_setDisabled n ws b : getBlock (setDisabled n ws) b = getBlock ws b.
Proof. reflexivity. Qed.

Lemma getBlock_addBlock ty ws b :
  getBlock (addBlock ty ws) b
  = if decide (freshRef ws = b) then setFields (initFields ty) (emptyBlock ty)
    else getBlock ws b.
Proof.
  unfold addBlock. rewrite getBlock_setTopBlocks. unfold getBlock at 1. cbn.
  rewrite lookup_total_insert. by case_decide.
Qed.

Lemma freshRef_ne ws b : b ∈ dom (blockDB ws) → freshRef ws ≠ b.
Proof. intros Hb <-. by destruct (is_fresh (dom (blockDB ws))). Qed.

Lemma in_dom_of_inputs ws self input :
  input < List.length (inputList (getBlock ws self)) → self ∈ dom (blockDB ws).
Proof.
  intros Hin. apply elem_of_dom. destruct (blockDB ws !! self) eqn:E; [done|].
  unfold getBlock in Hin. rewrite lookup_total_alt, E in Hin. cbn in Hin. lia.
Qed.

(** What a [populateArgument_] leaves behind: the input at [input] changed
    through [g], which keeps name and kind; the map lost at most the entry
    of [id]; a reused block is attached to the input and to [self]. *)
Definition populateResult (self : BlockRef) (input : nat) (cm : ConnectionMap)
    (id : string) (role : Role) (ty : ArgumentType) (ws ws' : Workspace)
    (cm' : ConnectionMap) : Prop :=
  ∃ g, inputList (getBlock ws' self) = alter g input (inputList (getBlock ws self))
    ∧ (∀ i, name (g i) = name i ∧ kind (g i) = kind i)
    ∧ (savedBlock cm id = None → cm' = cm)
    ∧ (cm' = cm ∨ cm' = cmSet id None cm)
    ∧ (∀ c, savedBlock cm id = Some c → reusable role ws c ty →
         cm' = cmSet id None cm ∧ (∀ i, targetBlock (g i) = Some c)
         ∧ parentBlock_ (getBlock ws' c) = Some self).

Lemma attachShadow_inputs self input ty ws :
  input < List.length (inputList (getBlock ws self)) →
  ∃ ws' g, attachShadow_ self input ty ws = (ws', Return tt)
    ∧ inputList (getBlock ws' self) = alter g input (inputList (getBlock ws self))
    ∧ (∀ i, name (g i) = name i ∧ kind (g i) = kind i).
Proof.
  intros Hin. pose proof (in_dom_of_inputs _ _ _ Hin) as Hdom.
  assert (Hne : freshRef ws ≠ self) by by apply freshRef_ne.
  destruct ty.
  3:{ exists ws, (λ i, i). split; [done|]. split; [|done]. by rewrite list_alter_id. }
  all: unfold attachShadow_.
  all: rewrite Events_disable_then, newBlock_then, setFieldValue_then; cbv beta.
  all: unfold modify at 1; rewrite bind_run; cbv beta iota.
  all: rewrite Events_enable_then, fireCreateIfEnabled_then, connect_run.
  all: eexists _, (setTarget _); split; [reflexivity|]; split; [|by intros []].
  all: rewrite inputList_connectState, getBlock_fireCreateState, getBlock_setDisabled.
  all: rewrite !getBlock_updateBlock_ne by done.
  all: rewrite getBlock_addBlock, decide_False by done.
  all: done.
Qed.

Lemma populateArgumentOnCaller_spec self ty index cm id input ws :
  input < List.length (inputList (getBlock ws self)) →
  cmGet id cm ≠ Some None →
  ∃ ws' cm',
    populateArgumentOnCaller_ self ty index cm id input ws = (ws', Return cm')
    ∧ populateResult self input cm id Call ty ws ws' cm'.
Proof.
  intros Hin Hnull. destruct (savedConnection_run cm id ws Hnull) as [sh Hsc].
  unfold populateArgumentOnCaller_. rewrite (bind_return _ _ _ _ _ Hsc).
  cbv beta iota. rewrite gets_then.
  destruct (savedBlock cm id) as [c|] eqn:Hsb.
  - rewrite connect_then.
    destruct (negb (bool_decide (ty = BOOLEAN))
              && truthy (generateShadows_ (getBlock ws self))).
    + rewrite modify_then. cbv beta.
      eexists _, _. split; [reflexivity|].
      exists (λ i, setShadowDomOf (Some (default (buildShadowDom_ ty) sh))
                     (setTarget (Some c) i)).
      split_and!.
      * rewrite getBlock_updateInput_eq. cbn [inputList setInputList].
        rewrite inputList_connectState. by rewrite list_alter_alter_eq.
      * by intros [].
      * congruence.
      * by right.
      * intros c' Hc' _. assert (c' = c) as -> by congruence.
        split; [done|]. split; [by intros []|].
        destruct (decide (self = c)) as [<-|Hne].
        -- rewrite getBlock_updateInput_eq.
           pose proof (parent_connectState self input self ws) as Hp.
           by destruct (getBlock (connectState self input self ws) self).
        -- rewrite getBlock_updateInput_ne by done. apply parent_connectState.
    + rewrite ret_then.
      eexists _, _. split; [reflexivity|].
      exists (setTarget (Some c)). split_and!.
      * apply inputList_connectState.
      * by intros [].
      * congruence.
      * by right.
      * intros c' Hc' _. assert (c' = c) as -> by congruence.
        split; [done|]. split; [by intros []|].
        apply parent_connectState.
  - destruct (truthy (generateShadows_ (getBlock ws self))).
    + destruct (attachShadow_inputs self input ty ws Hin) as (ws' & g & Hrun & Hg & Hnk).
      rewrite (bind_return _ _ _ _ _ Hrun).
      eexists _, _. split; [reflexivity|]. exists g.
      split_and!; try done; [by left|congruence].
    + rewrite ret_then. eexists _, _. split; [reflexivity|]. exists (λ i, i).
      split_and!; try done; [by rewrite list_alter_id|by left|congruence].
Qed.

(** The prototype and the declaration populate their inputs the same way,
    up to the block they create and the field they write. *)
Definition populateWith (create : ArgumentType → option string → M BlockRef)
    (fname : string) (self : BlockRef) (ty : ArgumentType) (index : nat)
    (connectionMap : ConnectionMap) (id : string) (input : nat) : M ConnectionMap :=
  '(oldBlock, _) ← savedConnection connectionMap id;
  oldTypeMatches ← gets (λ ws, checkOldTypeMatches_ ws oldBlock ty);
  displayName ← displayNameAt self index;
  '(argumentReporter, connectionMap) ←
    match oldBlock with
    | Some old =>
        if oldTypeMatches : bool then
          setFieldValue old displayName fname;;
          ret (old, cmSet id None connectionMap)
        else
          r ← create ty displayName; ret (r, connectionMap)
    | None =>
        r ← create ty displayName; ret (r, connectionMap)
    end;
  connect self input argumentReporter;;
  ret connectionMap.

Lemma populateArgumentOnPrototype_unfold :
  populateArgumentOnPrototype_ = populateWith createArgumentReporter_ "VALUE".
Proof. reflexivity. Qed.

Lemma populateArgumentOnDeclaration_unfold :
  populateArgumentOnDeclaration_ = populateWith createArgumentEditor_ "TEXT".
Proof. reflexivity. Qed.

Lemma displayNameAt_run self index ws names :
  displayNames_ (getBlock ws self) = Some names →
  displayNameAt self index ws = (ws, Return (names !! index)).
Proof. intros H. unfold displayNameAt. rewrite gets_then, H. reflexivity. Qed.

Lemma populateWith_spec create fname role self ty index cm id input ws :
  (∀ ty n, returns (create ty n)) →
  (∀ ty n, preserves (keepsInputs self) (create ty n)) →
  role ≠ Call →
  input < List.length (inputList (getBlock ws self)) →
  cmGet id cm ≠ Some None →
  is_Some (displayNames_ (getBlock ws self)) →
  ∃ ws' cm',
    populateWith create fname self ty index cm id input ws = (ws', Return cm')
    ∧ populateResult self input cm id role ty ws ws' cm'.
Proof.
  intros Hret Hki Hrole Hin Hnull [names Hnames].
  pose proof (in_dom_of_inputs _ _ _ Hin) as Hdom.
  destruct (savedConnection_run cm id ws Hnull) as [sh Hsc].
  unfold populateWith. rewrite (bind_return _ _ _ _ _ Hsc).
  cbv beta iota. rewrite gets_then.
  rewrite (bind_return _ _ _ _ _ (displayNameAt_run self index ws names Hnames)).
  assert (Hcreate : ∃ ws1 r, create ty (names !! index) ws = (ws1, Return r)
            ∧ inputList (getBlock ws1 self) = inputList (getBlock ws self)).
  { destruct (run_returns (create ty (names !! index)) (keepsInputs self) ws)
      as (ws1 & r & Hrun & Hk); [done..|].
    exists ws1, r. split; [done|]. by apply Hk. }
  assert (Hfresh : ∃ ws' cm',
    ((create ty (names !! index) ≫= λ r, ret (r, cm))
       ≫= λ '(argumentReporter, connectionMap),
            connect self input argumentReporter ≫= λ _, ret connectionMap) ws
    = (ws', Return cm')
    ∧ cm' = cm
    ∧ ∃ g, inputList (getBlock ws' self) = alter g input (inputList (getBlock ws self))
        ∧ ∀ i, name (g i) = name i ∧ kind (g i) = kind i).
  { destruct Hcreate as (ws1 & r & Hrun & Hinp).
    rewrite bind_assoc_run, (bind_return _ _ _ _ _ Hrun), ret_then.
    cbv beta iota. rewrite connect_then.
    eexists _, _. split; [reflexivity|]. split; [done|].
    exists (setTarget (Some r)). split; [|by intros []].
    by rewrite inputList_connectState, Hinp. }
  destruct (savedBlock cm id) as [c|] eqn:Hsb.
  - destruct (checkOldTypeMatches_ ws (Some c) ty) eqn:Hmatch.
    + destruct (run_returns (setFieldValue c (names !! index) fname)
                  (keepsInputs self) ws) as (ws1 & [] & Hrun & Hk);
        [auto with returns|auto with preserves|].
      destruct (Hk Hdom) as [Hinp _].
      rewrite bind_assoc_run, (bind_return _ _ _ _ _ Hrun), ret_then.
      cbv beta iota. rewrite connect_then.
      eexists _, _. split; [reflexivity|].
      exists (setTarget (Some c)). split_and!.
      * by rewrite inputList_connectState, Hinp.
      * by intros [].
      * congruence.
      * by right.
      * intros c' Hc' _. assert (c' = c) as -> by congruence.
        split; [done|]. split; [by intros []|]. apply parent_connectState.
    + destruct Hfresh as (ws' & cm' & Hrun & -> & g & Hg & Hnk).
      exists ws', cm. split; [done|]. exists g.
      split_and!; try done; [by left|].
      intros c' Hc' Hreuse. assert (c' = c) as -> by congruence.
      destruct role; [done|unfold reusable in Hreuse; congruence..].
  - destruct Hfresh as (ws' & cm' & Hrun & -> & g & Hg & Hnk).
    exists ws', cm. split; [done|]. exists g.
    split_and!; try done; [by left|congruence].
Qed.

Lemma populateArgument_spec role self ty index cm id input ws :
  roleOf ws self = Some role →
  input < List.length (inputList (getBlock ws self)) →
  cmGet id cm ≠ Some None →
  (role ≠ Call → is_Some (displayNames_ (getBlock ws self))) →
  ∃ ws' cm',
    populateArgument_ self ty index cm id input ws = (ws', Return cm')
    ∧ populateResult self input cm id role ty ws ws' cm'.
Proof.
  intros Hrole Hin Hnull Hnames. unfold populateArgument_.
  rewrite gets_then, Hrole. destruct role.
  - by apply populateArgumentOnCaller_spec.
  - rewrite populateArgumentOnPrototype_unfold.
    apply populateWith_spec; auto with returns preserves.
  - rewrite populateArgumentOnDeclaration_unfold.
    apply populateWith_spec; auto with returns preserves.
Qed.

(** ** The connection map *)

Section ConnectionMaps.

Lemma cmGet_cmSet id v cm k :
  cmGet k (cmSet id v cm) = if decide (id = k) then Some v else cmGet k cm.
Proof.
  induction cm as [|[k' v'] cm IH]; cbn.
  - destruct (String.eqb_spec id k); by case_decide.
  - destruct (String.eqb_spec k' id) as [->|Hne]; cbn.
    + destruct (String.eqb_spec id k); by case_decide.
    + destruct (String.eqb_spec k' k) as [->|Hne'].
      * by rewrite decide_False.
      * done.
Qed.

Lemma cmGet_cmSet_eq id v cm : cmGet id (cmSet id v cm) = Some v.
Proof. rewrite cmGet_cmSet. by rewrite decide_True. Qed.

Lemma cmGet_cmSet_ne id v cm k : id ≠ k → cmGet k (cmSet id v cm) = cmGet k cm.
Proof. intros. rewrite cmGet_cmSet. by rewrite decide_False. Qed.

Lemma cmGet_None id cm : cmGet id cm = None ↔ id ∉ cm.*1.
Proof.
  induction cm as [|[k v] cm IH]; cbn; [set_solver|].
  destruct (String.eqb_spec k id) as [->|Hne]; [set_solver|].
  rewrite IH. set_solver.
Qed.

Lemma cmSet_keys_present id v cm : id ∈ cm.*1 → (cmSet id v cm).*1 = cm.*1.
Proof.
  induction cm as [|[k v'] cm IH]; cbn; [by intros ?%elem_of_nil|].
  destruct (String.eqb_spec k id) as [->|Hne]; [done|].
  intros Hin. cbn. f_equal. apply IH. set_solver.
Qed.

Lemma cmSet_keys_absent id v cm : id ∉ cm.*1 → (cmSet id v cm).*1 = cm.*1 ++ [id].
Proof.
  induction cm as [|[k v'] cm IH]; cbn; [done|].
  destruct (String.eqb_spec k id) as [->|Hne]; [set_solver|].
  intros Hin. cbn. f_equal. apply IH. set_solver.
Qed.

Lemma cmSet_NoDup id v cm : NoDup cm.*1 → NoDup (cmSet id v cm).*1.
Proof.
  intros Hnd. destruct (decide (id ∈ cm.*1)).
  - by rewrite cmSet_keys_present.
  - rewrite cmSet_keys_absent by done. apply NoDup_app.
    split; [done|]. split; [|apply NoDup_singleton].
    intros x Hx ->%list_elem_of_singleton. done.
Qed.


Lemma savedBlock_key id c cm : savedBlock cm id = Some c → id ∈ cm.*1.
Proof.
  unfold savedBlock. intros H. destruct (decide (id ∈ cm.*1)) as [|Hn]; [done|].
  apply cmGet_None in Hn. by rewrite Hn in H.
Qed.

Lemma savedBlock_cmSet_ne id v cm k :
  id ≠ k → savedBlock (cmSet id v cm) k = savedBlock cm k.
Proof. intros. unfold savedBlock. by rewrite cmGet_cmSet_ne. Qed.

End ConnectionMaps.

(** ** One component of the procCode *)

Inductive Token :=
  | Label (text : string)
  | Argument (ty : ArgumentType) (label : string)
  | Invalid (argumentType : string).

(** What [createInput] reads in a component. *)
Definition parseComponent (component : string) : Token :=
  if bool_decide (JS.substring 0 1 component = "%") then
    match argumentTypeOfString (JS.substring 1 2 component) with
    | None => Invalid (JS.substring 1 2 component)
    | Some ty => Argument ty (JS.trim (JS.substringFrom 2 component))
    end
  else Label (JS.trim component).

Definition argumentTypeOf (t : Token) : option ArgumentType :=
  match t with Argument ty _ => Some ty | _ => None end.

Definition isInvalid (t : Token) : bool :=
  match t with Invalid _ => true | _ => false end.

(** The tokens of a procCode and the types of its argument markers. *)
Definition tokensOf (procCode : string) : list Token :=
  map parseComponent (procComponents procCode).

Definition argumentTypesOf (procCode : string) : list ArgumentType :=
  omap argumentTypeOf (tokensOf procCode).

(** The procCode parses: no component is an invalid marker. *)
Definition parses (procCode : string) : Prop :=
  forallb (λ t, negb (isInvalid t)) (tokensOf procCode) = true.

#[global] Instance InputKind_eq_dec : EqDecision InputKind.
Proof. solve_decision. Defined.

(** The names of the value inputs, in order. *)
Definition valueNames (inputs : list Input) : list string :=
  name <$> filter (λ i, kind i = VALUE) inputs.

(** ** One turn of [createAllInputs_] *)

Lemma kp_appendValueInput self self' id : preserves (keepsParent self) (appendValueInput self' id).
Proof. unfold appendValueInput. destruct id as [[|]|]; preserves_auto. Qed.

#[global] Hint Resolve kp_appendValueInput : preserves.

Lemma kp_createInput self st component :
  preserves (keepsParent self) (createInput self st component).
Proof.
  unfold createInput. destruct st as [argumentCount connectionMap].
  case_bool_decide; preserves_auto.
Qed.

#[global] Hint Resolve kp_createInput : preserves.

Lemma createInput_unfold self count cm component :
  createInput self (count, cm) component =
  match parseComponent component with
  | Invalid argumentType => throw (invalidTypeMessage argumentType)
  | Argument ty labelText =>
      id ← gets (λ ws, JS.index (argumentIds_ (getBlock ws self)) count);
      input ← appendValueInput self id;
      (if bool_decide (ty = BOOLEAN)
       then modify (updateInput self input (setCheckOf (Some "Boolean")))
       else ret tt);;
      connectionMap ← populateArgument_ self ty count cm (default "" id) input;
      addProcedureLabel_ self (JS.replaceEscapedPercent labelText);;
      ret (S count, connectionMap)
  | Label labelText =>
      addProcedureLabel_ self (JS.replaceEscapedPercent labelText);;
      ret (count, cm)
  end.
Proof.
  unfold createInput, parseComponent. case_bool_decide; [|done].
  by destruct (argumentTypeOfString _).
Qed.

Lemma frame_roleOf ws ws' self :
  frame ws ws' → self ∈ dom (blockDB ws) → roleOf ws' self = roleOf ws self.
Proof. intros Hf Hs. unfold roleOf. by rewrite (frame_type _ _ Hf). Qed.

Lemma frame_argumentIds ws ws' b :
  frame ws ws' → argumentIds_ (getBlock ws' b) = argumentIds_ (getBlock ws b).
Proof. intros Hf. pose proof (frame_mutation _ _ Hf b) as H. by injection H. Qed.

Lemma frame_displayNames ws ws' b :
  frame ws ws' → displayNames_ (getBlock ws' b) = displayNames_ (getBlock ws b).
Proof. intros Hf. pose proof (frame_mutation _ _ Hf b) as H. by injection H. Qed.

Lemma frame_procCode ws ws' b :
  frame ws ws' → procCode_ (getBlock ws' b) = procCode_ (getBlock ws b).
Proof. intros Hf. pose proof (frame_mutation _ _ Hf b) as H. by injection H. Qed.

Lemma frame_in_dom ws ws' b :
  frame ws ws' → b ∈ dom (blockDB ws) → b ∈ dom (blockDB ws').
Proof. intros Hf Hb. by apply (frame_dom _ _ Hf). Qed.

Lemma type_in_dom ws b : type (getBlock ws b) ≠ "" → b ∈ dom (blockDB ws).
Proof.
  intros Hty. apply elem_of_dom. destruct (blockDB ws !! b) eqn:E; [done|].
  unfold getBlock in Hty. by rewrite lookup_total_alt, E in Hty.
Qed.

Lemma reusable_frame role ws ws' c ty :
  frame ws ws' → reusable role ws c ty → reusable role ws' c ty.
Proof.
  intros Hf. destruct role; [done|..]; unfold reusable, checkOldTypeMatches_.
  all: intros H.
  all: assert (Hty : type (getBlock ws c) ≠ "")
    by (intros E; rewrite E in H; by repeat case_bool_decide).
  all: by rewrite (frame_type _ _ Hf) by by apply type_in_dom.
Qed.

Lemma addProcedureLabel_spec role self text ws :
  roleOf ws self = Some role →
  ∃ ws' lbl,
    addProcedureLabel_ self text ws = (ws', Return tt)
    ∧ inputList (getBlock ws' self) = inputList (getBlock ws self) ++ lbl
    ∧ Forall (λ i, kind i = DUMMY) lbl.
Proof.
  intros Hrole. unfold addProcedureLabel_. rewrite gets_then, Hrole.
  assert (Hfield : ∀ n f ws0, ∃ ws' lbl,
    appendDummyInputWithField self n f ws0 = (ws', Return tt)
    ∧ inputList (getBlock ws' self) = inputList (getBlock ws0 self) ++ lbl
    ∧ Forall (λ i, kind i = DUMMY) lbl).
  { intros n f ws0. eexists _, [_]. split; [reflexivity|]. split.
    - rewrite getBlock_updateBlock_eq. reflexivity.
    - by repeat constructor. }
  destruct role; [apply Hfield..|].
  unfold addLabelEditor_. case_bool_decide.
  - exists ws, []. split; [done|]. split; [by rewrite app_nil_r|constructor].
  - unfold genUid. rewrite bind_run.
    destruct (Hfield ("uid:" +:+ pretty (uidCounter ws)) [FieldTextInputRemovable text]
                (setUidCounter (S (uidCounter ws)) ws)) as (ws' & lbl & Hrun & Hl & Hk).
    exists ws', lbl. done.
Qed.

(** The turn for an argument marker of type [ty] whose id is [id]. *)
Lemma createInput_argument role self count cm component ty labelText id ws :
  parseComponent component = Argument ty labelText →
  roleOf ws self = Some role →
  self ∈ dom (blockDB ws) →
  argumentIds_ (getBlock ws self) !! count = Some id →
  id ≠ "" →
  cmGet id cm ≠ Some None →
  (role ≠ Call → is_Some (displayNames_ (getBlock ws self))) →
  ∃ ws' cm' vi lbl,
    createInput self (count, cm) component ws = (ws', Return (S count, cm'))
    ∧ inputList (getBlock ws' self) = inputList (getBlock ws self) ++ vi :: lbl
    ∧ name vi = id ∧ kind vi = VALUE
    ∧ Forall (λ i, kind i = DUMMY) lbl
    ∧ (savedBlock cm id = None → cm' = cm)
    ∧ (cm' = cm ∨ cm' = cmSet id None cm)
    ∧ (∀ c, savedBlock cm id = Some c → reusable role ws c ty →
         cm' = cmSet id None cm ∧ targetBlock vi = Some c
         ∧ parentBlock_ (getBlock ws' c) = Some self).
Proof.
  intros Hparse Hrole Hdom Hid Hne Hnull Hnames.
  rewrite createInput_unfold, Hparse. rewrite gets_then. unfold JS.index. rewrite Hid.
  cbn [default].
  (* appendValueInput *)
  set (vi0 := {| name := id; kind := VALUE; check := None; targetBlock := None;
                 shadowDom := None; fieldRow := [] |}).
  set (L := inputList (getBlock ws self)).
  set (ws1 := updateBlock self (λ b, setInputList (inputList b ++ [vi0]) b) ws).
  assert (Happend : appendValueInput self (Some id) ws = (ws1, Return (List.length L))).
  { unfold appendValueInput. by destruct id. }
  rewrite (bind_return _ _ _ _ _ Happend).
  assert (HL1 : inputList (getBlock ws1 self) = L ++ [vi0]).
  { unfold ws1. by rewrite getBlock_updateBlock_eq. }
  assert (Hq1 : quiet ws ws1) by (apply quiet_updateBlock; by intros []).
  (* setCheck *)
  set (vi1 := if bool_decide (ty = BOOLEAN) then setCheckOf (Some "Boolean") vi0 else vi0).
  assert (Hcheck : ∃ ws2,
    (if bool_decide (ty = BOOLEAN)
     then modify (updateInput self (List.length L) (setCheckOf (Some "Boolean")))
     else ret tt) ws1 = (ws2, Return tt)
    ∧ inputList (getBlock ws2 self) = L ++ [vi1] ∧ quiet ws1 ws2).
  { unfold vi1. case_bool_decide.
    - eexists. split; [reflexivity|]. split; [|apply quiet_updateInput].
      rewrite getBlock_updateInput_eq. cbn [inputList setInputList]. rewrite HL1.
      rewrite alter_app_r_alt by lia. by rewrite Nat.sub_diag.
    - exists ws1. split; [done|]. split; [done|reflexivity]. }
  destruct Hcheck as (ws2 & Hrun2 & HL2 & Hq2).
  rewrite (bind_return _ _ _ _ _ Hrun2).
  assert (Hq02 : quiet ws ws2) by by transitivity ws1.
  assert (Hf02 := quiet_frame _ _ Hq02).
  (* populateArgument_ *)
  destruct (populateArgument_spec role self ty count cm id (List.length L) ws2)
    as (ws3 & cm' & Hrun3 & g & Hg & Hnk & Hnone & Hcases & Hreuse).
  { by rewrite (frame_roleOf ws ws2). }
  { rewrite HL2, length_app. cbn. lia. }
  { done. }
  { intros Hr. rewrite (frame_displayNames ws ws2) by done. auto. }
  rewrite (bind_return _ _ _ _ _ Hrun3).
  assert (Hq23 : quiet ws2 ws3).
  { pose proof (quiet_populateArgument_ self ty count cm id (List.length L) ws2) as H.
    by rewrite Hrun3 in H. }
  assert (HL3 : inputList (getBlock ws3 self) = L ++ [g vi1]).
  { rewrite Hg, HL2. rewrite alter_app_r_alt by lia. by rewrite Nat.sub_diag. }
  (* addProcedureLabel_ *)
  destruct (addProcedureLabel_spec role self (JS.replaceEscapedPercent labelText) ws3)
    as (ws4 & lbl & Hrun4 & HL4 & Hlbl).
  { assert (Hf23 := quiet_frame _ _ Hq23).
    assert (Hd2 : self ∈ dom (blockDB ws2)) by by apply (frame_in_dom ws).
    by rewrite (frame_roleOf ws2 ws3 self Hf23 Hd2), (frame_roleOf ws ws2 self Hf02 Hdom). }
  rewrite (bind_return _ _ _ _ _ Hrun4).
  exists ws4, cm', (g vi1), lbl. split_and!; try done.
  - rewrite HL4, HL3. by rewrite <- app_assoc.
  - destruct (Hnk vi1) as [-> _]. unfold vi1. by case_bool_decide.
  - destruct (Hnk vi1) as [_ ->]. unfold vi1. by case_bool_decide.
  - intros c Hc Hr. destruct (Hreuse c Hc) as (-> & Ht & Hp).
    { by apply (reusable_frame role ws ws2). }
    split; [done|]. split; [done|].
    pose proof (kp_addProcedureLabel_ self (JS.replaceEscapedPercent labelText) ws3) as H.
    rewrite Hrun4 in H. by apply H.
Qed.

(** The turn for a label. *)
Lemma createInput_label role self count cm component labelText ws :
  parseComponent component = Label labelText →
  roleOf ws self = Some role →
  ∃ ws' lbl,
    createInput self (count, cm) component ws = (ws', Return (count, cm))
    ∧ inputList (getBlock ws' self) = inputList (getBlock ws self) ++ lbl
    ∧ Forall (λ i, kind i = DUMMY) lbl.
Proof.
  intros Hparse Hrole. rewrite createInput_unfold, Hparse.
  destruct (addProcedureLabel_spec role self (JS.replaceEscapedPercent labelText) ws Hrole)
    as (ws' & lbl & Hrun & HL & Hlbl).
  rewrite (bind_return _ _ _ _ _ Hrun). by exists ws', lbl.
Qed.

(** ** The loop of [createAllInputs_] *)

Section Rebuild.

Context (role : Role) (self : BlockRef).

Definition componentTypes (comps : list string) : list ArgumentType :=
  omap (λ c, argumentTypeOf (parseComponent c)) comps.

Lemma valueNames_app l1 l2 : valueNames (l1 ++ l2) = valueNames l1 ++ valueNames l2.
Proof. unfold valueNames. by rewrite filter_app, fmap_app. Qed.

Lemma valueNames_dummies lbl : Forall (λ i, kind i = DUMMY) lbl → valueNames lbl = [].
Proof.
  induction 1 as [|i lbl Hi _ IH]; [done|].
  unfold valueNames in *. rewrite filter_cons_False; [done|]. by rewrite Hi.
Qed.

Lemma valueNames_value vi l : kind vi = VALUE → valueNames (vi :: l) = name vi :: valueNames l.
Proof. intros H. unfold valueNames. by rewrite filter_cons_True. Qed.

Lemma componentTypes_cons comp comps :
  componentTypes (comp :: comps)
  = match argumentTypeOf (parseComponent comp) with
    | Some ty => ty :: componentTypes comps
    | None => componentTypes comps
    end.
Proof. reflexivity. Qed.

(** What the loop reaches from [(count, cm)] in [ws] over the ids [used]
    with the types [tys]. *)
Definition rebuilt (ws : Workspace) (cm : ConnectionMap) (used : list string)
    (tys : list ArgumentType) (ws' : Workspace) (cm' : ConnectionMap) : Prop :=
  quiet ws ws' ∧ keepsParent self ws ws'
  ∧ (∃ added,
       inputList (getBlock ws' self) = inputList (getBlock ws self) ++ added
       ∧ valueNames added = used
       ∧ ∀ j id c ty, used !! j = Some id → tys !! j = Some ty →
           savedBlock cm id = Some c → reusable role ws c ty →
           (∃ vi, vi ∈ added ∧ name vi = id ∧ kind vi = VALUE ∧ targetBlock vi = Some c)
           ∧ parentBlock_ (getBlock ws' c) = Some self
           ∧ cmGet id cm' = Some None)
  ∧ (∀ k, k ∉ used → cmGet k cm' = cmGet k cm)
  ∧ (∀ k v, cmGet k cm' = Some (Some v) → cmGet k cm = Some (Some v))
  ∧ cm'.*1 = cm.*1.

Lemma createInputs_fold comps : ∀ count cm ws,
  roleOf ws self = Some role →
  self ∈ dom (blockDB ws) →
  (role ≠ Call → is_Some (displayNames_ (getBlock ws self))) →
  Forall (λ c, isInvalid (parseComponent c) = false) comps →
  let tys := componentTypes comps in
  let used := take (List.length tys) (drop count (argumentIds_ (getBlock ws self))) in
  List.length used = List.length tys →
  Forall (λ id, id ≠ "") used →
  NoDup used →
  Forall (λ id, cmGet id cm ≠ Some None) used →
  ∃ ws' cm',
    forOf (createInput self) (count, cm) comps ws
    = (ws', Return (count + List.length tys, cm'))
    ∧ rebuilt ws cm used tys ws' cm'.
Proof.
  induction comps as [|comp comps IH];
    intros count cm ws Hrole Hdom Hnames Hvalid tys used Hlen Hne Hnd Hnull.
  { exists ws, cm. cbn [forOf]. unfold ret, mret, M_ret. rewrite Nat.add_0_r.
    split; [done|]. split_and!; try done.
    exists []. split_and!; [by rewrite app_nil_r|done|].
    intros j id c ty Hj. subst used tys. cbn in Hj. by rewrite take_0, lookup_nil in Hj. }
  apply Forall_cons in Hvalid as [Hvalid1 Hvalid].
  cbn [forOf]. subst tys used. rewrite componentTypes_cons in *.
  destruct (parseComponent comp) as [text|ty labelText|bad] eqn:Hparse; [| |done].
  - (* a label *)
    cbn [argumentTypeOf] in *.
    destruct (createInput_label role self count cm comp text ws Hparse Hrole)
      as (ws1 & lbl & Hrun & HL & Hlbl).
    rewrite (bind_return _ _ _ _ _ Hrun).
    assert (Hq1 : quiet ws ws1).
    { pose proof (quiet_createInput self (count, cm) comp ws) as H. by rewrite Hrun in H. }
    assert (Hk1 : keepsParent self ws ws1).
    { pose proof (kp_createInput self (count, cm) comp ws) as H. by rewrite Hrun in H. }
    assert (Hf1 := quiet_frame _ _ Hq1).
    assert (Hids : argumentIds_ (getBlock ws1 self) = argumentIds_ (getBlock ws self))
      by by apply frame_argumentIds.
    assert (Hrole1 : roleOf ws1 self = Some role) by by rewrite (frame_roleOf ws ws1).
    assert (Hdom1 : self ∈ dom (blockDB ws1)) by by apply (frame_in_dom ws).
    assert (Hnames1 : role ≠ Call → is_Some (displayNames_ (getBlock ws1 self))).
    { intros Hr. rewrite (frame_displayNames ws ws1) by done. auto. }
    specialize (IH count cm ws1 Hrole1 Hdom1 Hnames1 Hvalid). cbv zeta in IH.
    rewrite Hids in IH.
    destruct (IH Hlen Hne Hnd Hnull)
      as (ws' & cm' & Hrun' & Hq & Hk & Hadd & Hout & Hmono & Hkeys).
    exists ws', cm'. split; [done|].
    destruct Hadd as (added & Hadded & Hvn & Hreuse).
    split_and!; try done.
    + by transitivity ws1.
    + by transitivity ws1.
    + exists (lbl ++ added). split_and!.
      * by rewrite Hadded, HL, app_assoc.
      * by rewrite valueNames_app, valueNames_dummies.
      * intros j id c ty Hj Hty Hc Hr.
        destruct (Hreuse j id c ty Hj Hty Hc) as ((vi & Hvi & ?) & ? & ?).
        { by apply (reusable_frame role ws ws1). }
        split_and!; try done. exists vi. split; [set_solver|done].
  - (* an argument marker *)
    cbn [argumentTypeOf List.length] in *.
    destruct (argumentIds_ (getBlock ws self) !! count) as [id|] eqn:Hid.
    2:{ apply lookup_ge_None in Hid. rewrite drop_ge in Hlen by done. done. }
    rewrite (drop_S _ _ _ Hid) in *. cbn [take] in *.
    apply Forall_cons in Hne as [Hne1 Hne]. apply NoDup_cons in Hnd as [Hnd1 Hnd].
    apply Forall_cons in Hnull as [Hnull1 Hnull].
    destruct (createInput_argument role self count cm comp ty labelText id ws)
      as (ws1 & cm1 & vi & lbl & Hrun & HL & Hname & Hkind & Hlbl & Hnone & Hcases & Hre);
      try done.
    rewrite (bind_return _ _ _ _ _ Hrun).
    assert (Hq1 : quiet ws ws1).
    { pose proof (quiet_createInput self (count, cm) comp ws) as H. by rewrite Hrun in H. }
    assert (Hk1 : keepsParent self ws ws1).
    { pose proof (kp_createInput self (count, cm) comp ws) as H. by rewrite Hrun in H. }
    assert (Hf1 := quiet_frame _ _ Hq1).
    assert (Hids : argumentIds_ (getBlock ws1 self) = argumentIds_ (getBlock ws self))
      by by apply frame_argumentIds.
    set (tys := componentTypes comps) in *.
    set (used := take (List.length tys) (drop (S count) (argumentIds_ (getBlock ws self)))) in *.
    assert (Hget1 : ∀ k, k ≠ id → cmGet k cm1 = cmGet k cm).
    { intros k Hkne. destruct Hcases as [->| ->]; [done|]. by apply cmGet_cmSet_ne. }
    assert (Hrole1 : roleOf ws1 self = Some role) by by rewrite (frame_roleOf ws ws1).
    assert (Hdom1 : self ∈ dom (blockDB ws1)) by by apply (frame_in_dom ws).
    assert (Hnames1 : role ≠ Call → is_Some (displayNames_ (getBlock ws1 self))).
    { intros Hr. rewrite (frame_displayNames ws ws1) by done. auto. }
    specialize (IH (S count) cm1 ws1 Hrole1 Hdom1 Hnames1 Hvalid). cbv zeta in IH.
    rewrite Hids in IH. fold tys used in IH.
    destruct IH as (ws' & cm' & Hrun' & Hq & Hk & Hadd & Hout & Hmono & Hkeys).
    { cbn in Hlen. lia. }
    { done. }
    { done. }
    { apply Forall_forall. intros k Hin.
      rewrite Hget1; [by eapply Forall_forall in Hnull|]. intros ->. done. }
    exists ws', cm'. split.
    { rewrite Hrun'. do 2 f_equal. f_equal. lia. }
    destruct Hadd as (added & Hadded & Hvn & Hreuse).
    split_and!.
    + by transitivity ws1.
    + by transitivity ws1.
    + exists (vi :: lbl ++ added). split_and!.
      * rewrite Hadded, HL. by rewrite <- app_assoc.
      * rewrite valueNames_value, valueNames_app, valueNames_dummies by done.
        by rewrite Hname, Hvn.
      * intros [|j] id' c ty' Hj Hty Hc Hr; cbn in Hj, Hty.
        -- injection Hj as <-. injection Hty as <-.
           destruct (Hre c Hc Hr) as (-> & Ht & Hp).
           split_and!.
           ++ exists vi. split; [left|done].
           ++ by apply Hk.
           ++ rewrite Hout by done. apply cmGet_cmSet_eq.
        -- assert (Hne' : id' ≠ id).
           { intros ->. apply Hnd1. by eapply list_elem_of_lookup_2. }
           destruct (Hreuse j id' c ty' Hj Hty) as ((vi' & Hvi' & ?) & ? & ?).
           { unfold savedBlock. rewrite Hget1 by done. apply Hc. }
           { by apply (reusable_frame role ws ws1). }
           split_and!; try done. exists vi'. split; [set_solver|done].
    + intros k Hnot. apply not_elem_of_cons in Hnot as [Hk1' Hk2].
      rewrite Hout by done. by apply Hget1.
    + intros k v Hkv. apply Hmono in Hkv.
      destruct Hcases as [->| ->]; [done|].
      rewrite cmGet_cmSet in Hkv. by case_decide.
    + rewrite Hkeys. destruct Hcases as [->| ->]; [done|].
      destruct (savedBlock cm id) as [c|] eqn:Hsb.
      * apply cmSet_keys_present. by eapply savedBlock_key.
      * by rewrite Hnone.
Qed.

End Rebuild.

(** ** The disconnect phase *)

Section Disconnect.

(** The map [disconnectOldBlocks_] returns for a list of inputs. *)
Definition saveInput (cm : ConnectionMap) (input : Input) : ConnectionMap :=
  if hasConnection input
  then cmSet (name input) (Some {| shadow := shadowDom input; block := targetBlock input |}) cm
  else cm.

Definition connectionMapOf (inputs : list Input) : ConnectionMap :=
  foldl saveInput [] inputs.

(** [keepsOrphan ws ws']: a block without parent stays without parent. *)
Definition keepsOrphan (ws ws' : Workspace) : Prop :=
  ∀ b, parentBlock_ (getBlock ws b) = None → parentBlock_ (getBlock ws' b) = None.

#[local] Instance keepsOrphan_preorder : PreOrder keepsOrphan.
Proof. split; [by intros ws b|]. intros ws1 ws2 ws3 H1 H2 b Hb. auto. Qed.

Lemma inputList_disconnectState self idx child ws :
  inputList (getBlock (disconnectState self idx child ws) self)
  = alter (setTarget None) idx (inputList (getBlock ws self)).
Proof.
  unfold disconnectState. rewrite getBlock_setTopBlocks, getBlock_updateBlock.
  case_decide; subst.
  - rewrite getBlock_updateInput_eq. by destruct (getBlock ws self).
  - by rewrite getBlock_updateInput_eq.
Qed.

Lemma parent_disconnectState self idx child ws b :
  parentBlock_ (getBlock (disconnectState self idx child ws) b)
  = if decide (child = b) then None else parentBlock_ (getBlock ws b).
Proof.
  unfold disconnectState. rewrite getBlock_setTopBlocks, getBlock_updateBlock.
  case_decide; subst.
  - by destruct (getBlock _ b).
  - unfold updateInput. rewrite getBlock_updateBlock. case_decide; subst; [|done].
    by destruct (getBlock ws b).
Qed.

Lemma disconnect_fold self suf : ∀ pre cm ws,
  inputList (getBlock ws self) = pre ++ suf →
  ∃ ws',
    forOf (disconnectOldBlock self) cm (indexedFrom (List.length pre) suf) ws
    = (ws', Return (foldl saveInput cm suf))
    ∧ quiet ws ws' ∧ keepsOrphan ws ws'
    ∧ ∀ input c, input ∈ suf → hasConnection input = true →
        targetBlock input = Some c → parentBlock_ (getBlock ws' c) = None.
Proof.
  induction suf as [|x suf IH]; intros pre cm ws Hinputs.
  { exists ws. split; [done|]. split; [reflexivity|]. split; [reflexivity|].
    by intros input c ?%elem_of_nil. }
  cbn [indexedFrom forOf foldl].
  assert (Hx : inputList (getBlock ws self) !! List.length pre = Some x).
  { rewrite Hinputs. by apply list_lookup_middle. }
  assert (Hstep : ∃ ws1 x',
    disconnectOldBlock self cm (List.length pre, x) ws = (ws1, Return (saveInput cm x))
    ∧ inputList (getBlock ws1 self) = (pre ++ [x']) ++ suf
    ∧ quiet ws ws1 ∧ keepsOrphan ws ws1
    ∧ ∀ c, hasConnection x = true → targetBlock x = Some c →
        parentBlock_ (getBlock ws1 c) = None).
  { unfold disconnectOldBlock, saveInput. rewrite gets_then, Hx.
    destruct (hasConnection x) eqn:Hc.
    - destruct (targetBlock x) as [t|] eqn:Ht.
      + exists (disconnectState self (List.length pre) t ws), (setTarget None x).
        split; [reflexivity|]. split_and!.
        * rewrite inputList_disconnectState, Hinputs.
          rewrite alter_app_r_alt by lia. rewrite Nat.sub_diag. cbn.
          by rewrite <- app_assoc.
        * apply (quiet_disconnect self (List.length pre) t ws).
        * intros b Hb. rewrite parent_disconnectState. by case_decide.
        * intros c _ [= <-]. rewrite parent_disconnectState. by rewrite decide_True.
      + exists ws, x. split; [reflexivity|]. split_and!; try reflexivity; try done.
        by rewrite Hinputs, <- app_assoc.
    - exists ws, x. split; [reflexivity|]. split_and!; try reflexivity; try done.
      by rewrite Hinputs, <- app_assoc. }
  destruct Hstep as (ws1 & x' & Hrun & Hinputs1 & Hq1 & Ho1 & Hp1).
  rewrite (bind_return _ _ _ _ _ Hrun).
  destruct (IH (pre ++ [x']) (saveInput cm x) ws1 Hinputs1) as (ws' & Hrun' & Hq & Ho & Hp).
  rewrite length_app in Hrun'. cbn [List.length] in Hrun'.
  replace (List.length pre + 1) with (S (List.length pre)) in Hrun' by lia.
  exists ws'. split; [done|]. split; [by transitivity ws1|].
  split; [intros b Hb; by apply Ho, Ho1|].
  intros input c [->|Hin]%elem_of_cons Hc Ht.
  - apply Ho. by apply Hp1.
  - by apply (Hp input).
Qed.

Lemma disconnectOldBlocks_spec self ws :
  ∃ ws',
    disconnectOldBlocks_ self ws
    = (ws', Return (connectionMapOf (inputList (getBlock ws self))))
    ∧ quiet ws ws' ∧ keepsOrphan ws ws'
    ∧ ∀ input c, input ∈ inputList (getBlock ws self) → hasConnection input = true →
        targetBlock input = Some c → parentBlock_ (getBlock ws' c) = None.
Proof.
  unfold disconnectOldBlocks_. rewrite gets_then.
  apply (disconnect_fold self (inputList (getBlock ws self)) [] [] ws). done.
Qed.

(** *** The saved map *)

Lemma saved_keys_NoDup inputs cm : NoDup cm.*1 → NoDup (foldl saveInput cm inputs).*1.
Proof.
  revert cm. induction inputs as [|x inputs IH]; intros cm Hnd; [done|].
  cbn [foldl]. apply IH. unfold saveInput. destruct (hasConnection x); [|done].
  by apply cmSet_NoDup.
Qed.

Lemma saved_not_null inputs cm k :
  cmGet k cm ≠ Some None → cmGet k (foldl saveInput cm inputs) ≠ Some None.
Proof.
  revert cm. induction inputs as [|x inputs IH]; intros cm Hcm; [done|].
  cbn [foldl]. apply IH. unfold saveInput. destruct (hasConnection x); [|done].
  rewrite cmGet_cmSet. by case_decide.
Qed.

Lemma saved_keys inputs cm k :
  k ∈ (foldl saveInput cm inputs).*1 →
  k ∈ cm.*1 ∨ ∃ input, input ∈ inputs ∧ hasConnection input = true ∧ name input = k.
Proof.
  revert cm. induction inputs as [|x inputs IH]; intros cm Hk; [by left|].
  cbn [foldl] in Hk. apply IH in Hk as [Hk|(input & Hin & Hc & Hn)].
  - unfold saveInput in Hk. destruct (hasConnection x) eqn:Hc; [|by left].
    destruct (decide (name x = k)) as [<-|Hne].
    + right. exists x. split; [left|done].
    + left. destruct (decide (name x ∈ cm.*1)).
      * by rewrite cmSet_keys_present in Hk.
      * rewrite cmSet_keys_absent in Hk by done. set_solver.
  - right. exists input. split; [by right|done].
Qed.


End Disconnect.

(** ** The three phases before the cleanup *)

Lemma parses_components procCode :
  parses procCode →
  Forall (λ c, isInvalid (parseComponent c) = false) (procComponents procCode).
Proof.
  unfold parses, tokensOf. generalize (procComponents procCode). intros comps.
  induction comps as [|c comps IH]; [constructor|].
  cbn. intros [H1 H2]%andb_prop. constructor; [|by apply IH].
  by apply negb_true_iff.
Qed.

Lemma argumentTypesOf_components procCode :
  argumentTypesOf procCode = componentTypes (procComponents procCode).
Proof.
  unfold argumentTypesOf, tokensOf, componentTypes.
  generalize (procComponents procCode). intros comps.
  induction comps as [|c comps IH]; [done|].
  cbn. rewrite IH. done.
Qed.

Lemma updateDisplay_phases role self ws :
  roleOf ws self = Some role →
  self ∈ dom (blockDB ws) →
  (role ≠ Call → is_Some (displayNames_ (getBlock ws self))) →
  parses (procCode_ (getBlock ws self)) →
  let tys := argumentTypesOf (procCode_ (getBlock ws self)) in
  let used := take (List.length tys) (argumentIds_ (getBlock ws self)) in
  let cm0 := connectionMapOf (inputList (getBlock ws self)) in
  List.length used = List.length tys →
  Forall (λ id, id ≠ "") used →
  NoDup used →
  ∃ ws3 cm',
    updateDisplay_ self ws = deleteShadows_ cm' ws3
    ∧ quiet ws ws3
    ∧ valueNames (inputList (getBlock ws3 self)) = used
    ∧ (∀ j id c ty, used !! j = Some id → tys !! j = Some ty →
         savedBlock cm0 id = Some c → reusable role ws c ty →
         (∃ vi, vi ∈ inputList (getBlock ws3 self) ∧ name vi = id ∧ kind vi = VALUE
                ∧ targetBlock vi = Some c)
         ∧ parentBlock_ (getBlock ws3 c) = Some self
         ∧ cmGet id cm' = Some None)
    ∧ (∀ k v, cmGet k cm' = Some (Some v) → cmGet k cm0 = Some (Some v))
    ∧ NoDup cm'.*1.
Proof.
  intros Hrole Hdom Hnames Hparses tys used cm0 Hlen Hne Hnd.
  destruct (disconnectOldBlocks_spec self ws) as (ws1 & Hrun1 & Hq1 & _ & _).
  fold cm0 in Hrun1.
  unfold updateDisplay_. rewrite (bind_return _ _ _ _ _ Hrun1).
  unfold removeAllInputs_. rewrite modify_then.
  set (ws2 := updateBlock self (setInputList []) ws1).
  assert (Hq12 : quiet ws1 ws2) by (apply quiet_updateBlock; by intros []).
  assert (Hq2 : quiet ws ws2) by by transitivity ws1.
  assert (Hf2 := quiet_frame _ _ Hq2).
  assert (Hin2 : inputList (getBlock ws2 self) = []).
  { unfold ws2. by rewrite getBlock_updateBlock_eq. }
  assert (Hids : argumentIds_ (getBlock ws2 self) = argumentIds_ (getBlock ws self))
    by by apply frame_argumentIds.
  assert (Hcode : procCode_ (getBlock ws2 self) = procCode_ (getBlock ws self))
    by by apply frame_procCode.
  unfold createAllInputs_. rewrite bind_assoc_run, gets_then. rewrite Hcode.
  pose proof (createInputs_fold role self
    (procComponents (procCode_ (getBlock ws self))) 0 cm0 ws2) as Hfold.
  cbv zeta in Hfold. rewrite Hids, <- argumentTypesOf_components in Hfold.
  rewrite drop_0 in Hfold. fold tys used in Hfold.
  destruct Hfold as (ws3 & cm' & Hrun3 & Hq3 & Hk3 & (added & Hadded & Hvn & Hreuse)
                        & _ & Hmono & Hkeys).
  { by rewrite (frame_roleOf ws ws2). }
  { by apply (frame_in_dom ws). }
  { intros Hr. rewrite (frame_displayNames ws ws2) by done. auto. }
  { by apply parses_components. }
  { done. }
  { done. }
  { done. }
  { apply Forall_forall. intros id _. apply saved_not_null. done. }
  rewrite bind_assoc_run, (bind_return _ _ _ _ _ Hrun3), ret_then. cbn [snd].
  rewrite Hin2, app_nil_l in Hadded.
  exists ws3, cm'. split; [done|]. split_and!.
  - by transitivity ws2.
  - by rewrite Hadded.
  - intros j id c ty Hj Hty Hc Hr. rewrite Hadded.
    apply (Hreuse j id c ty); try done. by apply (reusable_frame role ws ws2).
  - done.
  - rewrite Hkeys. by apply saved_keys_NoDup, NoDup_nil.
Qed.

Lemma deleteShadows_noop cm ws :
  (∀ k info, (k, Some info) ∈ cm → block info = None) →
  deleteShadows_ cm ws = (ws, Return tt).
Proof.
  unfold deleteShadows_, forEach. induction cm as [|[k v] cm IH]; intros H; [done|].
  cbn [forOf]. rewrite bind_run.
  assert (deleteShadow (k, v) ws = (ws, Return tt)) as ->.
  { unfold deleteShadow. cbn [snd]. destruct v as [info|]; [|done].
    rewrite (H k info); [done|left]. }
  apply IH. intros k' info Hin. apply (H k'). by right.
Qed.

Lemma updateArgumentReporterNames_total self prevArgIds prevDisplayNames ws :
  is_Some prevDisplayNames →
  is_Some (displayNames_ (getBlock ws self)) →
  ∃ writes,
    updateArgumentReporterNames_ self prevArgIds prevDisplayNames ws
    = (applyWrites writes ws, Return tt).
Proof.
  intros [prev ->] [names Hnames]. unfold updateArgumentReporterNames_.
  rewrite gets_then. destruct (parentBlock_ (getBlock ws self)) as [d|].
  - rewrite bind_run. unfold nameChangesOf. rewrite Hnames.
    eexists. apply forEach_applyNameChange.
  - by exists [].
Qed.


(** ** C1: a mutation that only reorders the argument ids *)

Section Reorder.

(** A prototype "hop %s %b" (block 1) inside a definition (block 0), with
    the shadow reporters 2 (string or number) and 3 (Boolean) in its two
    slots. *)
Definition hopPrototype : Workspace :=
  Sample.workspace
    [ (0, Sample.procedureBlock "procedures_definition" "" [] None None None
            [Sample.statementInput "custom_block" (Some 1)]);
      (1, setShadow true
            (Sample.procedureBlock "procedures_prototype" "hop %s %b" ["a1"; "a2"]
               (Some ["height"; "twice"]) None (Some 0)
               [Sample.labelInput "hop"; Sample.valueInput "a1" (Some 2);
                Sample.labelInput ""; Sample.valueInput "a2" (Some 3);
                Sample.labelInput ""]));
      (2, Sample.leafBlock "argument_reporter_string_number" true (Some 1) "VALUE" "height");
      (3, Sample.leafBlock "argument_reporter_boolean" true (Some 1) "VALUE" "twice") ]
    [0].


End Reorder.

Section Assignments.

(** The assignments a mutation makes before the display is rebuilt. *)
Definition assigns (m : MutationDom) (f : Block → Block) : Prop :=
  ∀ b, type (f b) = type b ∧ inputList (f b) = inputList b
       ∧ disposed (f b) = disposed b
       ∧ procCode_ (f b) = proccode m ∧ argumentIds_ (f b) = argumentids m.

Lemma assigns_caller m : assigns m (setCallerMutation m).
Proof. by intros b. Qed.

Lemma assigns_definition m : assigns m (setDefinitionMutation m).
Proof. by intros b. Qed.

End Assignments.

(** ** C2: a procCode that fails to parse *)

Section ParseError.

(** C2 fails as stated: applying "%x" to the call block "say %s" throws the
    invalid-type error only after the inputs were removed and the attached
    number block was disconnected. *)
Lemma C2_counterexample :
  let m := Sample.mutation "%x" ["a1"] None (Some true) in
  let result := domToMutation 0 m Sample.sayCall in
  result.2 = Throw (invalidTypeMessage "x")
  ∧ inputList (getBlock Sample.sayCall 0)
    = [Sample.labelInput "say"; Sample.valueInput "a1" (Some 1); Sample.labelInput ""]
  ∧ inputList (getBlock result.1 0) = []
  ∧ parentBlock_ (getBlock Sample.sayCall 1) = Some 0
  ∧ parentBlock_ (getBlock result.1 1) = None.
Proof. vm_compute. done. Qed.

(** What a failed mutation leaves behind: the new mutation state, no input,
    every previously attached block disconnected, nothing disposed. *)
Definition stripped (self : BlockRef) (m : MutationDom) (ws ws' : Workspace) : Prop :=
  procCode_ (getBlock ws' self) = proccode m
  ∧ argumentIds_ (getBlock ws' self) = argumentids m
  ∧ inputList (getBlock ws' self) = []
  ∧ (∀ inp c, inp ∈ inputList (getBlock ws self) → hasConnection inp = true →
       targetBlock inp = Some c → parentBlock_ (getBlock ws' c) = None)
  ∧ ∀ b, disposed (getBlock ws' b) = disposed (getBlock ws b).

Lemma updateDisplay_leading_marker self m f ws lead x rest :
  assigns m f →
  proccode m = lead +:+ String "%" (String x rest) →
  allWhite lead = true → JS.isWhiteSpace x = false → x ≠ "%"%char →
  isArgLetter x = false → argMarkerAhead (String x rest) = false →
  ∃ ws',
    updateDisplay_ self (updateBlock self f ws)
    = (ws', Throw (invalidTypeMessage (String x "")))
    ∧ stripped self m ws ws'.
Proof.
  intros Hf Hcode Hlead Hx Hpc Hletter Hcut.
  set (ws0 := updateBlock self f ws).
  destruct (Hf (getBlock ws self)) as (Hty & Hinputs & Hdisp & Hcode0 & Hids0).
  assert (Hself : getBlock ws0 self = f (getBlock ws self))
    by apply getBlock_updateBlock_eq.
  destruct (disconnectOldBlocks_spec self ws0) as (ws1 & Hrun1 & Hq1 & _ & Horphans).
  unfold updateDisplay_. rewrite (bind_return _ _ _ _ _ Hrun1).
  unfold removeAllInputs_. rewrite modify_then.
  set (ws2 := updateBlock self (setInputList []) ws1).
  assert (Hq12 : quiet ws1 ws2) by (apply quiet_updateBlock; by intros []).
  assert (Hq2 : quiet ws0 ws2) by by transitivity ws1.
  assert (Hf2 := quiet_frame _ _ Hq2).
  assert (Hcode2 : procCode_ (getBlock ws2 self) = proccode m).
  { by rewrite (frame_procCode ws0 ws2), Hself. }
  rewrite bind_run. unfold createAllInputs_.
  rewrite bind_run. cbn [gets]. rewrite Hcode2, Hcode.
  destruct (procComponents_leading_marker lead x rest Hlead Hx Hpc Hletter Hcut)
    as (t & others & ->).
  cbn [forOf]. rewrite !bind_run, createInput_invalid_marker by done.
  exists ws2. split; [done|]. unfold stripped. split_and!.
  - done.
  - by rewrite (frame_argumentIds ws0 ws2), Hself.
  - unfold ws2. by rewrite getBlock_updateBlock_eq.
  - intros inp c Hi Hc Ht. unfold ws2. rewrite getBlock_updateBlock.
    assert (parentBlock_ (getBlock ws1 c) = None) as Hnone.
    { apply (Horphans inp); [|done..]. by rewrite Hself, Hinputs. }
    case_decide; subst; [|done]. done.
  - intros b. rewrite (quiet_disposed _ _ Hq2). unfold ws0.
    rewrite getBlock_updateBlock. by case_decide; subst.
Qed.

(** Claim C2, amended.  The signature is not validated before the display
    is rebuilt.  When the procCode of the mutation begins (after blanks)
    with an invalid marker, applying the mutation to a procedure block
    throws the invalid-type error, and by then the block carries the new
    procCode and ids, has lost all its inputs, and every block that was
    attached to it is disconnected; no block is disposed. *)
Theorem C2_parse_error_strips_block role self m ws lead x rest :
  roleOf ws self = Some role →
  proccode m = lead +:+ String "%" (String x rest) →
  allWhite lead = true → JS.isWhiteSpace x = false → x ≠ "%"%char →
  isArgLetter x = false → argMarkerAhead (String x rest) = false →
  ∃ ws',
    domToMutation self m ws = (ws', Throw (invalidTypeMessage (String x "")))
    ∧ stripped self m ws ws'.
Proof.
  intros Hrole Hcode Hlead Hx Hpc Hletter Hcut.
  unfold domToMutation. rewrite gets_then, Hrole.
  assert (Hdef : ∃ ws',
    definitionDomToMutation self m ws = (ws', Throw (invalidTypeMessage (String x "")))
    ∧ stripped self m ws ws').
  { unfold definitionDomToMutation. rewrite !gets_then, modify_then.
    destruct (updateDisplay_leading_marker self m (setDefinitionMutation m) ws lead x rest)
      as (ws' & Hrun & Hs); try done.
    exists ws'. split; [|done]. cbv beta. by rewrite bind_run, Hrun. }
  destruct role; [|done..].
  unfold callerDomToMutation. rewrite modify_then.
  by apply (updateDisplay_leading_marker self m (setCallerMutation m) ws lead x rest).
Qed.

Lemma C2_parse_error_strips_block_witness :
  let m := Sample.mutation "%x" ["a1"] None (Some true) in
  ∃ ws', domToMutation 0 m Sample.sayCall = (ws', Throw (invalidTypeMessage "x"))
         ∧ stripped 0 m Sample.sayCall ws'.
Proof.
  intros m.
  apply (C2_parse_error_strips_block Call 0 m Sample.sayCall "" "x" "");
    first [reflexivity | discriminate].
Defined.

End ParseError.

(** ** C4: the default shadow of an empty slot on a call block *)

Section DefaultShadows.

(** C4 fails as stated: on a call block with shadow generation enabled, the
    empty string-or-number slot of "say %s" receives a "text" shadow with an
    empty TEXT field, not a "math_number" shadow. *)
Lemma C4_counterexample :
  let ws := Sample.workspace
    [ (0, Sample.procedureBlock "procedures_call" "" [] None (Some true) None []) ] [0] in
  let m := Sample.mutation "say %s" ["a1"] None (Some true) in
  let result := domToMutation 0 m ws in
  result.2 = Return tt
  ∧ targetBlock <$> inputList (getBlock result.1 0) = [None; Some 1; None]
  ∧ type (getBlock result.1 1) = "text"
  ∧ isShadow (getBlock result.1 1) = true
  ∧ getFieldValue result.1 1 "TEXT" = Some ""
  ∧ getFieldValue result.1 1 "NUM" = None.
Proof. vm_compute. done. Qed.

(** [defaultShadow self input ws ws' ty fname v]: from [ws] to [ws'] a new
    shadow block of type [ty], with field [fname] set to [v], was created
    and attached to the input at position [input] of [self]. *)
Definition defaultShadow (self : BlockRef) (input : nat) (ws ws' : Workspace)
    (ty fname v : string) : Prop :=
  let s := freshRef ws in
  targetBlock <$> inputList (getBlock ws' self) !! input = Some (Some s)
  ∧ type (getBlock ws' s) = ty
  ∧ isShadow (getBlock ws' s) = true
  ∧ getFieldValue ws' s fname = Some v
  ∧ parentBlock_ (getBlock ws' s) = Some self.

Lemma attachShadow_block self input ty ws :
  input < List.length (inputList (getBlock ws self)) →
  ∃ ws', attachShadow_ self input ty ws = (ws', Return tt)
    ∧ match ty with
      | NUMBER => defaultShadow self input ws ws' "math_number" "NUM" "1"
      | STRING => defaultShadow self input ws ws' "text" "TEXT" ""
      | BOOLEAN => ws' = ws
      end.
Proof.
  intros Hin. pose proof (in_dom_of_inputs _ _ _ Hin) as Hdom.
  assert (Hne : freshRef ws ≠ self) by by apply freshRef_ne.
  destruct (lookup_lt_is_Some_2 _ _ Hin) as [i Hi].
  destruct ty.
  3:{ by exists ws. }
  all: unfold attachShadow_.
  all: rewrite Events_disable_then, newBlock_then, setFieldValue_then; cbv beta.
  all: unfold modify at 1; rewrite bind_run; cbv beta iota.
  all: rewrite Events_enable_then, fireCreateIfEnabled_then, connect_run.
  all: eexists; split; [reflexivity|]; unfold defaultShadow.
  all: change (freshRef (setDisabled (S (disabled ws)) ws)) with (freshRef ws).
  all: rewrite inputList_connectState, list_lookup_alter.
  all: unfold connectState, getFieldValue.
  all: repeat first
    [ rewrite getBlock_setTopBlocks | rewrite getBlock_updateBlock_eq
    | rewrite getBlock_updateInput_ne by done
    | rewrite getBlock_fireCreateState | rewrite getBlock_setDisabled
    | rewrite getBlock_updateBlock_ne by done
    | rewrite getBlock_addBlock
    | rewrite decide_True by done | rewrite decide_False by done ].
  all: rewrite Hi; cbn.
  all: split_and!; try done.
  all: by rewrite lookup_insert_eq.
Qed.

(** Claim C4, amended.  On a call block with shadow generation enabled, an
    argument slot for which no block was saved receives a new "math_number"
    shadow with NUM "1" when it is a number slot, a new "text" shadow with
    an empty TEXT when it is a string-or-number slot, and nothing at all
    when it is a Boolean slot; the connection map is returned as it was. *)
Theorem C4_default_shadow self ty index cm id input ws :
  input < List.length (inputList (getBlock ws self)) →
  truthy (generateShadows_ (getBlock ws self)) = true →
  cmGet id cm ≠ Some None →
  savedBlock cm id = None →
  ∃ ws',
    populateArgumentOnCaller_ self ty index cm id input ws = (ws', Return cm)
    ∧ match ty with
      | NUMBER => defaultShadow self input ws ws' "math_number" "NUM" "1"
      | STRING => defaultShadow self input ws ws' "text" "TEXT" ""
      | BOOLEAN => ws' = ws
      end.
Proof.
  intros Hin Hgen Hnull Hsaved.
  destruct (savedConnection_run cm id ws Hnull) as [sh Hsc].
  unfold populateArgumentOnCaller_. rewrite (bind_return _ _ _ _ _ Hsc).
  cbv beta iota. rewrite gets_then, Hsaved, Hgen.
  destruct (attachShadow_block self input ty ws Hin) as (ws' & Hrun & Hshadow).
  exists ws'. split; [|done]. by rewrite (bind_return _ _ _ _ _ Hrun).
Qed.

Lemma C4_default_shadow_witness :
  let ws := Sample.workspace
    [ (0, Sample.procedureBlock "procedures_call" "say %n" ["a1"] None (Some true) None
            [Sample.labelInput "say"; Sample.valueInput "a1" None]) ] [0] in
  ∃ ws', populateArgumentOnCaller_ 0 NUMBER 0 [] "a1" 1 ws = (ws', Return [])
         ∧ defaultShadow 0 1 ws ws' "math_number" "NUM" "1".
Proof.
  intros ws. apply (C4_default_shadow 0 NUMBER 0 [] "a1" 1 ws).
  - vm_compute. lia.
  - reflexivity.
  - discriminate.
  - reflexivity.
Defined.

End DefaultShadows.

(** ** C5: argument editors on a declaration *)

Section DeclarationEditors.

(** The block type [createArgumentEditor_] gives an editor of kind [ty]. *)
Definition argumentEditorType (ty : ArgumentType) : string :=
  match ty with
  | NUMBER | STRING => "argument_editor_string_number"
  | BOOLEAN => "argument_editor_boolean"
  end.

(** [checkOldTypeMatches_] compares with the types of the argument
    reporters, so an argument editor never matches. *)
Lemma checkOldTypeMatches_editor ws old ty ty' :
  type (getBlock ws old) = argumentEditorType ty' →
  checkOldTypeMatches_ ws (Some old) ty = false.
Proof.
  intros Hty. unfold checkOldTypeMatches_. rewrite Hty.
  by destruct ty, ty'.
Qed.

(** A declaration "hop %s %b" (block 0) with the editors 1 and 2 in its two
    slots. *)
Definition hopDeclaration : Workspace :=
  Sample.workspace
    [ (0, Sample.procedureBlock "procedures_declaration" "hop %s %b" ["a1"; "a2"]
            (Some ["height"; "twice"]) None None
            [Sample.labelInput "hop"; Sample.valueInput "a1" (Some 1);
             Sample.labelInput ""; Sample.valueInput "a2" (Some 2)]);
      (1, Sample.leafBlock "argument_editor_string_number" true (Some 0) "TEXT" "height");
      (2, Sample.leafBlock "argument_editor_boolean" true (Some 0) "TEXT" "twice") ]
    [0].

(** Renaming the first argument of the declaration: both editors are of the
    kind of their slot, yet both are disposed and two new editors (blocks 3
    and 4) take their place. *)
Example declaration_editors_discarded :
  let m := Sample.mutation "hop %s %b" ["a1"; "a2"] (Some ["width"; "twice"]) None in
  let result := domToMutation 0 m hopDeclaration in
  result.2 = Return tt
  ∧ targetBlock <$> filter (λ i, kind i = VALUE) (inputList (getBlock result.1 0))
    = [Some 3; Some 4]
  ∧ disposed (getBlock result.1 1) = true
  ∧ disposed (getBlock result.1 2) = true
  ∧ type (getBlock result.1 3) = "argument_editor_string_number"
  ∧ getFieldValue result.1 3 "TEXT" = Some "width"
  ∧ getFieldValue result.1 1 "TEXT" = Some "height".
Proof. vm_compute. done. Qed.

Lemma createArgumentEditor_run ty displayName ws :
  ∃ ws',
    createArgumentEditor_ ty displayName ws = (ws', Return (freshRef ws))
    ∧ (∀ b, b ≠ freshRef ws → getBlock ws' b = getBlock ws b)
    ∧ type (getBlock ws' (freshRef ws)) = argumentEditorType ty
    ∧ isShadow (getBlock ws' (freshRef ws)) = true
    ∧ (∀ v, displayName = Some v → getFieldValue ws' (freshRef ws) "TEXT" = Some v).
Proof.
  unfold createArgumentEditor_.
  rewrite Events_disable_then, newBlock_then.
  change (freshRef (setDisabled (S (disabled ws)) ws)) with (freshRef ws).
  destruct displayName as [v|].
  - rewrite setFieldValue_then. cbv beta.
    unfold modify at 1. rewrite bind_run. cbv beta iota.
    rewrite Events_enable_then, fireCreateIfEnabled_then.
    eexists. split; [reflexivity|]. unfold getFieldValue. split_and!.
    + intros b Hb.
      rewrite getBlock_fireCreateState, getBlock_setDisabled.
      rewrite !getBlock_updateBlock_ne by done.
      by rewrite getBlock_addBlock, decide_False.
    + rewrite getBlock_fireCreateState, getBlock_setDisabled.
      rewrite !getBlock_updateBlock_eq, getBlock_addBlock, decide_True by done.
      by destruct ty.
    + rewrite getBlock_fireCreateState, getBlock_setDisabled.
      by rewrite !getBlock_updateBlock_eq.
    + intros ? [= <-].
      rewrite getBlock_fireCreateState, getBlock_setDisabled.
      rewrite !getBlock_updateBlock_eq. cbn. by rewrite lookup_insert_eq.
  - unfold setFieldValue. rewrite ret_then.
    unfold modify at 1. rewrite bind_run. cbv beta iota.
    rewrite Events_enable_then, fireCreateIfEnabled_then.
    eexists. split; [reflexivity|]. split_and!.
    + intros b Hb.
      rewrite getBlock_fireCreateState, getBlock_setDisabled.
      rewrite !getBlock_updateBlock_ne by done.
      by rewrite getBlock_addBlock, decide_False.
    + rewrite getBlock_fireCreateState, getBlock_setDisabled.
      rewrite !getBlock_updateBlock_eq, getBlock_addBlock, decide_True by done.
      by destruct ty.
    + rewrite getBlock_fireCreateState, getBlock_setDisabled.
      by rewrite !getBlock_updateBlock_eq.
    + done.
Qed.

(** Claim C5 does not hold of the code: on a declaration, a saved argument
    editor of the kind of its slot is not reused.  A new editor is created
    and attached in its place, the old editor keeps its text, and its entry
    stays in the connection map, from where [deleteShadows_] disposes of it
    when it is a shadow. *)
Theorem C5_editor_not_reused self ty index cm id input old names ws :
  roleOf ws self = Some Declaration →
  input < List.length (inputList (getBlock ws self)) →
  displayNames_ (getBlock ws self) = Some names →
  cmGet id cm ≠ Some None →
  savedBlock cm id = Some old →
  type (getBlock ws old) = argumentEditorType ty →
  ∃ ws',
    populateArgumentOnDeclaration_ self ty index cm id input ws = (ws', Return cm)
    ∧ let e := freshRef ws in
      e ≠ old
      ∧ targetBlock <$> inputList (getBlock ws' self) !! input = Some (Some e)
      ∧ type (getBlock ws' e) = argumentEditorType ty
      ∧ parentBlock_ (getBlock ws' e) = Some self
      ∧ getBlock ws' old = getBlock ws old.
Proof.
  intros Hrole Hin Hnames Hnull Hsaved Hty.
  pose proof (in_dom_of_inputs _ _ _ Hin) as Hdom.
  assert (Hself : freshRef ws ≠ self) by by apply freshRef_ne.
  assert (Hold : freshRef ws ≠ old).
  { apply freshRef_ne, type_in_dom. rewrite Hty. by destruct ty. }
  assert (Hos : self ≠ old).
  { intros ->. unfold roleOf in Hrole. rewrite Hty in Hrole. by destruct ty. }
  destruct (lookup_lt_is_Some_2 _ _ Hin) as [i Hi].
  destruct (savedConnection_run cm id ws Hnull) as [sh Hsc].
  unfold populateArgumentOnDeclaration_. rewrite (bind_return _ _ _ _ _ Hsc).
  cbv beta iota. rewrite gets_then, Hsaved.
  rewrite (checkOldTypeMatches_editor ws old ty ty Hty).
  rewrite (bind_return _ _ _ _ _ (displayNameAt_run self index ws names Hnames)).
  destruct (createArgumentEditor_run ty (names !! index) ws)
    as (ws1 & Hrun & Hother & Htype & _ & _).
  rewrite bind_run, (bind_return _ _ _ _ _ Hrun).
  change (ret (freshRef ws, cm) ws1) with (ws1, Return (freshRef ws, cm)).
  cbv beta iota. rewrite connect_then.
  eexists. split; [reflexivity|]. cbv zeta. split_and!.
  - done.
  - rewrite inputList_connectState, list_lookup_alter, decide_True by done.
    rewrite Hother by done. by rewrite Hi.
  - unfold connectState.
    rewrite getBlock_setTopBlocks, getBlock_updateBlock_eq.
    rewrite getBlock_updateInput_ne by done. done.
  - apply parent_connectState.
  - unfold connectState.
    rewrite getBlock_setTopBlocks, getBlock_updateBlock_ne by done.
    rewrite getBlock_updateInput_ne by done. by apply Hother.
Qed.

Lemma C5_editor_not_reused_witness :
  let saved := connectionMapOf (inputList (getBlock hopDeclaration 0)) in
  ∃ ws',
    populateArgumentOnDeclaration_ 0 STRING 0 saved "a1" 1 hopDeclaration
    = (ws', Return saved)
    ∧ let e := freshRef hopDeclaration in
      e ≠ 1
      ∧ targetBlock <$> inputList (getBlock ws' 0) !! 1 = Some (Some e)
      ∧ type (getBlock ws' e) = argumentEditorType STRING
      ∧ parentBlock_ (getBlock ws' e) = Some 0
      ∧ getBlock ws' 1 = getBlock hopDeclaration 1.
Proof.
  intros saved.
  apply (C5_editor_not_reused 0 STRING 0 saved "a1" 1 1 ["height"; "twice"] hopDeclaration).
  - reflexivity.
  - vm_compute. lia.
  - reflexivity.
  - discriminate.
  - reflexivity.
  - reflexivity.
Defined.

End DeclarationEditors.

(** ** C8: change notifications during propagation *)

Section Propagation.

(** What [mutationToDom] returns for a procedure block. *)
Definition serialized (ws : Workspace) (b : BlockRef) : MutationDom :=
  match roleOf ws b with
  | Some Call => callerMutationToDom ws b
  | _ => definitionMutationToDom ws b false
  end.

Lemma mutationToDom_run ws b :
  is_Some (roleOf ws b) → mutationToDom b ws = (ws, Return (serialized ws b)).
Proof.
  intros [role Hrole]. unfold mutationToDom, serialized.
  rewrite gets_then, Hrole. by destruct role.
Qed.

Lemma serialized_eq ws ws' b :
  type (getBlock ws' b) = type (getBlock ws b) →
  mutationState (getBlock ws' b) = mutationState (getBlock ws b) →
  serialized ws' b = serialized ws b.
Proof.
  intros Hty Hm. unfold serialized, roleOf. rewrite Hty.
  unfold callerMutationToDom, definitionMutationToDom.
  injection Hm as -> -> -> -> -> _. done.
Qed.

(** The assignments [domToMutation] makes on a block of the given role. *)
Definition assign (role : Role) (m : MutationDom) : Block → Block :=
  match role with
  | Call => setCallerMutation m
  | Prototype | Declaration => setDefinitionMutation m
  end.

(** A mutation the display can be rebuilt from: the procCode parses and
    each of its argument markers has an id, the ids in use being non-empty
    and pairwise distinct. *)
Definition applicable (m : MutationDom) : Prop :=
  let n := List.length (argumentTypesOf (proccode m)) in
  parses (proccode m)
  ∧ (n ≤ List.length (argumentids m))%nat
  ∧ Forall (λ id, id ≠ "") (take n (argumentids m))
  ∧ NoDup (take n (argumentids m)).

(** What one turn of the loop requires of the block it mutates. *)
Definition mutable (m : MutationDom) (ws : Workspace) (c : BlockRef) : Prop :=
  ∃ role, roleOf ws c = Some role
    ∧ (role ≠ Call → is_Some (argumentnames m))
    ∧ (role = Prototype → is_Some (displayNames_ (getBlock ws c))).

Lemma domToMutation_applies role c m ws :
  roleOf ws c = Some role → applicable m →
  (role ≠ Call → is_Some (argumentnames m)) →
  (role = Prototype → is_Some (displayNames_ (getBlock ws c))) →
  ∃ ws', domToMutation c m ws = (ws', Return tt)
         ∧ frame (updateBlock c (assign role m) ws) ws'.
Proof.
  intros Hrole (Hparse & Hlen & Hne & Hnd) Hnames Hprev.
  set (ws0 := updateBlock c (assign role m) ws).
  assert (Hself : getBlock ws0 c = assign role m (getBlock ws c))
    by apply getBlock_updateBlock_eq.
  assert (Hrole0 : roleOf ws0 c = Some role).
  { unfold roleOf. rewrite Hself. by destruct role. }
  assert (Hdom0 : c ∈ dom (blockDB ws0)).
  { unfold ws0. rewrite dom_updateBlock. set_solver. }
  assert (Hcode0 : procCode_ (getBlock ws0 c) = proccode m).
  { rewrite Hself. by destruct role. }
  assert (Hids0 : argumentIds_ (getBlock ws0 c) = argumentids m).
  { rewrite Hself. by destruct role. }
  assert (Hdisplay : ∃ ws1, updateDisplay_ c ws0 = (ws1, Return tt) ∧ frame ws0 ws1).
  { destruct (updateDisplay_phases role c ws0) as (ws3 & cm' & Hrun & _); try done.
    - intros Hnc. rewrite Hself. destruct role; [done|by apply Hnames..].
    - by rewrite Hcode0.
    - rewrite Hcode0, Hids0, length_take. lia.
    - by rewrite Hcode0, Hids0.
    - by rewrite Hcode0, Hids0.
    - destruct (returns_deleteShadows_ cm' ws3) as (ws1 & [] & Hdel).
      exists ws1. split; [by rewrite Hrun|].
      pose proof (frame_updateDisplay_ c ws0) as Hf.
      by rewrite Hrun, Hdel in Hf. }
  destruct Hdisplay as (ws1 & Hrun & Hframe).
  unfold domToMutation. rewrite gets_then, Hrole.
  assert (Hdef : role ≠ Call →
    ∃ ws', definitionDomToMutation c m ws = (ws', Return tt) ∧ frame ws0 ws').
  { intros Hnc. unfold definitionDomToMutation. rewrite !gets_then, modify_then.
    cbv beta. replace (setDefinitionMutation m) with (assign role m) by by destruct role.
    fold ws0. rewrite bind_run, Hrun, gets_then.
    rewrite (frame_roleOf ws0 ws1 c Hframe Hdom0), Hrole0.
    destruct role; [done| |by exists ws1].
    destruct (updateArgumentReporterNames_total c (argumentIds_ (getBlock ws c))
                (displayNames_ (getBlock ws c)) ws1) as [writes Hw].
    - by apply Hprev.
    - rewrite (frame_displayNames ws0 ws1 c Hframe), Hself. by apply Hnames.
    - eexists. split; [exact Hw|]. transitivity ws1; [done|].
      pose proof (quiet_updateArgumentReporterNames_ c (argumentIds_ (getBlock ws c))
                    (displayNames_ (getBlock ws c)) ws1) as Hq.
      rewrite Hw in Hq. apply Hq. }
  destruct role; [|by apply Hdef..].
  unfold callerDomToMutation. rewrite modify_then. by exists ws1.
Qed.

(** The notification one turn of the loop fires for [c], between the
    states [ws] and [ws']. *)
Definition notification (ws ws' : Workspace) (c : BlockRef) : list Event :=
  if bool_decide (serialized ws c ≠ serialized ws' c)
  then [BLOCK_CHANGE c "mutation" (serialized ws c) (serialized ws' c)]
  else [].

(** [unrelated cs ws ws']: between [ws] and [ws'] the blocks outside [cs]
    kept their mutation state, and no block was lost or changed its type. *)
Definition unrelated (cs : list BlockRef) (ws ws' : Workspace) : Prop :=
  (∀ b, b ∉ cs → mutationState (getBlock ws' b) = mutationState (getBlock ws b))
  ∧ (∀ b, b ∈ dom (blockDB ws) → type (getBlock ws' b) = type (getBlock ws b))
  ∧ dom (blockDB ws) ⊆ dom (blockDB ws').

Lemma mutateCaller_run c m ws :
  mutable m ws c → applicable m →
  ∃ ws', mutateCaller m c ws = (ws', Return tt)
    ∧ unrelated [c] ws ws'
    ∧ ∃ ws1, domToMutation c m ws = (ws1, Return tt)
        ∧ serialized ws' c = serialized ws1 c
        ∧ ws' = (if bool_decide (serialized ws c ≠ serialized ws1 c)
                 then (Events_fire (BLOCK_CHANGE c "mutation" (serialized ws c)
                                      (serialized ws1 c)) ws1).1
                 else ws1).
Proof.
  intros (role & Hrole & Hnames & Hprev) Happ.
  destruct (domToMutation_applies role c m ws Hrole Happ Hnames Hprev)
    as (ws1 & Hrun & Hframe).
  set (ws0 := updateBlock c (assign role m) ws) in *.
  assert (Hty0 : ∀ b, type (getBlock ws0 b) = type (getBlock ws b)).
  { intros b. unfold ws0. rewrite getBlock_updateBlock.
    case_decide; subst; [|done]. by destruct role. }
  assert (Hdom0 : dom (blockDB ws) ⊆ dom (blockDB ws0)).
  { unfold ws0. rewrite dom_updateBlock. set_solver. }
  assert (Hrole1 : roleOf ws1 c = Some role).
  { rewrite (frame_roleOf ws0 ws1 c Hframe).
    - unfold roleOf. by rewrite Hty0.
    - unfold ws0. rewrite dom_updateBlock. set_solver. }
  assert (Hun : unrelated [c] ws ws1).
  { split_and!.
    - intros b Hb. rewrite (frame_mutation _ _ Hframe). unfold ws0.
      rewrite getBlock_updateBlock_ne; [done|set_solver].
    - intros b Hb. rewrite (frame_type _ _ Hframe) by set_solver. apply Hty0.
    - pose proof (frame_dom _ _ Hframe). set_solver. }
  assert (Hfire : ∀ e b, getBlock (Events_fire e ws1).1 b = getBlock ws1 b).
  { intros e b. unfold Events_fire, modify. cbn [fst]. by case_bool_decide. }
  assert (Hfired : ∀ e, blockDB (Events_fire e ws1).1 = blockDB ws1).
  { intros e. unfold Events_fire, modify. cbn [fst]. by case_bool_decide. }
  unfold mutateCaller.
  rewrite (bind_return _ _ _ _ _ (mutationToDom_run ws c (mk_is_Some _ _ Hrole))).
  rewrite (bind_return _ _ _ _ _ Hrun).
  rewrite (bind_return _ _ _ _ _ (mutationToDom_run ws1 c (mk_is_Some _ _ Hrole1))).
  case_bool_decide as Hdiff.
  - exists (Events_fire (BLOCK_CHANGE c "mutation" (serialized ws c)
                         (serialized ws1 c)) ws1).1.
    split; [reflexivity|]. split.
    + destruct Hun as (Hm & Hty & Hd). split_and!.
      * intros b Hb. rewrite Hfire. by apply Hm.
      * intros b Hb. rewrite Hfire. by apply Hty.
      * by rewrite Hfired.
    + exists ws1. split_and!; [done| |by rewrite bool_decide_eq_true_2].
      unfold serialized, roleOf, callerMutationToDom, definitionMutationToDom.
      by rewrite !Hfire.
  - exists ws1. split; [done|]. split; [done|]. exists ws1.
    rewrite bool_decide_eq_false_2 by (intros Hn; by apply Hn). done.
Qed.

Lemma flat_map_ext_elem {A B} (f g : A → list B) l :
  (∀ x, x ∈ l → f x = g x) → flat_map f l = flat_map g l.
Proof.
  induction l as [|x l IH]; intros H; [done|]. cbn.
  rewrite (H x) by left. rewrite IH; [done|]. intros y Hy. apply H. by right.
Qed.

Lemma mutable_in_dom m ws c : mutable m ws c → c ∈ dom (blockDB ws).
Proof.
  intros (role & Hrole & _). apply type_in_dom. intros Hty.
  unfold roleOf in Hrole. by rewrite Hty in Hrole.
Qed.

Lemma mutable_unrelated m cs ws ws' c :
  unrelated cs ws ws' → c ∉ cs → mutable m ws c → mutable m ws' c.
Proof.
  intros (Hm & Hty & _) Hc Hmut. pose proof (mutable_in_dom _ _ _ Hmut) as Hdom.
  destruct Hmut as (role & Hrole & Hnames & Hprev).
  exists role. split_and!; [|done|].
  - unfold roleOf. by rewrite Hty.
  - intros Hp. specialize (Hm c Hc). injection Hm as _ _ -> _ _ _. by apply Hprev.
Qed.

Lemma serialized_unrelated cs ws ws' c :
  unrelated cs ws ws' → c ∉ cs → c ∈ dom (blockDB ws) →
  serialized ws' c = serialized ws c.
Proof. intros (Hm & Hty & _) Hc Hdom. apply serialized_eq; auto. Qed.

(** The loop of [mutateCallersAndPrototype] over pairwise distinct blocks
    runs to its end, and changes no other block's mutation state. *)
Lemma mutateCallers_loop m cs : ∀ ws,
  NoDup cs → applicable m → (∀ c, c ∈ cs → mutable m ws c) →
  ∃ ws', forEach (mutateCaller m) cs ws = (ws', Return tt)
    ∧ unrelated cs ws ws'.
Proof.
  induction cs as [|c cs IH]; intros ws Hnd Happ Hmut.
  { exists ws. split; [done|]. by split_and!. }
  apply NoDup_cons in Hnd as [Hc Hnd].
  destruct (mutateCaller_run c m ws) as (ws1 & Hrun1 & Hun1 & _);
    [apply Hmut; left|done|].
  assert (Hc1 : ∀ c', c' ∈ cs → c' ∉ [c]).
  { intros c' Hc' ->%list_elem_of_singleton. done. }
  destruct (IH ws1) as (ws' & Hrun & Hun); [done|done| |].
  { intros c' Hc'. apply (mutable_unrelated m [c] ws); [done|by apply Hc1|].
    apply Hmut. by right. }
  exists ws'. split.
  - unfold forEach. cbn [forOf]. by rewrite (bind_return _ _ _ _ _ Hrun1).
  - destruct Hun1 as (Hm1 & Hty1 & Hd1), Hun as (Hm & Hty & Hd). split_and!.
    + intros b Hb. apply not_elem_of_cons in Hb as [Hbc Hb].
      rewrite Hm by done. apply Hm1. by intros ->%list_elem_of_singleton.
    + intros b Hb. rewrite Hty by set_solver. by apply Hty1.
    + set_solver.
Qed.

Lemma getCallers_role name ws d rec c :
  c ∈ getCallers name ws d rec → roleOf ws c = Some Call.
Proof.
  intros (top & _ & _ & _ & Hty & _)%getCallers_spec.
  unfold roleOf. by rewrite Hty.
Qed.

Lemma notification_elem ws ws' cs c old new :
  BLOCK_CHANGE c "mutation" old new ∈ flat_map (notification ws ws') cs ↔
  c ∈ cs ∧ serialized ws c ≠ serialized ws' c
  ∧ old = serialized ws c ∧ new = serialized ws' c.
Proof.
  rewrite list_elem_of_In, in_flat_map. unfold notification. split.
  - intros (c' & Hc' & He). apply list_elem_of_In in Hc'.
    case_bool_decide as Hd; [|by apply List.in_nil in He].
    destruct He as [He|[]]. injection He as -> <- <-. done.
  - intros (Hc & Hd & -> & ->). exists c. rewrite <- list_elem_of_In. split; [done|].
    rewrite bool_decide_eq_true_2 by done. by left.
Qed.

(** The definition of "hop %s %b" with one call (block 4) on the
    workspace. *)
Definition hopProgram : Workspace :=
  setTopBlocks [0; 4]
    (updateBlock 4
       (λ _, Sample.procedureBlock "procedures_call" "hop %s %b" ["a1"; "a2"] None
               (Some true) None
               [Sample.labelInput "hop"; Sample.valueInput "a1" None;
                Sample.labelInput ""; Sample.valueInput "a2" None])
       hopPrototype).

(** On this workspace the call and then the prototype are notified. *)
Example hopProgram_notifications :
  let m := Sample.mutation "jump %s %b" ["a1"; "a2"] (Some ["height"; "twice"]) None in
  let result := mutateCallersAndPrototype "hop %s %b" m hopProgram in
  getCallers "hop %s %b" hopProgram 0 true = [4]
  ∧ result.2 = Return tt
  ∧ changeEvents (fired result.1)
    = [ BLOCK_CHANGE 4 "mutation" (serialized hopProgram 4) (serialized result.1 4);
        BLOCK_CHANGE 1 "mutation" (serialized hopProgram 1) (serialized result.1 1) ].
Proof. vm_compute. done. Qed.

End Propagation.

(** * Further properties of the procedure code *)

(** ** The split of a procCode *)

Section SplitProperties.

Lemma splitProcCode_nonempty s : splitProcCode s ≠ [].
Proof.
  destruct s as [|c s]; [done|]. cbn [splitProcCode].
  by destruct (argMarkerAhead s), (splitProcCode s).
Qed.

Lemma splitProcCode_join s : foldr String.append "" (splitProcCode s) = s.
Proof.
  induction s as [|c s IH]; [done|]. cbn [splitProcCode].
  destruct (argMarkerAhead s).
  - cbn [foldr]. by rewrite IH, append_cons, append_nil.
  - destruct (splitProcCode s) as [|cur rest]; cbn [foldr] in *.
    + by rewrite <- IH.
    + by rewrite append_cons, IH.
Qed.

(** A piece that starts at a cut: a character other than a backslash, then
    a percent sign. *)
Definition startsAtCut (piece : string) : bool :=
  match piece with
  | String c (String p _) => negb (Ascii.eqb c "\") && Ascii.eqb p "%"
  | _ => false
  end.

Lemma splitProcCode_head_cons c s :
  ∃ cur rest, splitProcCode (String c s) = String c cur :: rest.
Proof.
  cbn [splitProcCode]. destruct (argMarkerAhead s); [by eexists _, _|].
  destruct (splitProcCode s); by eexists _, _.
Qed.

Lemma splitProcCode_after_cut s :
  argMarkerAhead s = true →
  ∃ cur rest, splitProcCode s = cur :: rest ∧ startsAtCut cur = true.
Proof.
  unfold argMarkerAhead. destruct s as [|c [|p [|l s]]]; try done. intros H.
  apply andb_prop in H as [H Hl]. apply andb_prop in H as [Hc Hp].
  assert (argMarkerAhead (String p (String l s)) = false) as Hno.
  { unfold argMarkerAhead. destruct s as [|t s]; [done|].
    apply Ascii.eqb_eq in Hp as ->. unfold isArgLetter in Hl.
    destruct (Ascii.eqb l "%") eqn:E; [|by rewrite andb_false_r].
    apply Ascii.eqb_eq in E as ->. done. }
  destruct (splitProcCode_head_cons p (String l s)) as (cur & rest & Hs).
  exists (String c (String p cur)), rest.
  change (splitProcCode (String c (String p (String l s))))
    with (if argMarkerAhead (String p (String l s))
          then String c "" :: splitProcCode (String p (String l s))
          else match splitProcCode (String p (String l s)) with
               | cur :: rest => String c cur :: rest
               | [] => [String c ""]
               end).
  rewrite Hno, Hs. split; [done|]. cbn. by rewrite Hc, Hp.
Qed.

(** The pieces of [procCode.split(/(?=[^\\]%[nbs])/)]: joined they give the
    procCode back, there is at least one, and every piece after the first
    begins with a character other than a backslash followed by a percent
    sign. *)
Theorem splitProcCode_pieces s :
  foldr String.append "" (splitProcCode s) = s
  ∧ splitProcCode s ≠ []
  ∧ Forall (λ piece, startsAtCut piece = true) (tail (splitProcCode s)).
Proof.
  split; [apply splitProcCode_join|]. split; [apply splitProcCode_nonempty|].
  induction s as [|c s IH]; [by constructor|].
  cbn [splitProcCode]. destruct (argMarkerAhead s) eqn:Hahead.
  - cbn [tail]. destruct (splitProcCode_after_cut s Hahead) as (cur & rest & Hs & Hcur).
    rewrite Hs in *. by constructor.
  - destruct (splitProcCode s) as [|cur rest]; [by constructor|]. done.
Qed.

End SplitProperties.

(** ** What applying a mutation leaves alone *)

Section MutationFootprint.

(** [domToMutation] on [self], however it ends, changes the mutation state
    of no other block, changes the type of no block that exists, [self]
    included, and fires no mutation-change notification. *)
Theorem domToMutation_footprint self m ws b :
  let ws' := (domToMutation self m ws).1 in
  (b ≠ self → mutationState (getBlock ws' b) = mutationState (getBlock ws b))
  ∧ (b ∈ dom (blockDB ws) → type (getBlock ws' b) = type (getBlock ws b))
  ∧ changeEvents (fired ws') = changeEvents (fired ws).
Proof.
  cbv zeta.
  assert (Hassigned : ∀ f (rest : M unit),
    (∀ blk, type (f blk) = type blk) → preserves frame rest →
    let ws' := (rest (updateBlock self f ws)).1 in
    (b ≠ self → mutationState (getBlock ws' b) = mutationState (getBlock ws b))
    ∧ (b ∈ dom (blockDB ws) → type (getBlock ws' b) = type (getBlock ws b))
    ∧ changeEvents (fired ws') = changeEvents (fired ws)).
  { intros f rest Hf Hrest. cbv zeta.
    destruct (Hrest (updateBlock self f ws)) as [Hm Ht Hd He]. split_and!.
    - intros Hb. rewrite Hm. by rewrite getBlock_updateBlock_ne.
    - intros Hb.
      assert (b ∈ dom (blockDB (updateBlock self f ws))) as Hb0.
      { rewrite dom_updateBlock. set_solver. }
      rewrite Ht by done.
      rewrite getBlock_updateBlock. by case_decide; subst.
    - by rewrite He. }
  unfold domToMutation. rewrite gets_then.
  destruct (roleOf ws self) as [[| |]|]; [| | |done].
  - unfold callerDomToMutation. rewrite modify_then.
    apply (Hassigned (setCallerMutation m) (updateDisplay_ self)); [done|].
    apply frame_updateDisplay_.
  - unfold definitionDomToMutation. rewrite !gets_then, modify_then.
    apply (Hassigned (setDefinitionMutation m)); [done|].
    assert (Hp := frame_updateDisplay_ self).
    assert (Hq := λ a b, frame_of_quiet _ (quiet_updateArgumentReporterNames_ self a b)).
    preserves_auto.
  - unfold definitionDomToMutation. rewrite !gets_then, modify_then.
    apply (Hassigned (setDefinitionMutation m)); [done|].
    assert (Hp := frame_updateDisplay_ self).
    assert (Hq := λ a b, frame_of_quiet _ (quiet_updateArgumentReporterNames_ self a b)).
    preserves_auto.
Qed.

End MutationFootprint.

(** ** Looking up callers, definitions and prototypes *)

Section Lookups.

(** Excluding the definition's own stack only removes callers: the callers
    found without recursion are, in order, among those found with it, every
    caller that is missing is in the stack of [definitionRoot], and nothing
    is missing when [definitionRoot] is not a top block. *)
Theorem getCallers_recursion name ws definitionRoot :
  getCallers name ws definitionRoot false `sublist_of` getCallers name ws definitionRoot true
  ∧ (∀ c, c ∈ getCallers name ws definitionRoot true →
       c ∈ getCallers name ws definitionRoot false
       ∨ c ∈ getDescendants ws definitionRoot)
  ∧ (definitionRoot ∉ topBlocks ws →
       getCallers name ws definitionRoot false = getCallers name ws definitionRoot true).
Proof.
  split_and!.
  - unfold getCallers. induction (topBlocks ws) as [|top tops IH]; [done|].
    cbn [flat_map]. apply sublist_app; [|done].
    rewrite andb_false_r. case_bool_decide; [apply sublist_nil_l|done].
  - intros c (top & Htop & _ & Hd & Hty & Hn)%getCallers_spec.
    destruct (decide (top = definitionRoot)) as [->|Hne]; [by right|].
    left. apply getCallers_spec. exists top. split_and!; try done. by right.
  - intros Hroot. unfold getCallers.
    induction (topBlocks ws) as [|top tops IH]; [done|].
    apply not_elem_of_cons in Hroot as [Hne Hroot].
    cbn [flat_map]. rewrite IH by done.
    by rewrite andb_false_r, bool_decide_eq_false_2.
Qed.

Lemma getCallers_recursion_witness :
  getCallers "say %s" Sample.sayCall 7 false = getCallers "say %s" Sample.sayCall 7 true.
Proof.
  apply (getCallers_recursion "say %s" Sample.sayCall 7).
  apply (bool_decide_unpack _). by vm_compute.
Defined.

Lemma definesProcedure_true ws procCode block :
  definesProcedure ws procCode block = Return true →
  type (getBlock ws block) = PROCEDURES_DEFINITION_BLOCK_TYPE
  ∧ ∃ input p, getInput ws block "custom_block" = Some input
      ∧ targetBlock input = Some p
      ∧ isProcedureBlock ws p = true
      ∧ procCode_ (getBlock ws p) = procCode.
Proof.
  unfold definesProcedure. intros H. case_bool_decide as Hty; [|done]. split; [done|].
  destruct (getInput ws block "custom_block") as [input|]; [|done].
  destruct (hasConnection input); [|done].
  destruct (targetBlock input) as [p|] eqn:Ht; [|done].
  injection H as H. apply andb_prop in H as [Hp Hn%bool_decide_eq_true].
  by exists input, p.
Qed.

Lemma findDefineBlock_Some ws procCode tops d :
  findDefineBlock ws procCode tops = Return (Some d) →
  d ∈ tops ∧ definesProcedure ws procCode d = Return true.
Proof.
  induction tops as [|t tops IH]; [done|]. cbn [findDefineBlock].
  destruct (definesProcedure ws procCode t) as [[|]|] eqn:Ht; [| |done].
  - intros [= <-]. split; [left|done].
  - intros [Hin Hd]%IH. split; [by right|done].
Qed.

Lemma findDefineBlock_None ws procCode tops :
  findDefineBlock ws procCode tops = Return None →
  ∀ t, t ∈ tops → definesProcedure ws procCode t = Return false.
Proof.
  induction tops as [|t tops IH]; [by intros _ t' ?%elem_of_nil|].
  cbn [findDefineBlock].
  destruct (definesProcedure ws procCode t) as [[|]|] eqn:Ht; [done| |done].
  intros Hrest t' [->|Hin]%elem_of_cons; [done|]. by apply IH.
Qed.

End Lookups.

Section DefinitionLookup.

(** [getPrototypeBlock] reads the workspace only.  It returns a block
    exactly when [getDefineBlock] finds a definition: the block attached to
    the [custom_block] input of that top-level definition block, which is
    a procedure block with the given procCode.  It returns nothing when no
    top block defines the procedure, and throws when [getDefineBlock]
    does. *)
Theorem getPrototypeBlock_spec name ws :
  ∃ r, getPrototypeBlock name ws = (ws, r)
    ∧ match r with
      | Return (Some p) =>
          ∃ d input,
            findDefineBlock ws name (topBlocks ws) = Return (Some d)
            ∧ d ∈ topBlocks ws
            ∧ type (getBlock ws d) = PROCEDURES_DEFINITION_BLOCK_TYPE
            ∧ getInput ws d "custom_block" = Some input
            ∧ targetBlock input = Some p
            ∧ isProcedureBlock ws p = true
            ∧ procCode_ (getBlock ws p) = name
      | Return None =>
          findDefineBlock ws name (topBlocks ws) = Return None
          ∧ ∀ t, t ∈ topBlocks ws → definesProcedure ws name t = Return false
      | Throw e => findDefineBlock ws name (topBlocks ws) = Throw e
      end.
Proof.
  unfold getPrototypeBlock. rewrite bind_run. unfold getDefineBlock.
  destruct (findDefineBlock ws name (topBlocks ws)) as [[d|]|e] eqn:Hfind.
  - destruct (findDefineBlock_Some _ _ _ _ Hfind) as [Hin Hdef].
    destruct (definesProcedure_true _ _ _ Hdef) as (Hty & input & p & Hinput & Ht & Hp & Hn).
    eexists. split; [reflexivity|]. cbv beta. rewrite Hinput. cbn. rewrite Ht.
    by exists d, input.
  - eexists. split; [reflexivity|]. split; [done|]. by apply findDefineBlock_None.
  - by eexists.
Qed.

(** Without a definition of [name] among the top blocks,
    [mutateCallersAndPrototype] raises its alert and does nothing else: no
    block is read for callers, none is mutated, and the event group is not
    opened. *)
Theorem mutateCallersAndPrototype_no_definition name m ws :
  findDefineBlock ws name (topBlocks ws) = Return None →
  mutateCallersAndPrototype name m ws
  = (setFired (fired ws ++ [ALERT "No define block on workspace"]) ws, Return tt).
Proof.
  intros Hfind. unfold mutateCallersAndPrototype, getPrototypeBlock.
  rewrite bind_run. unfold getDefineBlock at 1. cbv beta iota. rewrite Hfind.
  rewrite bind_assoc_run, bind_run. unfold getDefineBlock at 1. cbv beta iota.
  rewrite Hfind. reflexivity.
Qed.

Lemma mutateCallersAndPrototype_no_definition_witness :
  mutateCallersAndPrototype "hop %s" (Sample.mutation "jump %s" ["a1"] None None)
    Sample.sayCall
  = (setFired [ALERT "No define block on workspace"] Sample.sayCall, Return tt).
Proof.
  apply (mutateCallersAndPrototype_no_definition "hop %s" _ Sample.sayCall).
  reflexivity.
Defined.

End DefinitionLookup.

(** ** The event system across a rebuild *)

(** [sameEventState ws ws']: events are as much disabled in [ws'] as in
    [ws], and the group flag is the same. *)
Definition sameEventState (ws ws' : Workspace) : Prop :=
  disabled ws' = disabled ws ∧ group ws' = group ws.

#[global] Instance sameEventState_preorder : PreOrder sameEventState.
Proof.
  split; [by intros ws|].
  intros ws1 ws2 ws3 [Hd1 Hg1] [Hd2 Hg2]. split; congruence.
Qed.

Lemma es_modify f :
  (∀ ws, disabled (f ws) = disabled ws ∧ group (f ws) = group ws) →
  preserves sameEventState (modify f).
Proof. intros H ws. apply H. Qed.

Lemma es_modify_updateBlock b f : preserves sameEventState (modify (updateBlock b f)).
Proof. by apply es_modify. Qed.
Lemma es_modify_updateInput self idx f :
  preserves sameEventState (modify (updateInput self idx f)).
Proof. by apply es_modify. Qed.
Lemma es_newBlock ty : preserves sameEventState (newBlock ty).
Proof. by intros ws. Qed.
Lemma es_genUid : preserves sameEventState genUid.
Proof. by intros ws. Qed.
Lemma es_Events_isEnabled : preserves sameEventState Events_isEnabled.
Proof. by intros ws. Qed.
Lemma es_Events_fire e : preserves sameEventState (Events_fire e).
Proof. intros ws. unfold Events_fire, modify. cbn [fst]. by case_bool_decide. Qed.
Lemma es_setFieldValue b v fname : preserves sameEventState (setFieldValue b v fname).
Proof. by destruct v; intros ws. Qed.
Lemma es_connect self idx child : preserves sameEventState (connect self idx child).
Proof. by intros ws. Qed.
Lemma es_disconnect self idx child : preserves sameEventState (disconnect self idx child).
Proof. by intros ws. Qed.
Lemma es_appendInput self i : preserves sameEventState (appendInput self i).
Proof. by intros ws. Qed.

Lemma es_dispose b : preserves sameEventState (dispose b).
Proof.
  intros ws. unfold dispose, modify, disposeState. cbn [fst].
  assert (sameEventState ws (unplug b ws)) as Hu.
  { unfold unplug. by destruct (parentBlock_ (getBlock ws b)). }
  revert Hu. generalize (unplug b ws). intros ws1 Hu.
  induction (getDescendants ws b) as [|d ds IH]; cbn [foldr]; [done|].
  destruct IH as [Hd Hg]. by split.
Qed.

#[global] Hint Resolve es_modify_updateBlock es_modify_updateInput es_newBlock es_genUid
  es_Events_isEnabled es_Events_fire es_setFieldValue es_connect es_disconnect
  es_appendInput es_dispose : preserves.

Lemma es_fireCreateIfEnabled b : preserves sameEventState (fireCreateIfEnabled b).
Proof. unfold fireCreateIfEnabled. preserves_auto. Qed.

(** The three functions that create a block disable the events and enable
    them again. *)
Lemma es_attachShadow_ self input ty : preserves sameEventState (attachShadow_ self input ty).
Proof.
  intros ws. destruct ty; [| |done]; unfold attachShadow_.
  all: rewrite Events_disable_then, newBlock_then, setFieldValue_then; cbv beta.
  all: unfold modify at 1; rewrite bind_run; cbv beta iota.
  all: rewrite Events_enable_then, fireCreateIfEnabled_then, connect_run.
  all: unfold fireCreateState; case_bool_decide; by split.
Qed.

Lemma es_createArgumentReporter_ ty n :
  preserves sameEventState (createArgumentReporter_ ty n).
Proof.
  intros ws. unfold createArgumentReporter_.
  rewrite Events_disable_then, newBlock_then.
  unfold modify at 1. rewrite bind_run. cbv beta iota.
  destruct n as [v|].
  - rewrite setFieldValue_then, Events_enable_then, fireCreateIfEnabled_then.
    unfold fireCreateState; case_bool_decide; by split.
  - unfold setFieldValue. rewrite ret_then, Events_enable_then, fireCreateIfEnabled_then.
    unfold fireCreateState; case_bool_decide; by split.
Qed.

Lemma es_createArgumentEditor_ ty n :
  preserves sameEventState (createArgumentEditor_ ty n).
Proof.
  intros ws. unfold createArgumentEditor_.
  rewrite Events_disable_then, newBlock_then.
  destruct n as [v|].
  - rewrite setFieldValue_then. cbv beta.
    unfold modify at 1. rewrite bind_run. cbv beta iota.
    rewrite Events_enable_then, fireCreateIfEnabled_then.
    unfold fireCreateState; case_bool_decide; by split.
  - unfold setFieldValue. rewrite ret_then.
    unfold modify at 1. rewrite bind_run. cbv beta iota.
    rewrite Events_enable_then, fireCreateIfEnabled_then.
    unfold fireCreateState; case_bool_decide; by split.
Qed.

#[global] Hint Resolve es_fireCreateIfEnabled es_attachShadow_ es_createArgumentReporter_
  es_createArgumentEditor_ : preserves.


Ltac es_unfold :=
  progress unfold updateDisplay_, disconnectOldBlocks_, disconnectOldBlock,
    removeAllInputs_, createAllInputs_, createInput, appendValueInput,
    appendDummyInputWithField, addProcedureLabel_, addLabelField_, addLabelEditor_,
    populateArgument_, populateArgumentOnCaller_, populateArgumentOnPrototype_,
    populateArgumentOnDeclaration_, savedConnection, displayNameAt,
    deleteShadows_, deleteShadow, updateArgumentReporterNames_, applyNameChange,
    callerDomToMutation, definitionDomToMutation, domToMutation, mutationToDom.

Ltac es_auto :=
  repeat first
    [ preserves_step
    | solve [auto with preserves]
    | case_bool_decide
    | lazymatch goal with
      | |- preserves _ (let '(_, _) := ?p in _) => destruct p
      | |- preserves _ (if ?c then _ else _) => destruct c
      | |- preserves _ (λ ws, (ws, _)) => by intros ws
      end
    | es_unfold ].

Lemma es_updateDisplay_ self : preserves sameEventState (updateDisplay_ self).
Proof. es_auto. Qed.

#[global] Hint Resolve es_updateDisplay_ : preserves.

Lemma es_domToMutation self m : preserves sameEventState (domToMutation self m).
Proof. es_auto. Qed.

#[global] Hint Resolve es_domToMutation : preserves.

Lemma es_mutateCaller m c : preserves sameEventState (mutateCaller m c).
Proof. unfold mutateCaller. es_auto. Qed.

Section EventBalance.

(** Applying a mutation to a block leaves the event system as it found it,
    whether it returns or throws: every [Events.disable()] made while a
    shadow, reporter or editor is created has been matched by an
    [Events.enable()], and the group flag is untouched. *)
Theorem domToMutation_event_balance self m ws :
  let ws' := (domToMutation self m ws).1 in
  disabled ws' = disabled ws ∧ group ws' = group ws.
Proof.
  cbv zeta. unfold domToMutation. rewrite gets_then.
  destruct (roleOf ws self) as [[| |]|]; [| | |done].
  - unfold callerDomToMutation. rewrite modify_then.
    apply (es_updateDisplay_ self (updateBlock self (setCallerMutation m) ws)).
  - assert (preserves sameEventState (definitionDomToMutation self m)) as H
      by es_auto.
    apply H.
  - assert (preserves sameEventState (definitionDomToMutation self m)) as H
      by es_auto.
    apply H.
Qed.

(** [mutateCallersAndPrototype] for a procedure whose definition is found:
    events are as much disabled afterwards as before; the event group it
    opened is closed when it returns, and left open when a turn of the loop
    throws. *)
Theorem mutateCallersAndPrototype_group name m ws d :
  findDefineBlock ws name (topBlocks ws) = Return (Some d) →
  let result := mutateCallersAndPrototype name m ws in
  disabled result.1 = disabled ws
  ∧ group result.1 = match result.2 with Return _ => false | Throw _ => true end.
Proof.
  intros Hfind.
  destruct (findDefineBlock_Some _ _ _ _ Hfind) as [_ Hdef].
  destruct (definesProcedure_true _ _ _ Hdef) as (_ & input & p & Hinput & Ht & _).
  assert (Hrun : mutateCallersAndPrototype name m ws
    = match forEach (mutateCaller m) (getCallers name ws d true ++ [p]) (setGroup true ws) with
      | (ws1, Return _) => (setGroup false ws1, Return tt)
      | (ws1, Throw e) => (ws1, Throw e)
      end).
  { unfold mutateCallersAndPrototype, getPrototypeBlock.
    rewrite bind_run. unfold getDefineBlock at 1. cbv beta iota. rewrite Hfind.
    rewrite bind_assoc_run, bind_run. unfold getDefineBlock at 1. cbv beta iota.
    rewrite Hfind, gets_then, Hinput. cbn [mbind option_bind]. rewrite Ht.
    rewrite gets_then. unfold Events_setGroup. rewrite modify_then, bind_run.
    by destruct (forEach (mutateCaller m) (getCallers name ws d true ++ [p])
                   (setGroup true ws)) as [ws1 [[]|e]]. }
  cbv zeta. rewrite Hrun.
  pose proof (preserves_forEach sameEventState (mutateCaller m)
                (getCallers name ws d true ++ [p]) (es_mutateCaller m)
                (setGroup true ws)) as [Hd Hg].
  destruct (forEach (mutateCaller m) (getCallers name ws d true ++ [p]) (setGroup true ws))
    as [ws1 [[]|e]]; cbn in *; by split.
Qed.

(** A mutation that does not parse: the propagation throws at the first
    call and the event group stays open. *)
Lemma mutateCallersAndPrototype_group_witness :
  let result := mutateCallersAndPrototype "hop %s %b"
                  (Sample.mutation "%x" [] (Some []) None) hopProgram in
  result.2 = Throw (invalidTypeMessage "x")
  ∧ disabled result.1 = disabled hopProgram
  ∧ group result.1 = true.
Proof.
  cbv zeta. split; [by vm_compute|].
  destruct (mutateCallersAndPrototype_group "hop %s %b"
              (Sample.mutation "%x" [] (Some []) None) hopProgram 0) as [Hd Hg].
  - reflexivity.
  - split; [exact Hd|]. rewrite Hg. by vm_compute.
Defined.

End EventBalance.

(** ** From a prototype to a call block *)

Section PrototypeToCall.

(** A call block that loads the mutation a prototype serialises to has the
    prototype's procCode, argument ids and warp, in whatever state the load
    stops.  It generates shadows exactly when the prototype was serialised
    with [opt_generateShadows], as [allProcedureMutations] does for the
    flyout. *)
Theorem call_block_from_prototype ws p c opt_generateShadows :
  let mutation := definitionMutationToDom ws p opt_generateShadows in
  let ws' := (callerDomToMutation c mutation ws).1 in
  truthy (generateShadows_ (getBlock ws' c)) = opt_generateShadows
  ∧ callerMutationToDom ws' c
    = {| generateshadows := None; proccode := procCode_ (getBlock ws p);
         argumentids := argumentIds_ (getBlock ws p); argumentnames := None;
         argumentdefaults := None; warp := warp_ (getBlock ws p) |}.
Proof.
  cbv zeta. unfold callerDomToMutation. rewrite modify_then.
  pose proof (mutationState_after (updateDisplay_ c)
    (updateBlock c (setCallerMutation (definitionMutationToDom ws p opt_generateShadows)) ws)
    c (frame_updateDisplay_ c)) as H.
  rewrite getBlock_updateBlock_eq in H.
  unfold callerMutationToDom. unfold mutationState in H. cbn in H.
  injection H as -> -> _ _ -> ->. by destruct opt_generateShadows.
Qed.

End PrototypeToCall.

(** ** The signature after a propagation *)

Section Synchronisation.

Lemma assign_mutationState role m blk1 blk2 :
  mutationState blk1 = mutationState blk2 →
  mutationState (assign role m blk1) = mutationState (assign role m blk2).
Proof.
  unfold mutationState. intros [= H1 H2 H3 H4 H5 H6].
  destruct role; cbn; congruence.
Qed.

(** One turn of the loop leaves the blocks as [domToMutation] left them. *)
Lemma mutateCaller_blocks m c ws b :
  is_Some (roleOf ws c) →
  getBlock (mutateCaller m c ws).1 b = getBlock (domToMutation c m ws).1 b.
Proof.
  intros Hrole. unfold mutateCaller.
  rewrite (bind_return _ _ _ _ _ (mutationToDom_run ws c Hrole)), bind_run.
  destruct (domToMutation c m ws) as [ws1 [[]|e]]; [|done]. cbn [fst].
  unfold mutationToDom. rewrite bind_assoc_run, gets_then.
  destruct (roleOf ws1 c) as [[| |]|]; [..|done].
  all: rewrite gets_then; case_bool_decide; [|done].
  all: unfold Events_fire, modify; cbn [fst]; by case_bool_decide.
Qed.

Lemma mutateCaller_state role c m ws :
  roleOf ws c = Some role → applicable m →
  (role ≠ Call → is_Some (argumentnames m)) →
  (role = Prototype → is_Some (displayNames_ (getBlock ws c))) →
  mutationState (getBlock (mutateCaller m c ws).1 c)
  = mutationState (assign role m (getBlock ws c)).
Proof.
  intros Hrole Happ Hnames Hprev.
  rewrite mutateCaller_blocks by by eexists.
  destruct (domToMutation_applies role c m ws Hrole Happ Hnames Hprev)
    as (ws1 & -> & Hframe).
  cbn [fst]. by rewrite (frame_mutation _ _ Hframe), getBlock_updateBlock_eq.
Qed.

Lemma mutateCallers_loop_state m cs : ∀ ws ws',
  NoDup cs → applicable m → (∀ c, c ∈ cs → mutable m ws c) →
  forEach (mutateCaller m) cs ws = (ws', Return tt) →
  ∀ c role, c ∈ cs → roleOf ws c = Some role →
    mutationState (getBlock ws' c) = mutationState (assign role m (getBlock ws c)).
Proof.
  induction cs as [|c cs IH]; intros ws ws' Hnd Happ Hmut Hrun c' role Hc' Hrole.
  { by apply elem_of_nil in Hc'. }
  apply NoDup_cons in Hnd as [Hc Hnd].
  destruct (mutateCaller_run c m ws) as (ws1 & Hrun1 & Hun1 & _);
    [apply Hmut; left|done|].
  unfold forEach in Hrun. cbn [forOf] in Hrun.
  rewrite (bind_return _ _ _ _ _ Hrun1) in Hrun. fold (forEach (mutateCaller m) cs) in Hrun.
  assert (Hc1 : ∀ x, x ∈ cs → x ∉ [c]).
  { intros x Hx ->%list_elem_of_singleton. done. }
  assert (Hmut1 : ∀ x, x ∈ cs → mutable m ws1 x).
  { intros x Hx. apply (mutable_unrelated m [c] ws); [done|by apply Hc1|].
    apply Hmut. by right. }
  destruct (mutateCallers_loop m cs ws1 Hnd Happ Hmut1) as (ws2 & Hrun2 & Hun2).
  assert (ws2 = ws') as -> by congruence.
  apply elem_of_cons in Hc' as [->|Hc'].
  - destruct Hun2 as (Hm2 & _). rewrite Hm2 by done.
    destruct (Hmut c) as (role' & Hrole' & Hnames & Hprev); [left|].
    assert (role' = role) as -> by congruence.
    pose proof (mutateCaller_state role c m ws Hrole Happ Hnames Hprev) as Hs.
    by rewrite Hrun1 in Hs.
  - pose proof (mutable_in_dom m ws c' (Hmut c' ltac:(by right))) as Hdom.
    destruct Hun1 as (Hm1 & Hty1 & _).
    rewrite (IH ws1 ws' Hnd Happ Hmut1 Hrun c' role Hc').
    + apply assign_mutationState, Hm1. by apply Hc1.
    + unfold roleOf. rewrite Hty1 by done. exact Hrole.
Qed.

End Synchronisation.

Section SynchronisationTheorem.

(** After a propagation that runs to its end, every call site of the
    procedure and its prototype serialise to the new mutation: the call
    sites to its procCode, argument ids and warp, the prototype in addition
    to its argument names and defaults. *)
Theorem propagation_synchronises name m d p ws :
  findDefineBlock ws name (topBlocks ws) = Return (Some d) →
  getInput ws d "custom_block" ≫= targetBlock = Some p →
  roleOf ws p = Some Prototype →
  is_Some (displayNames_ (getBlock ws p)) →
  is_Some (argumentnames m) →
  applicable m →
  NoDup (getCallers name ws d true) →
  ∃ ws',
    mutateCallersAndPrototype name m ws = (ws', Return tt)
    ∧ (∀ c, c ∈ getCallers name ws d true →
         callerMutationToDom ws' c
         = {| generateshadows := None; proccode := proccode m;
              argumentids := argumentids m; argumentnames := None;
              argumentdefaults := None; warp := warp m |})
    ∧ definitionMutationToDom ws' p false
      = {| generateshadows := None; proccode := proccode m;
           argumentids := argumentids m; argumentnames := argumentnames m;
           argumentdefaults := argumentdefaults m; warp := warp m |}.
Proof.
  intros Hd Hp Hrole Hprev Hnames Happ Hnd.
  set (callers := getCallers name ws d true ++ [p]).
  assert (Hmut : ∀ c, c ∈ callers → mutable m (setGroup true ws) c).
  { intros c [Hc| ->%list_elem_of_singleton]%elem_of_app.
    - exists Call. split; [by apply (getCallers_role name ws d true)|]. done.
    - exists Prototype. done. }
  assert (Hnd' : NoDup callers).
  { apply NoDup_app. split_and!; [done| |apply NoDup_singleton].
    intros c Hc ->%list_elem_of_singleton.
    apply getCallers_role in Hc. congruence. }
  destruct (mutateCallers_loop m callers (setGroup true ws) Hnd' Happ Hmut)
    as (ws1 & Hrun & _).
  pose proof (mutateCallers_loop_state m callers (setGroup true ws) ws1 Hnd' Happ Hmut Hrun)
    as Hstate.
  exists (setGroup false ws1). split_and!.
  - unfold mutateCallersAndPrototype, getPrototypeBlock.
    rewrite bind_run. unfold getDefineBlock at 1. cbv beta iota. rewrite Hd.
    rewrite bind_assoc_run, bind_run. unfold getDefineBlock at 1. cbv beta iota.
    rewrite Hd. rewrite gets_then, Hp, gets_then.
    unfold Events_setGroup. rewrite modify_then. fold callers.
    by rewrite (bind_return _ _ _ _ _ Hrun).
  - intros c Hc.
    specialize (Hstate c Call ltac:(apply elem_of_app; by left)
                  (getCallers_role name ws d true c Hc)).
    unfold callerMutationToDom.
    change (getBlock (setGroup false ws1) c) with (getBlock ws1 c).
    unfold mutationState in Hstate. cbn in Hstate.
    by injection Hstate as -> -> _ _ -> _.
  - specialize (Hstate p Prototype ltac:(apply elem_of_app; right; by left) Hrole).
    unfold definitionMutationToDom.
    change (getBlock (setGroup false ws1) p) with (getBlock ws1 p).
    unfold mutationState in Hstate. cbn in Hstate.
    by injection Hstate as -> -> -> -> -> _.
Qed.

Lemma propagation_synchronises_witness :
  let m := Sample.mutation "jump %s %b" ["a1"; "a2"] (Some ["height"; "twice"]) None in
  ∃ ws',
    mutateCallersAndPrototype "hop %s %b" m hopProgram = (ws', Return tt)
    ∧ (∀ c, c ∈ getCallers "hop %s %b" hopProgram 0 true →
         callerMutationToDom ws' c
         = {| generateshadows := None; proccode := proccode m;
              argumentids := argumentids m; argumentnames := None;
              argumentdefaults := None; warp := warp m |})
    ∧ definitionMutationToDom ws' 1 false
      = {| generateshadows := None; proccode := proccode m;
           argumentids := argumentids m; argumentnames := argumentnames m;
           argumentdefaults := argumentdefaults m; warp := warp m |}.
Proof.
  intros m.
  apply (propagation_synchronises "hop %s %b" m 0 1 hopProgram).
  - reflexivity.
  - reflexivity.
  - reflexivity.
  - by eexists.
  - by eexists.
  - unfold applicable. split_and!.
    + reflexivity.
    + vm_compute. lia.
    + apply (bool_decide_unpack _). by vm_compute.
    + apply (bool_decide_unpack _). by vm_compute.
  - apply (bool_decide_unpack _). by vm_compute.
Defined.

End SynchronisationTheorem.

(** ** C8: change notifications during propagation *)

Section Notifications.

(** The record a block of the given role serialises to once the mutation
    [m] has been applied to it. *)
Definition projected (role : Role) (m : MutationDom) : MutationDom :=
  match role with
  | Call =>
      {| generateshadows := None; proccode := proccode m;
         argumentids := argumentids m; argumentnames := None;
         argumentdefaults := None; warp := warp m |}
  | Prototype | Declaration =>
      {| generateshadows := None; proccode := proccode m;
         argumentids := argumentids m; argumentnames := argumentnames m;
         argumentdefaults := argumentdefaults m; warp := warp m |}
  end.

(** The notification due for [c] when [m] is applied in [ws]: none if [c]
    already serialises to what [m] makes of it. *)
Definition announcement (ws : Workspace) (m : MutationDom) (c : BlockRef) : list Event :=
  match roleOf ws c with
  | Some role =>
      if bool_decide (serialized ws c ≠ projected role m)
      then [BLOCK_CHANGE c "mutation" (serialized ws c) (projected role m)]
      else []
  | None => []
  end.

Lemma serialized_assigned role m ws c blk :
  roleOf ws c = Some role →
  mutationState (getBlock ws c) = mutationState (assign role m blk) →
  serialized ws c = projected role m.
Proof.
  intros Hrole Hm. unfold serialized. rewrite Hrole.
  unfold callerMutationToDom, definitionMutationToDom, mutationState in *.
  destruct role; cbn in Hm; injection Hm as H1 H2 H3 H4 H5 _; cbn.
  all: by rewrite ?H1, ?H2, ?H3, ?H4, ?H5.
Qed.

Lemma announcement_elem ws m cs c old new :
  BLOCK_CHANGE c "mutation" old new ∈ flat_map (announcement ws m) cs ↔
  c ∈ cs ∧ ∃ role, roleOf ws c = Some role ∧ serialized ws c ≠ projected role m
    ∧ old = serialized ws c ∧ new = projected role m.
Proof.
  rewrite list_elem_of_In, in_flat_map. unfold announcement. split.
  - intros (c' & Hc' & He). apply list_elem_of_In in Hc'.
    destruct (roleOf ws c') as [role|] eqn:Hrole; [|by apply List.in_nil in He].
    case_bool_decide as Hd; [|by apply List.in_nil in He].
    destruct He as [He|[]]. injection He as -> <- <-. split; [done|]. by exists role.
  - intros (Hc & role & Hrole & Hd & -> & ->). exists c.
    rewrite <- list_elem_of_In. split; [done|].
    rewrite Hrole, bool_decide_eq_true_2 by done. by left.
Qed.

(** One turn of the loop, with events enabled: the block serialises to
    what [m] makes of it, and is notified of if that is a change. *)
Lemma mutateCaller_events role c m ws :
  roleOf ws c = Some role →
  (role ≠ Call → is_Some (argumentnames m)) →
  (role = Prototype → is_Some (displayNames_ (getBlock ws c))) →
  applicable m → disabled ws = 0 →
  ∃ ws', mutateCaller m c ws = (ws', Return tt)
    ∧ unrelated [c] ws ws'
    ∧ disabled ws' = 0
    ∧ roleOf ws' c = Some role
    ∧ serialized ws' c = projected role m
    ∧ changeEvents (fired ws') = changeEvents (fired ws) ++ announcement ws m c.
Proof.
  intros Hrole Hnames Hprev Happ Hen.
  assert (Hdomc : c ∈ dom (blockDB ws)).
  { apply (mutable_in_dom m). by exists role. }
  destruct (mutateCaller_run c m ws) as (ws' & Hrun & Hun & ws1 & Hrun1 & Hser & Hws');
    [by exists role|done|].
  destruct (domToMutation_applies role c m ws Hrole Happ Hnames Hprev)
    as (ws1' & Hrun1' & Hframe).
  assert (ws1' = ws1) as -> by congruence.
  pose proof (es_domToMutation c m ws) as [Hd1 _]. rewrite Hrun1 in Hd1. cbn [fst] in Hd1.
  pose proof (es_mutateCaller m c ws) as [Hd' _]. rewrite Hrun in Hd'. cbn [fst] in Hd'.
  assert (Hrole' : roleOf ws' c = Some role).
  { destruct Hun as (_ & Hty & _). unfold roleOf. by rewrite Hty. }
  assert (Hrole1 : roleOf ws1 c = Some role).
  { rewrite (frame_roleOf _ _ c Hframe).
    - unfold roleOf. rewrite getBlock_updateBlock_eq.
      unfold roleOf in Hrole. by destruct role.
    - rewrite dom_updateBlock. set_solver. }
  assert (Hnew : serialized ws1 c = projected role m).
  { apply (serialized_assigned role m ws1 c (getBlock ws c)); [done|].
    by rewrite (frame_mutation _ _ Hframe), getBlock_updateBlock_eq. }
  assert (Hev1 : changeEvents (fired ws1) = changeEvents (fired ws)).
  { by rewrite (frame_events _ _ Hframe). }
  exists ws'. split_and!; [done|done|congruence|done|congruence|].
  rewrite Hws', Hnew. clear Hws'. unfold announcement. rewrite Hrole.
  case_bool_decide as Hdiff; [|by rewrite app_nil_r, Hev1].
  unfold Events_fire, modify. cbn [fst].
  rewrite bool_decide_eq_true_2 by congruence.
  cbn [fired setFired]. unfold changeEvents in *.
  by rewrite List.filter_app, Hev1.
Qed.

Lemma announcement_unrelated cs ws ws' m c :
  unrelated cs ws ws' → c ∉ cs → c ∈ dom (blockDB ws) →
  announcement ws' m c = announcement ws m c.
Proof.
  intros Hun Hc Hdom. unfold announcement.
  rewrite (serialized_unrelated cs ws ws' c) by done.
  destruct Hun as (_ & Hty & _). unfold roleOf. by rewrite Hty.
Qed.

(** The loop over pairwise distinct blocks, with events enabled. *)
Lemma mutateCallers_loop_events m cs : ∀ ws,
  NoDup cs → applicable m → (∀ c, c ∈ cs → mutable m ws c) → disabled ws = 0 →
  ∃ ws', forEach (mutateCaller m) cs ws = (ws', Return tt)
    ∧ changeEvents (fired ws') = changeEvents (fired ws) ++ flat_map (announcement ws m) cs.
Proof.
  induction cs as [|c cs IH]; intros ws Hnd Happ Hmut Hen.
  { exists ws. split; [done|]. by rewrite app_nil_r. }
  apply NoDup_cons in Hnd as [Hc Hnd].
  destruct (Hmut c) as (role & Hrole & Hnames & Hprev); [left|].
  destruct (mutateCaller_events role c m ws Hrole Hnames Hprev Happ Hen)
    as (ws1 & Hrun1 & Hun1 & Hen1 & _ & _ & Hev1).
  assert (Hc1 : ∀ c', c' ∈ cs → c' ∉ [c]).
  { intros c' Hc' ->%list_elem_of_singleton. done. }
  destruct (IH ws1) as (ws' & Hrun & Hev); [done|done| |done|].
  { intros c' Hc'. apply (mutable_unrelated m [c] ws); [done|by apply Hc1|].
    apply Hmut. by right. }
  exists ws'. split.
  - unfold forEach. cbn [forOf]. by rewrite (bind_return _ _ _ _ _ Hrun1).
  - rewrite Hev, Hev1, <- app_assoc. f_equal. cbn [flat_map]. f_equal.
    apply flat_map_ext_elem. intros c' Hc'.
    apply (announcement_unrelated [c]); [done|by apply Hc1|].
    apply (mutable_in_dom m), Hmut. by right.
Qed.

(** C8 fails as stated, in two ways.  When applying the mutation to a block
    throws (here "%x" on the call block 4), the block's serialized mutation
    has already changed, and no notification is emitted for it.  And while
    events are disabled a propagation that runs to its end changes the
    serialized mutation of the call block without any notification. *)
Lemma C8_counterexample :
  let bad := Sample.mutation "%x" [] (Some []) None in
  let failed := mutateCallersAndPrototype "hop %s %b" bad hopProgram in
  let m := Sample.mutation "jump %s %b" ["a1"; "a2"] (Some ["height"; "twice"]) None in
  let silent := mutateCallersAndPrototype "hop %s %b" m (setDisabled 1 hopProgram) in
  failed.2 = Throw (invalidTypeMessage "x")
  ∧ (mutationToDom 4 hopProgram).2 ≠ (mutationToDom 4 failed.1).2
  ∧ fired failed.1 = []
  ∧ silent.2 = Return tt
  ∧ (mutationToDom 4 hopProgram).2 ≠ (mutationToDom 4 silent.1).2
  ∧ fired silent.1 = [].
Proof. vm_compute. split_and!; try done; discriminate. Qed.

(** Claim C8, amended.  [mutateCallersAndPrototype] is run with events
    enabled for a procedure whose definition and prototype are found, with
    a mutation the display can be rebuilt from (it parses, and every
    marker has a non-empty id of its own) that carries display names, the
    call sites found being pairwise distinct.  Then the propagation runs
    to its end; afterwards every call site and the prototype serialise to
    what the mutation makes of them; and the mutation-change notifications
    fired are, in order, one for each call site and then the prototype
    that did not serialise to that before, carrying the old and the new
    record: a block is notified of if and only if it is one of these
    blocks and its serialized mutation has changed. *)
Theorem C8_change_notifications name m d p ws :
  let callers := getCallers name ws d true ++ [p] in
  findDefineBlock ws name (topBlocks ws) = Return (Some d) →
  getInput ws d "custom_block" ≫= targetBlock = Some p →
  roleOf ws p = Some Prototype →
  is_Some (displayNames_ (getBlock ws p)) →
  is_Some (argumentnames m) →
  applicable m →
  NoDup (getCallers name ws d true) →
  disabled ws = 0 →
  ∃ ws' news,
    mutateCallersAndPrototype name m ws = (ws', Return tt)
    ∧ (∀ c role, c ∈ callers → roleOf ws c = Some role →
         (mutationToDom c ws').2 = Return (projected role m))
    ∧ changeEvents (fired ws') = changeEvents (fired ws) ++ news
    ∧ news = flat_map (announcement ws m) callers
    ∧ (∀ c, c ∈ callers →
         (∃ old new, BLOCK_CHANGE c "mutation" old new ∈ news)
         ↔ (mutationToDom c ws).2 ≠ (mutationToDom c ws').2)
    ∧ (∀ c old new, BLOCK_CHANGE c "mutation" old new ∈ news →
         c ∈ callers
         ∧ (mutationToDom c ws).2 = Return old
         ∧ (mutationToDom c ws').2 = Return new).
Proof.
  intros callers Hd Hp Hrole Hprev Hnames Happ Hnd Hen.
  assert (Hmut : ∀ c, c ∈ callers → mutable m (setGroup true ws) c).
  { intros c [Hc| ->%list_elem_of_singleton]%elem_of_app.
    - exists Call. split; [by apply (getCallers_role name ws d true)|]. done.
    - exists Prototype. done. }
  assert (Hnd' : NoDup callers).
  { apply NoDup_app. split_and!; [done| |apply NoDup_singleton].
    intros c Hc ->%list_elem_of_singleton.
    apply getCallers_role in Hc. congruence. }
  destruct (mutateCallers_loop_events m callers (setGroup true ws) Hnd' Happ Hmut Hen)
    as (ws1 & Hrun & Hev).
  destruct (mutateCallers_loop m callers (setGroup true ws) Hnd' Happ Hmut)
    as (ws1' & Hrun' & Hun).
  assert (ws1' = ws1) as -> by congruence.
  pose proof (mutateCallers_loop_state m callers (setGroup true ws) ws1 Hnd' Happ Hmut Hrun)
    as Hstate.
  assert (Hafter : ∀ c role, c ∈ callers → roleOf ws c = Some role →
            roleOf ws1 c = Some role ∧ serialized ws1 c = projected role m).
  { intros c role Hc Hr.
    assert (roleOf ws1 c = Some role) as Hr1.
    { destruct Hun as (_ & Hty & _). unfold roleOf. rewrite Hty; [done|].
      by apply (mutable_in_dom m), Hmut. }
    split; [done|].
    apply (serialized_assigned role m ws1 c (getBlock ws c)); [done|].
    by apply Hstate. }
  assert (Hser : ∀ c, c ∈ callers → ∃ role,
            roleOf ws c = Some role
            ∧ (mutationToDom c ws).2 = Return (serialized ws c)
            ∧ (mutationToDom c (setGroup false ws1)).2 = Return (projected role m)).
  { intros c Hc. destruct (Hmut c Hc) as (role & Hr & _).
    destruct (Hafter c role Hc Hr) as [Hr1 Hs1]. exists role.
    rewrite !mutationToDom_run; [|by exists role..].
    split_and!; [done|done|]. cbn [snd]. f_equal. exact Hs1. }
  exists (setGroup false ws1), (flat_map (announcement ws m) callers).
  split_and!.
  - unfold mutateCallersAndPrototype, getPrototypeBlock.
    rewrite bind_run. unfold getDefineBlock at 1. cbv beta iota. rewrite Hd.
    rewrite bind_assoc_run, bind_run. unfold getDefineBlock at 1. cbv beta iota.
    rewrite Hd. rewrite gets_then, Hp, gets_then.
    unfold Events_setGroup. rewrite modify_then. fold callers.
    by rewrite (bind_return _ _ _ _ _ Hrun).
  - intros c role Hc Hr. destruct (Hser c Hc) as (role' & Hr' & _ & Hnew).
    congruence.
  - exact Hev.
  - done.
  - intros c Hc. destruct (Hser c Hc) as (role & Hr & -> & ->). split.
    + intros (old & new & (_ & role' & Hr' & Hne & _)%announcement_elem).
      assert (role' = role) as -> by congruence. congruence.
    + intros Hne. eexists _, _. apply announcement_elem.
      split; [done|]. exists role. split_and!; [done| |done..]. congruence.
  - intros c old new (Hc & role & Hr & _ & -> & ->)%announcement_elem.
    split; [done|]. destruct (Hser c Hc) as (role' & Hr' & Hold & Hnew).
    assert (role' = role) as -> by congruence. done.
Qed.

(** On the workspace [hopProgram] the propagation of "jump %s %b" notifies
    of the call block 4 and then of the prototype 1. *)
Lemma C8_change_notifications_witness :
  let m := Sample.mutation "jump %s %b" ["a1"; "a2"] (Some ["height"; "twice"]) None in
  ∃ ws',
    mutateCallersAndPrototype "hop %s %b" m hopProgram = (ws', Return tt)
    ∧ (mutationToDom 4 ws').2 = Return (projected Call m)
    ∧ changeEvents (fired ws')
      = [ BLOCK_CHANGE 4 "mutation" (serialized hopProgram 4) (projected Call m);
          BLOCK_CHANGE 1 "mutation" (serialized hopProgram 1) (projected Prototype m) ].
Proof.
  intros m.
  destruct (C8_change_notifications "hop %s %b" m 0 1 hopProgram)
    as (ws' & news & Hrun & Hafter & Hev & Hnews & _).
  - reflexivity.
  - reflexivity.
  - reflexivity.
  - by eexists.
  - by eexists.
  - unfold applicable. split_and!.
    + reflexivity.
    + vm_compute. lia.
    + apply (bool_decide_unpack _). by vm_compute.
    + apply (bool_decide_unpack _). by vm_compute.
  - apply (bool_decide_unpack _). by vm_compute.
  - reflexivity.
  - exists ws'. split_and!; [done| |].
    + apply Hafter; [|reflexivity]. apply (bool_decide_unpack _). by vm_compute.
    + rewrite Hev, Hnews. by vm_compute.
Defined.

End Notifications.

(** ** The reporter in a slot of a prototype *)

Section PrototypeSlots.

(** The block type [createArgumentReporter_] gives a reporter of kind
    [ty]. *)
Definition argumentReporterType (ty : ArgumentType) : string :=
  match ty with
  | NUMBER | STRING => "argument_reporter_string_number"
  | BOOLEAN => "argument_reporter_boolean"
  end.

Lemma checkOldTypeMatches_reporter ws old ty :
  checkOldTypeMatches_ ws (Some old) ty = true →
  type (getBlock ws old) = argumentReporterType ty.
Proof.
  unfold checkOldTypeMatches_. destruct ty; cbn.
  all: repeat case_bool_decide; try done.
Qed.

Lemma createArgumentReporter_run ty displayName ws :
  ∃ ws',
    createArgumentReporter_ ty displayName ws = (ws', Return (freshRef ws))
    ∧ (∀ b, b ≠ freshRef ws → getBlock ws' b = getBlock ws b)
    ∧ type (getBlock ws' (freshRef ws)) = argumentReporterType ty
    ∧ isShadow (getBlock ws' (freshRef ws)) = true
    ∧ (∀ v, displayName = Some v → getFieldValue ws' (freshRef ws) "VALUE" = Some v).
Proof.
  unfold createArgumentReporter_.
  rewrite Events_disable_then, newBlock_then.
  change (freshRef (setDisabled (S (disabled ws)) ws)) with (freshRef ws).
  unfold modify at 1. rewrite bind_run. cbv beta iota.
  destruct displayName as [v|].
  - rewrite setFieldValue_then, Events_enable_then, fireCreateIfEnabled_then.
    eexists. split; [reflexivity|]. unfold getFieldValue. split_and!.
    + intros b Hb.
      rewrite getBlock_fireCreateState, getBlock_setDisabled.
      rewrite !getBlock_updateBlock_ne by done.
      by rewrite getBlock_addBlock, decide_False.
    + rewrite getBlock_fireCreateState, getBlock_setDisabled.
      rewrite !getBlock_updateBlock_eq, getBlock_addBlock, decide_True by done.
      by destruct ty.
    + rewrite getBlock_fireCreateState, getBlock_setDisabled.
      by rewrite !getBlock_updateBlock_eq.
    + intros ? [= <-].
      rewrite getBlock_fireCreateState, getBlock_setDisabled.
      rewrite !getBlock_updateBlock_eq. cbn. by rewrite lookup_insert_eq.
  - unfold setFieldValue. rewrite ret_then, Events_enable_then, fireCreateIfEnabled_then.
    eexists. split; [reflexivity|]. split_and!.
    + intros b Hb.
      rewrite getBlock_fireCreateState, getBlock_setDisabled.
      rewrite !getBlock_updateBlock_ne by done.
      by rewrite getBlock_addBlock, decide_False.
    + rewrite getBlock_fireCreateState, getBlock_setDisabled.
      rewrite !getBlock_updateBlock_eq, getBlock_addBlock, decide_True by done.
      by destruct ty.
    + rewrite getBlock_fireCreateState, getBlock_setDisabled.
      by rewrite !getBlock_updateBlock_eq.
    + done.
Qed.

(** [connect] changes the inputs of the parent and the parent of the
    child, nothing else of a block. *)
Lemma getBlock_connectState self idx child ws b :
  type (getBlock (connectState self idx child ws) b) = type (getBlock ws b)
  ∧ fields (getBlock (connectState self idx child ws) b) = fields (getBlock ws b)
  ∧ isShadow (getBlock (connectState self idx child ws) b) = isShadow (getBlock ws b).
Proof.
  unfold connectState, updateInput. rewrite getBlock_setTopBlocks.
  rewrite !getBlock_updateBlock. by repeat case_decide; subst.
Qed.

End PrototypeSlots.

Section PrototypeSlotTheorem.

(** [populateArgumentOnPrototype_] always leaves a reporter of the slot's
    kind in the slot, with the block as its parent and labelled with the
    display name of the slot (when there is one): the saved block if
    [checkOldTypeMatches_] accepts it, a new shadow reporter otherwise. *)
Theorem prototype_slot_reporter self ty index cm id input names ws :
  input < List.length (inputList (getBlock ws self)) →
  displayNames_ (getBlock ws self) = Some names →
  cmGet id cm ≠ Some None →
  ∃ ws' cm' r,
    populateArgumentOnPrototype_ self ty index cm id input ws = (ws', Return cm')
    ∧ targetBlock <$> inputList (getBlock ws' self) !! input = Some (Some r)
    ∧ type (getBlock ws' r) = argumentReporterType ty
    ∧ parentBlock_ (getBlock ws' r) = Some self
    ∧ (∀ v, names !! index = Some v → getFieldValue ws' r "VALUE" = Some v)
    ∧ (if checkOldTypeMatches_ ws (savedBlock cm id) ty
       then savedBlock cm id = Some r ∧ cm' = cmSet id None cm
       else r = freshRef ws ∧ isShadow (getBlock ws' r) = true ∧ cm' = cm).
Proof.
  intros Hin Hnames Hnull.
  pose proof (in_dom_of_inputs _ _ _ Hin) as Hdom.
  assert (Hself : freshRef ws ≠ self) by by apply freshRef_ne.
  destruct (lookup_lt_is_Some_2 _ _ Hin) as [i Hi].
  destruct (savedConnection_run cm id ws Hnull) as [sh Hsc].
  unfold populateArgumentOnPrototype_. rewrite (bind_return _ _ _ _ _ Hsc).
  cbv beta iota. rewrite gets_then.
  rewrite (bind_return _ _ _ _ _ (displayNameAt_run self index ws names Hnames)).
  assert (Hnew : checkOldTypeMatches_ ws (savedBlock cm id) ty = false →
    ∃ ws' r,
      ((createArgumentReporter_ ty (names !! index) ≫= λ r, ret (r, cm))
         ≫= λ '(argumentReporter, connectionMap),
              connect self input argumentReporter ≫= λ _, ret connectionMap) ws
      = (ws', Return cm)
      ∧ targetBlock <$> inputList (getBlock ws' self) !! input = Some (Some r)
      ∧ type (getBlock ws' r) = argumentReporterType ty
      ∧ parentBlock_ (getBlock ws' r) = Some self
      ∧ (∀ v, names !! index = Some v → getFieldValue ws' r "VALUE" = Some v)
      ∧ r = freshRef ws ∧ isShadow (getBlock ws' r) = true).
  { intros _.
    destruct (createArgumentReporter_run ty (names !! index) ws)
      as (ws1 & Hrun & Hother & Htype & Hshadow & Hvalue).
    rewrite bind_run, (bind_return _ _ _ _ _ Hrun).
    change (ret (freshRef ws, cm) ws1) with (ws1, Return (freshRef ws, cm)).
    cbv beta iota. rewrite connect_then.
    eexists _, (freshRef ws). split; [reflexivity|].
    destruct (getBlock_connectState self input (freshRef ws) ws1 (freshRef ws))
      as (Ht & Hf & Hs).
    split_and!; try done.
    - rewrite inputList_connectState, list_lookup_alter, decide_True by done.
      rewrite Hother by done. by rewrite Hi.
    - by rewrite Ht.
    - apply parent_connectState.
    - intros v Hv. unfold getFieldValue. rewrite Hf. by apply Hvalue.
    - by rewrite Hs. }
  destruct (savedBlock cm id) as [old|] eqn:Hsaved.
  2:{ destruct Hnew as (ws' & r & Hrun & H1 & H2 & H3 & H4 & H5 & H6); [done|].
      exists ws', cm, r. by rewrite Hrun. }
  destruct (checkOldTypeMatches_ ws (Some old) ty) eqn:Hmatch.
  2:{ destruct Hnew as (ws' & r & Hrun & H1 & H2 & H3 & H4 & H5 & H6); [done|].
      exists ws', cm, r. by rewrite Hrun. }
  clear Hnew. apply checkOldTypeMatches_reporter in Hmatch.
  assert (Hlabel : ∃ ws1,
    setFieldValue old (names !! index) "VALUE" ws = (ws1, Return tt)
    ∧ inputList (getBlock ws1 self) = inputList (getBlock ws self)
    ∧ type (getBlock ws1 old) = type (getBlock ws old)
    ∧ ∀ v, names !! index = Some v → getFieldValue ws1 old "VALUE" = Some v).
  { destruct (names !! index) as [v|]; [|by exists ws].
    eexists. split; [reflexivity|]. unfold getFieldValue. split_and!.
    - rewrite getBlock_updateBlock. by case_decide; subst.
    - by rewrite getBlock_updateBlock_eq.
    - intros ? [= <-]. rewrite getBlock_updateBlock_eq. cbn.
      by rewrite lookup_insert_eq. }
  destruct Hlabel as (ws1 & Hrun & Hinputs & Htype & Hvalue).
  rewrite bind_run, (bind_return _ _ _ _ _ Hrun).
  change (ret (old, cmSet id None cm) ws1) with (ws1, Return (old, cmSet id None cm)).
  cbv beta iota. rewrite connect_then.
  destruct (getBlock_connectState self input old ws1 old) as (Ht & Hf & Hs).
  eexists _, _, old. split; [reflexivity|]. split_and!; try done.
  - rewrite inputList_connectState, list_lookup_alter, decide_True by done.
    by rewrite Hinputs, Hi.
  - by rewrite Ht, Htype.
  - apply parent_connectState.
  - intros v Hv. unfold getFieldValue. rewrite Hf. by apply Hvalue.
Qed.

Lemma prototype_slot_reporter_witness :
  let cm := connectionMapOf (inputList (getBlock hopPrototype 1)) in
  ∃ ws' cm' r,
    populateArgumentOnPrototype_ 1 STRING 0 cm "a1" 1 hopPrototype = (ws', Return cm')
    ∧ targetBlock <$> inputList (getBlock ws' 1) !! 1 = Some (Some r)
    ∧ type (getBlock ws' r) = argumentReporterType STRING
    ∧ parentBlock_ (getBlock ws' r) = Some 1
    ∧ (∀ v, ["height"; "twice"] !! 0 = Some v → getFieldValue ws' r "VALUE" = Some v)
    ∧ (if checkOldTypeMatches_ hopPrototype (savedBlock cm "a1") STRING
       then savedBlock cm "a1" = Some r ∧ cm' = cmSet "a1" None cm
       else r = freshRef hopPrototype ∧ isShadow (getBlock ws' r) = true ∧ cm' = cm).
Proof.
  intros cm.
  apply (prototype_slot_reporter 1 STRING 0 cm "a1" 1 ["height"; "twice"] hopPrototype).
  - vm_compute. lia.
  - reflexivity.
  - discriminate.
Defined.

End PrototypeSlotTheorem.

(** ** More argument markers than ids *)

Section TooFewIds.


(** The component that holds the marker number [n]. *)
Lemma components_marker comps : ∀ n,
  n < List.length (componentTypes comps) →
  ∃ pre comp post ty labelText,
    comps = pre ++ comp :: post
    ∧ List.length (componentTypes pre) = n
    ∧ parseComponent comp = Argument ty labelText.
Proof.
  induction comps as [|comp comps IH]; intros n Hn; [cbn in Hn; lia|].
  rewrite componentTypes_cons in Hn.
  destruct (parseComponent comp) as [text|ty labelText|bad] eqn:Hparse; cbn in Hn.
  - destruct (IH n Hn) as (pre & c & post & ty & lbl & -> & Hlen & Hc).
    exists (comp :: pre), c, post, ty, lbl. split_and!; [done| |done].
    by rewrite componentTypes_cons, Hparse.
  - destruct n as [|n].
    + by exists [], comp, comps, ty, labelText.
    + destruct (IH n ltac:(lia)) as (pre & c & post & ty' & lbl & -> & Hlen & Hc).
      exists (comp :: pre), c, post, ty', lbl. split_and!; [done| |done].
      rewrite componentTypes_cons, Hparse. cbn. by rewrite Hlen.
  - destruct (IH n Hn) as (pre & c & post & ty & lbl & -> & Hlen & Hc).
    exists (comp :: pre), c, post, ty, lbl. split_and!; [done| |done].
    by rewrite componentTypes_cons, Hparse.
Qed.

(** A procCode with more argument markers than the block has ids: the
    rebuild creates a value input for every id and then throws at the first
    marker without id, after the old inputs were removed.  Unless the
    block is a call block that generates shadows and had a shadow
    attached, no block that existed is disposed. *)
Theorem updateDisplay_too_few_ids role self ws :
  let b := getBlock ws self in
  roleOf ws self = Some role →
  (role ≠ Call → is_Some (displayNames_ b)) →
  parses (procCode_ b) →
  List.length (argumentIds_ b) < List.length (argumentTypesOf (procCode_ b)) →
  Forall (λ id, id ≠ "") (argumentIds_ b) → NoDup (argumentIds_ b) →
  noShadowReplaced role (generateShadows_ b) ws self →
  ∃ ws' e,
    updateDisplay_ self ws = (ws', Throw e)
    ∧ valueNames (inputList (getBlock ws' self)) = argumentIds_ b
    ∧ quiet ws ws'.
Proof.
  intros b Hrole Hnames Hparses Hlen Hne Hnd _. subst b.
  assert (Hdom : self ∈ dom (blockDB ws)).
  { apply type_in_dom. intros Hty. unfold roleOf in Hrole. by rewrite Hty in Hrole. }
  destruct (disconnectOldBlocks_spec self ws) as (ws1 & Hrun1 & Hq1 & _ & _).
  set (cm0 := connectionMapOf (inputList (getBlock ws self))) in *.
  unfold updateDisplay_. rewrite (bind_return _ _ _ _ _ Hrun1).
  unfold removeAllInputs_. rewrite modify_then.
  set (ws2 := updateBlock self (setInputList []) ws1).
  assert (Hq12 : quiet ws1 ws2) by (apply quiet_updateBlock; by intros []).
  assert (Hq2 : quiet ws ws2) by by transitivity ws1.
  assert (Hf2 := quiet_frame _ _ Hq2).
  assert (Hin2 : inputList (getBlock ws2 self) = []).
  { unfold ws2. by rewrite getBlock_updateBlock_eq. }
  assert (Hids : argumentIds_ (getBlock ws2 self) = argumentIds_ (getBlock ws self))
    by by apply frame_argumentIds.
  assert (Hcode : procCode_ (getBlock ws2 self) = procCode_ (getBlock ws self))
    by by apply frame_procCode.
  rewrite argumentTypesOf_components in Hlen.
  destruct (components_marker _ _ Hlen) as (pre & comp & post & ty & lbl & Hcomps & Hpre & Hcomp).
  pose proof (parses_components _ Hparses) as Hvalid. rewrite Hcomps in Hvalid.
  apply Forall_app in Hvalid as [Hvalid _].
  unfold createAllInputs_. rewrite bind_assoc_run, gets_then, Hcode, Hcomps.
  destruct (createInputs_fold role self pre 0 cm0 ws2) as (ws3 & cm' & Hrun3 & Hq3 & _ & Hadd & _).
  { by rewrite (frame_roleOf ws ws2). }
  { by apply (frame_in_dom ws). }
  { intros Hr. rewrite (frame_displayNames ws ws2) by done. auto. }
  { done. }
  { rewrite Hids, drop_0, Hpre, length_take. lia. }
  { rewrite Hids, drop_0, Hpre, take_ge by lia. done. }
  { rewrite Hids, drop_0, Hpre, take_ge by lia. done. }
  { apply Forall_forall. intros id _. apply saved_not_null. done. }
  rewrite Hids, drop_0, Hpre, take_ge in Hadd by lia.
  destruct Hadd as (added & Hadded & Hvn & _).
  assert (Hids3 : argumentIds_ (getBlock ws3 self) = argumentIds_ (getBlock ws self)).
  { by rewrite (frame_argumentIds ws2 ws3) by apply Hq3. }
  rewrite !bind_run, forOf_app, Hrun3, Hpre. cbn [forOf]. rewrite bind_run.
  rewrite createInput_unfold, Hcomp, gets_then, Hids3.
  unfold JS.index. rewrite (lookup_ge_None_2 _ (0 + List.length _)) by (cbn; lia).
  eexists ws3, _. split; [reflexivity|]. split.
  - by rewrite Hadded, Hin2, app_nil_l.
  - by transitivity ws2.
Qed.

Lemma updateDisplay_too_few_ids_witness :
  let ws := updateBlock 0 (setCallerMutation (Sample.mutation "say %s %b" ["a1"] None None))
              Sample.sayCall in
  ∃ ws' e,
    updateDisplay_ 0 ws = (ws', Throw e)
    ∧ valueNames (inputList (getBlock ws' 0)) = argumentIds_ (getBlock ws 0)
    ∧ quiet ws ws'.
Proof.
  intros ws. apply (updateDisplay_too_few_ids Call 0 ws).
  - reflexivity.
  - done.
  - reflexivity.
  - vm_compute. lia.
  - apply (bool_decide_unpack _). by vm_compute.
  - apply (bool_decide_unpack _). by vm_compute.
  - intros _ _ inp c Hi Ht. vm_compute in Hi.
    repeat (apply elem_of_cons in Hi as [->|Hi]); [..|by apply elem_of_nil in Hi];
      try discriminate Ht; injection Ht as <-; reflexivity.
Defined.

End TooFewIds.

(** ** A blank procCode *)

Section BlankProcCode.

Lemma allWhite_no_marker s : allWhite s = true → argMarkerAhead s = false.
Proof.
  unfold argMarkerAhead. destruct s as [|c [|p [|t s]]]; try done. cbn.
  intros [_ [Hp _]%andb_prop]%andb_prop.
  destruct (Ascii.eqb p "%") eqn:E; [|by rewrite andb_false_r].
  apply Ascii.eqb_eq in E as ->. done.
Qed.

Lemma allWhite_trimStart s : allWhite s = true → JS.trimStart s = "".
Proof.
  induction s as [|c s IH]; [done|]. cbn. intros [-> Hs]%andb_prop. by apply IH.
Qed.

Lemma allWhite_split s : allWhite s = true → splitProcCode s = [s].
Proof.
  induction s as [|c s IH]; [done|]. cbn [allWhite splitProcCode].
  intros [Hc Hs]%andb_prop. by rewrite (allWhite_no_marker s Hs), (IH Hs).
Qed.

Lemma allWhite_components s : allWhite s = true → procComponents s = [""].
Proof.
  intros Hs. unfold procComponents, JS.trim.
  by rewrite (allWhite_split s Hs); cbn; rewrite (allWhite_trimStart s Hs).
Qed.

(** [keepsShape ws ws']: every block has the inputs and the parent it
    had. *)
Definition keepsShape (ws ws' : Workspace) : Prop :=
  ∀ x, inputList (getBlock ws' x) = inputList (getBlock ws x)
       ∧ parentBlock_ (getBlock ws' x) = parentBlock_ (getBlock ws x).

Lemma keepsShape_marking ds ws :
  keepsShape ws (foldr (λ d w, updateBlock d setDisposed w) ws ds).
Proof.
  induction ds as [|d ds IH]; [done|]. intros x. cbn [foldr].
  rewrite getBlock_updateBlock. destruct (IH x) as [Hi Hp].
  case_decide; subst; cbn; by rewrite ?Hi, ?Hp.
Qed.

Lemma dispose_orphan b ws :
  parentBlock_ (getBlock ws b) = None → keepsShape ws (disposeState b ws).
Proof.
  intros Hp x. unfold disposeState, unplug. rewrite Hp, getBlock_setTopBlocks.
  apply keepsShape_marking.
Qed.

(** Disposing of saved blocks that are attached nowhere changes no input
    list and no parent. *)
Lemma deleteShadows_orphans cm : ∀ ws,
  (∀ k info b, (k, Some info) ∈ cm → block info = Some b →
     parentBlock_ (getBlock ws b) = None) →
  ∃ ws', deleteShadows_ cm ws = (ws', Return tt) ∧ keepsShape ws ws'.
Proof.
  unfold deleteShadows_, forEach.
  induction cm as [|[k v] cm IH]; intros ws Horphan; [by exists ws|].
  cbn [forOf]. rewrite bind_run.
  assert (∃ ws1, deleteShadow (k, v) ws = (ws1, Return tt) ∧ keepsShape ws ws1)
    as (ws1 & -> & Hshape).
  { unfold deleteShadow. cbn [snd]. destruct v as [info|]; [|by exists ws].
    destruct (block info) as [b|] eqn:Hb; [|by exists ws].
    rewrite gets_then. destruct (isShadow (getBlock ws b)); [|by exists ws].
    eexists. split; [reflexivity|]. apply dispose_orphan.
    apply (Horphan k info); [left|done]. }
  destruct (IH ws1) as (ws' & Hrun & Hshape').
  { intros k' info b Hin Hb. destruct (Hshape b) as [_ ->].
    apply (Horphan k' info); [by right|done]. }
  exists ws'. split; [done|]. intros x.
  destruct (Hshape x) as [Hi Hp], (Hshape' x) as [Hi' Hp']. split; congruence.
Qed.

Lemma cmSet_elem k v id v' cm :
  (k, v) ∈ cmSet id v' cm → (k = id ∧ v = v') ∨ (k, v) ∈ cm.
Proof.
  induction cm as [|[k0 v0] cm IH]; cbn.
  - intros [= -> ->]%list_elem_of_singleton. by left.
  - destruct (String.eqb k0 id) eqn:E.
    + apply String.eqb_eq in E as ->.
      intros [[= -> ->]|Hin]%elem_of_cons; [by left|]. right. by right.
    + intros [[= -> ->]|Hin]%elem_of_cons; [right; left|].
      destruct (IH Hin) as [?|?]; [by left|]. right. by right.
Qed.

Lemma saved_entries inputs : ∀ cm k info,
  (k, Some info) ∈ foldl saveInput cm inputs →
  (k, Some info) ∈ cm
  ∨ ∃ input, input ∈ inputs ∧ hasConnection input = true
      ∧ block info = targetBlock input.
Proof.
  induction inputs as [|x inputs IH]; intros cm k info Hin; [by left|].
  cbn [foldl] in Hin. apply IH in Hin as [Hin|(input & Hi & Hc & Hb)].
  - unfold saveInput in Hin. destruct (hasConnection x) eqn:Hc; [|by left].
    apply cmSet_elem in Hin as [[-> [= ->]]|Hin]; [|by left].
    right. exists x. split; [left|done].
  - right. exists input. split; [by right|done].
Qed.

End BlankProcCode.

Section BlankProcCodeTheorem.

(** The input [appendDummyInput().appendField("")] makes: a dummy input
    whose field row is empty, the empty string adding no field. *)
Definition bareRow : Input :=
  {| name := ""; kind := DUMMY; check := None; targetBlock := None;
     shadowDom := None; fieldRow := [] |}.

(** A procedure block whose procCode is empty or blank, as after [init]:
    the rebuild returns, and leaves a call or prototype block with one
    dummy input without any field, and a declaration block with no input
    at all.  Every block that was attached is disconnected. *)
Theorem updateDisplay_blank_procCode role self ws :
  roleOf ws self = Some role →
  allWhite (procCode_ (getBlock ws self)) = true →
  ∃ ws',
    updateDisplay_ self ws = (ws', Return tt)
    ∧ inputList (getBlock ws' self)
      = match role with Declaration => [] | _ => [bareRow] end
    ∧ ∀ input c, input ∈ inputList (getBlock ws self) → hasConnection input = true →
        targetBlock input = Some c → parentBlock_ (getBlock ws' c) = None.
Proof.
  intros Hrole Hblank.
  assert (Hdom : self ∈ dom (blockDB ws)).
  { apply type_in_dom. intros Hty. unfold roleOf in Hrole. by rewrite Hty in Hrole. }
  destruct (disconnectOldBlocks_spec self ws) as (ws1 & Hrun1 & Hq1 & _ & Horphans).
  set (cm0 := connectionMapOf (inputList (getBlock ws self))) in *.
  unfold updateDisplay_. rewrite (bind_return _ _ _ _ _ Hrun1).
  unfold removeAllInputs_. rewrite modify_then.
  set (ws2 := updateBlock self (setInputList []) ws1).
  assert (Hq2 : quiet ws ws2).
  { transitivity ws1; [done|]. apply quiet_updateBlock. by intros []. }
  assert (Hf2 := quiet_frame _ _ Hq2).
  assert (Hparent2 : ∀ x, parentBlock_ (getBlock ws2 x) = parentBlock_ (getBlock ws1 x)).
  { intros x. unfold ws2. rewrite getBlock_updateBlock. by case_decide; subst. }
  assert (Hrole2 : roleOf ws2 self = Some role) by by rewrite (frame_roleOf ws ws2).
  assert (Hcreate : ∃ ws3,
    createAllInputs_ self cm0 ws2 = (ws3, Return cm0)
    ∧ inputList (getBlock ws3 self)
      = match role with Declaration => [] | _ => [bareRow] end
    ∧ ∀ x, parentBlock_ (getBlock ws3 x) = parentBlock_ (getBlock ws2 x)).
  { unfold createAllInputs_. rewrite gets_then.
    rewrite (frame_procCode ws ws2), (allWhite_components _ Hblank) by done.
    cbn [forOf]. rewrite !bind_run, createInput_unfold.
    change (parseComponent "") with (Label "").
    cbv beta iota. change (JS.replaceEscapedPercent "") with "".
    unfold addProcedureLabel_. rewrite bind_run, gets_then, Hrole2.
    assert (Hlabel : ∃ ws3, addLabelField_ self "" ws2 = (ws3, Return tt)
              ∧ inputList (getBlock ws3 self) = [bareRow]
              ∧ ∀ x, parentBlock_ (getBlock ws3 x) = parentBlock_ (getBlock ws2 x)).
    { eexists. split; [reflexivity|]. split.
      - rewrite getBlock_updateBlock_eq. cbn. unfold ws2.
        by rewrite getBlock_updateBlock_eq.
      - intros x. rewrite getBlock_updateBlock. by case_decide; subst. }
    destruct role.
    - destruct Hlabel as (ws3 & -> & Hinputs & Hparents). by exists ws3.
    - destruct Hlabel as (ws3 & -> & Hinputs & Hparents). by exists ws3.
    - exists ws2. split; [done|]. split; [|done].
      unfold ws2. by rewrite getBlock_updateBlock_eq. }
  destruct Hcreate as (ws3 & Hrun3 & Hinputs3 & Hparent3).
  rewrite (bind_return _ _ _ _ _ Hrun3).
  assert (Hsaved : ∀ input c, input ∈ inputList (getBlock ws self) →
            hasConnection input = true → targetBlock input = Some c →
            parentBlock_ (getBlock ws3 c) = None).
  { intros input c Hi Hc Ht. rewrite Hparent3, Hparent2. by apply (Horphans input). }
  destruct (deleteShadows_orphans cm0 ws3) as (ws' & Hrun & Hshape).
  { intros k info b Hin Hb.
    apply saved_entries in Hin as [Hin|(input & Hi & Hc & Ht)].
    { by apply elem_of_nil in Hin. }
    apply (Hsaved input); [done..|]. congruence. }
  exists ws'. split; [done|]. split.
  - destruct (Hshape self) as [-> _]. done.
  - intros input c Hi Hc Ht. destruct (Hshape c) as [_ ->]. by apply (Hsaved input).
Qed.

Lemma updateDisplay_blank_procCode_witness :
  let ws := updateBlock 0 (setCallerMutation (Sample.mutation " " [] None None))
              Sample.sayCall in
  ∃ ws',
    updateDisplay_ 0 ws = (ws', Return tt)
    ∧ inputList (getBlock ws' 0) = [bareRow]
    ∧ ∀ input c, input ∈ inputList (getBlock ws 0) → hasConnection input = true →
        targetBlock input = Some c → parentBlock_ (getBlock ws' c) = None.
Proof.
  intros ws. apply (updateDisplay_blank_procCode Call 0 ws); reflexivity.
Defined.

End BlankProcCodeTheorem.

(** * The declaration editor and the edit callbacks *)

(** ** Editing a declaration *)

(** Assignment of the four signature properties of a block. *)
Definition setSignature (procCode : string) (argumentIds : list string)
    (displayNames argumentDefaults : option (list string)) (b : Block) : Block :=
  {| type := type b; isShadow := isShadow b; disposed := disposed b;
     parentBlock_ := parentBlock_ b; fields := fields b; inputList := inputList b;
     nextBlock := nextBlock b; procCode_ := procCode;
     argumentIds_ := argumentIds; displayNames_ := displayNames;
     argumentDefaults_ := argumentDefaults; warp_ := warp_ b;
     generateShadows_ := generateShadows_ b |}.

(** [this.procCode_ = this.procCode_ + text] *)
Definition appendToProcCode (self : BlockRef) (text : string) : M unit :=
  modify (updateBlock self (λ b,
    setSignature (procCode_ b +:+ text) (argumentIds_ b) (displayNames_ b)
      (argumentDefaults_ b) b)).

(** [this.displayNames_.push(name)]; [push] on [null] or [undefined]
    throws. *)
Definition pushDisplayName (self : BlockRef) (n : string) : M unit :=
  names ← gets (λ ws, displayNames_ (getBlock ws self));
  match names with
  | Some names =>
      modify (updateBlock self (λ b,
        setSignature (procCode_ b) (argumentIds_ b) (Some (names ++ [n]))
          (argumentDefaults_ b) b))
  | None => throw "TypeError: Cannot read properties of undefined"
  end.

(** [this.argumentIds_.push(Blockly.utils.idGenerator.genUid())] *)
Definition pushNewArgumentId (self : BlockRef) : M unit :=
  uid ← genUid;
  modify (updateBlock self (λ b,
    setSignature (procCode_ b) (argumentIds_ b ++ [uid]) (displayNames_ b)
      (argumentDefaults_ b) b)).

(** [this.argumentDefaults_.push(value)] *)
Definition pushArgumentDefault (self : BlockRef) (value : string) : M unit :=
  defaults ← gets (λ ws, argumentDefaults_ (getBlock ws self));
  match defaults with
  | Some defaults =>
      modify (updateBlock self (λ b,
        setSignature (procCode_ b) (argumentIds_ b) (displayNames_ b)
          (Some (defaults ++ [value])) b))
  | None => throw "TypeError: Cannot read properties of undefined"
  end.

(** [focusLastEditor_]: [showEditor] opens a widget and changes no block;
    what the model keeps are the reads, which throw on [undefined] (an
    input without field) and on [null] (an input without block, a block
    without [TEXT] field). *)
Definition focusLastEditor_ (self : BlockRef) : M unit :=
  inputs ← gets (λ ws, inputList (getBlock ws self));
  match last inputs with
  | None => ret tt
  | Some newInput =>
      match kind newInput with
      | DUMMY =>
          match fieldRow newInput with
          | [] => throw "TypeError: Cannot read properties of undefined"
          | _ :: _ => ret tt
          end
      | VALUE =>
          match targetBlock newInput with
          | None => throw "TypeError: Cannot read properties of null"
          | Some target =>
              field ← gets (λ ws, getFieldValue ws target "TEXT");
              match field with
              | None => throw "TypeError: Cannot read properties of null"
              | Some _ => ret tt
              end
          end
      | STATEMENT => ret tt
      end
  end.

(** [addLabelExternal], [addBooleanExternal] and [addStringNumberExternal];
    [Blockly.WidgetDiv.hide()] touches no block. *)
Definition addLabelExternal (self : BlockRef) : M unit :=
  appendToProcCode self " label text";;
  updateDisplay_ self;;
  focusLastEditor_ self.

Definition addBooleanExternal (self : BlockRef) : M unit :=
  appendToProcCode self " %b";;
  pushDisplayName self "boolean";;
  pushNewArgumentId self;;
  pushArgumentDefault self "false";;
  updateDisplay_ self;;
  focusLastEditor_ self.

Definition addStringNumberExternal (self : BlockRef) : M unit :=
  appendToProcCode self " %s";;
  pushDisplayName self "number or text";;
  pushNewArgumentId self;;
  pushArgumentDefault self "";;
  updateDisplay_ self;;
  focusLastEditor_ self.

Section AddExternal.

Lemma frame_focusLastEditor_ self : preserves frame (focusLastEditor_ self).
Proof. unfold focusLastEditor_. preserves_auto. Qed.

Lemma frame_rebuild_and_focus self :
  preserves frame (updateDisplay_ self;; focusLastEditor_ self).
Proof.
  assert (Hu := frame_updateDisplay_ self). assert (Hf := frame_focusLastEditor_ self).
  preserves_auto.
Qed.

(** What a new argument adds to the signature of a declaration. *)
Definition withArgument (marker uid displayName default : string) (b : Block) :=
  (procCode_ b +:+ marker, argumentIds_ b ++ [uid],
   (λ names, names ++ [displayName]) <$> displayNames_ b,
   (λ defaults, defaults ++ [default]) <$> argumentDefaults_ b,
   warp_ b, generateShadows_ b).

Lemma genUid_then {B} (k : string → M B) ws :
  (genUid ≫= k) ws
  = k ("uid:" +:+ pretty (uidCounter ws)) (setUidCounter (S (uidCounter ws)) ws).
Proof. reflexivity. Qed.

(** The four assignments that precede the rebuild. *)
Lemma addArgument_assignments {B} self marker displayName default (rest : M B) ws names defaults :
  displayNames_ (getBlock ws self) = Some names →
  argumentDefaults_ (getBlock ws self) = Some defaults →
  ∃ ws4,
    (appendToProcCode self marker;;
     pushDisplayName self displayName;;
     pushNewArgumentId self;;
     pushArgumentDefault self default;;
     rest) ws = rest ws4
    ∧ getBlock ws4 self
      = setSignature (procCode_ (getBlock ws self) +:+ marker)
          (argumentIds_ (getBlock ws self) ++ ["uid:" +:+ pretty (uidCounter ws)])
          (Some (names ++ [displayName])) (Some (defaults ++ [default]))
          (getBlock ws self)
    ∧ (∀ b, b ≠ self → getBlock ws4 b = getBlock ws b)
    ∧ dom (blockDB ws) ⊆ dom (blockDB ws4).
Proof.
  intros Hnames Hdefaults.
  unfold appendToProcCode. rewrite modify_then.
  unfold pushDisplayName. rewrite bind_assoc_run, gets_then.
  rewrite getBlock_updateBlock_eq. cbn [displayNames_ setSignature]. rewrite Hnames.
  rewrite modify_then.
  unfold pushNewArgumentId. rewrite bind_assoc_run, genUid_then, modify_then.
  unfold pushArgumentDefault. rewrite bind_assoc_run, gets_then.
  rewrite getBlock_updateBlock_eq. cbn [argumentDefaults_ setSignature].
  change (getBlock (setUidCounter ?n ?w) self) with (getBlock w self).
  rewrite !getBlock_updateBlock_eq. cbn [argumentDefaults_ setSignature].
  rewrite Hdefaults, modify_then.
  eexists. split; [reflexivity|]. split_and!.
  - rewrite !getBlock_updateBlock_eq.
    change (getBlock (setUidCounter ?n ?w) self) with (getBlock w self).
    rewrite !getBlock_updateBlock_eq. by destruct (getBlock ws self).
  - intros b Hb. rewrite !getBlock_updateBlock_ne by done.
    change (getBlock (setUidCounter ?n ?w) b) with (getBlock w b).
    by rewrite !getBlock_updateBlock_ne.
  - rewrite !dom_updateBlock. cbn [blockDB setUidCounter].
    rewrite !dom_updateBlock. set_solver.
Qed.

Lemma addArgument_state self marker displayName default ws names defaults :
  displayNames_ (getBlock ws self) = Some names →
  argumentDefaults_ (getBlock ws self) = Some defaults →
  let ws' := ((appendToProcCode self marker;;
               pushDisplayName self displayName;;
               pushNewArgumentId self;;
               pushArgumentDefault self default;;
               updateDisplay_ self;;
               focusLastEditor_ self) ws).1 in
  mutationState (getBlock ws' self)
  = withArgument marker ("uid:" +:+ pretty (uidCounter ws)) displayName default
      (getBlock ws self)
  ∧ ∀ b, b ≠ self → mutationState (getBlock ws' b) = mutationState (getBlock ws b).
Proof.
  intros Hnames Hdefaults. cbv zeta.
  destruct (addArgument_assignments self marker displayName default
              (updateDisplay_ self;; focusLastEditor_ self) ws names defaults)
    as (ws4 & -> & Hself & Hother & _); [done..|].
  pose proof (frame_rebuild_and_focus self ws4) as [Hm _ _ _].
  split.
  - rewrite Hm, Hself. unfold withArgument, mutationState. cbn.
    by rewrite Hnames, Hdefaults.
  - intros b Hb. by rewrite Hm, Hother.
Qed.

End AddExternal.

Section AddExternalTheorem.

(** The three buttons of the declaration editor extend the signature of
    the declaration and of no other block, however the rebuild that follows
    ends: a label only lengthens the procCode; a Boolean or string/number
    argument adds its marker, the id just generated, its default display
    name and its default value, so that ids, names and defaults stay of
    equal length. *)
Theorem addExternal_signature self ws names defaults :
  let b := getBlock ws self in
  let uid := "uid:" +:+ pretty (uidCounter ws) in
  displayNames_ b = Some names →
  argumentDefaults_ b = Some defaults →
  (genUid ws).2 = Return uid
  ∧ mutationState (getBlock (addLabelExternal self ws).1 self)
    = (procCode_ b +:+ " label text", argumentIds_ b, Some names, Some defaults,
       warp_ b, generateShadows_ b)
  ∧ mutationState (getBlock (addBooleanExternal self ws).1 self)
    = (procCode_ b +:+ " %b", argumentIds_ b ++ [uid], Some (names ++ ["boolean"]),
       Some (defaults ++ ["false"]), warp_ b, generateShadows_ b)
  ∧ mutationState (getBlock (addStringNumberExternal self ws).1 self)
    = (procCode_ b +:+ " %s", argumentIds_ b ++ [uid], Some (names ++ ["number or text"]),
       Some (defaults ++ [""]), warp_ b, generateShadows_ b)
  ∧ ∀ x, x ≠ self →
      mutationState (getBlock (addLabelExternal self ws).1 x) = mutationState (getBlock ws x)
      ∧ mutationState (getBlock (addBooleanExternal self ws).1 x)
        = mutationState (getBlock ws x)
      ∧ mutationState (getBlock (addStringNumberExternal self ws).1 x)
        = mutationState (getBlock ws x).
Proof.
  intros b uid Hnames Hdefaults. subst b uid.
  destruct (addArgument_state self " %b" "boolean" "false" ws names defaults Hnames Hdefaults)
    as [Hb Hbo].
  destruct (addArgument_state self " %s" "number or text" "" ws names defaults
              Hnames Hdefaults) as [Hs Hso].
  assert (Hl : ∀ x, mutationState (getBlock (addLabelExternal self ws).1 x)
    = mutationState (getBlock (updateBlock self (λ b,
        setSignature (procCode_ b +:+ " label text") (argumentIds_ b) (displayNames_ b)
          (argumentDefaults_ b) b) ws) x)).
  { intros x. unfold addLabelExternal, appendToProcCode. rewrite modify_then.
    match goal with |- context [(?m ?w).1] =>
      pose proof (frame_rebuild_and_focus self w) as [Hm _ _ _] end.
    apply Hm. }
  split; [done|]. split_and!.
  - rewrite Hl, getBlock_updateBlock_eq. unfold mutationState. cbn.
    by rewrite Hnames, Hdefaults.
  - unfold addBooleanExternal. rewrite Hb. unfold withArgument.
    by rewrite Hnames, Hdefaults.
  - unfold addStringNumberExternal. rewrite Hs. unfold withArgument.
    by rewrite Hnames, Hdefaults.
  - intros x Hx. split_and!.
    + by rewrite Hl, getBlock_updateBlock_ne.
    + by apply Hbo.
    + by apply Hso.
Qed.

Lemma addExternal_signature_witness :
  mutationState (getBlock (addBooleanExternal 0 hopDeclaration).1 0)
  = ("hop %s %b" +:+ " %b", ["a1"; "a2"] ++ ["uid:" +:+ pretty (uidCounter hopDeclaration)],
     Some (["height"; "twice"] ++ ["boolean"]), Some ([""; ""] ++ ["false"]), false, None).
Proof.
  destruct (addExternal_signature 0 hopDeclaration ["height"; "twice"] [""; ""]
              eq_refl eq_refl) as (_ & _ & H & _).
  exact H.
Defined.

End AddExternalTheorem.

(** ** The edit callbacks of [procedures.ts] *)

(** [block.getProcCode()]: the method is bound by the [init] of the three
    procedure blocks only. *)
Definition getProcCode (block : BlockRef) : M string :=
  role ← gets (λ ws, roleOf ws block);
  match role with
  | Some _ => gets (λ ws, procCode_ (getBlock ws block))
  | None => throw "TypeError: block.getProcCode is not a function"
  end.

(** The last statement of [editProcedureCallback]: the call of
    [ScratchProcedures.externalProcedureDefCallback] with the mutation of
    the prototype and the callback made for it.  The external callback is
    not part of the code; the computation returns what it is called
    with. *)
Definition openProcedureEditor (prototypeBlock : option BlockRef)
    : M (option (MutationDom * BlockRef)) :=
  match prototypeBlock with
  | Some prototypeBlock =>
      mutation ← mutationToDom prototypeBlock;
      ret (Some (mutation, prototypeBlock))
  | None => throw "TypeError: Cannot read properties of undefined"
  end.

(** [editProcedureCallback(block)] for a block of the main workspace (a
    call block of the flyout searches the target workspace instead).
    [None] is returned where the code alerts and returns. *)
Definition editProcedureCallback (block : BlockRef) : M (option (MutationDom * BlockRef)) :=
  ty ← gets (λ ws, type (getBlock ws block));
  if bool_decide (ty = PROCEDURES_DEFINITION_BLOCK_TYPE) then
    input ← gets (λ ws, getInput ws block "custom_block");
    match input with
    | None => alert "Bad input";; ret None
    | Some input =>
        if hasConnection input then
          match targetBlock input with
          | None => alert "Bad inner block";; ret None
          | Some innerBlock =>
              innerType ← gets (λ ws, type (getBlock ws innerBlock));
              if bool_decide (innerType ≠ PROCEDURES_PROTOTYPE_BLOCK_TYPE)
              then alert "Bad inner block";; ret None
              else openProcedureEditor (Some innerBlock)
          end
        else alert "Bad connection";; ret None
    end
  else
    isProcedure ← gets (λ ws, isProcedureBlock ws block);
    if bool_decide (ty = PROCEDURES_CALL_BLOCK_TYPE) && isProcedure then
      procCode ← getProcCode block;
      prototypeBlock ← getPrototypeBlock procCode;
      openProcedureEditor prototypeBlock
    else openProcedureEditor (Some block).

(** The callback [editProcedureCallbackFactory(block)] returns; [None] is
    the absent mutation of a cancelled edit. *)
Definition editProcedureCallbackFactory (block : BlockRef) (mutation : option MutationDom)
    : M unit :=
  match mutation with
  | Some mutation =>
      isProcedure ← gets (λ ws, isProcedureBlock ws block);
      if isProcedure : bool then
        procCode ← getProcCode block;
        mutateCallersAndPrototype procCode mutation
      else ret tt
  | None => ret tt
  end.

(** ** Deleting a definition *)

(** [Blockly.Msg.PROCEDURE_USED]; the text depends on the locale, the model
    keeps the key. *)
Definition Msg_PROCEDURE_USED : string := "PROCEDURE_USED".

(** [checkAndDelete] of the mixin [PROCEDURE_DEF_CONTEXTMENU]
    ([vertical_extensions.ts]). *)
Definition definitionCheckAndDelete (self : BlockRef) : M unit :=
  input ← gets (λ ws, getInput ws self "custom_block");
  match input with
  | Some input =>
      if hasConnection input then
        match targetBlock input with
        | Some prototypeBlock =>
            procCode ← getProcCode prototypeBlock;
            didDelete ← deleteProcedureDefCallback procCode self;
            if didDelete : bool then ret tt else alert Msg_PROCEDURE_USED
        | None => ret tt
        end
      else ret tt
  | None => ret tt
  end.

(** [block.getRootBlock()]: the last block on the way up through the
    parents; a store of [n] blocks has no longer way. *)
Fixpoint getRootBlockFrom (fuel : nat) (ws : Workspace) (b : BlockRef) : BlockRef :=
  match fuel with
  | O => b
  | S fuel' =>
      match parentBlock_ (getBlock ws b) with
      | Some p => getRootBlockFrom fuel' ws p
      | None => b
      end
  end.

Definition getRootBlock (ws : Workspace) (b : BlockRef) : BlockRef :=
  getRootBlockFrom (size (blockDB ws)) ws b.

(** [hasCaller] in [ScratchDragger.onDragEnd], computed when a
    [procedures_definition] block is dropped where it would be deleted. *)
Definition dragEndHasCaller (draggable : BlockRef) : M bool :=
  input ← gets (λ ws, getInput ws draggable "custom_block");
  match input with
  | None => throw "TypeError: Cannot read properties of null"
  | Some input =>
      if hasConnection input then
        match targetBlock input with
        | None => ret false
        | Some prototype =>
            isProcedure ← gets (λ ws, isProcedureBlock ws prototype);
            if isProcedure : bool then
              procCode ← getProcCode prototype;
              callers ← gets (λ ws,
                getCallers procCode ws (getRootBlock ws draggable) false);
              ret (0 <? List.length callers)%nat
            else ret false
        end
      else throw "TypeError: Cannot read properties of null"
  end.

Section EditCallbacks.

Lemma definesProcedure_input ws procCode block :
  definesProcedure ws procCode block = Return true →
  ∃ input p, getInput ws block "custom_block" = Some input
    ∧ hasConnection input = true ∧ targetBlock input = Some p.
Proof.
  unfold definesProcedure. intros H. case_bool_decide as Hty; [|done].
  destruct (getInput ws block "custom_block") as [input|]; [|done].
  destruct (hasConnection input) eqn:Hc; [|done].
  destruct (targetBlock input) as [p|] eqn:Ht; [|done].
  by exists input, p.
Qed.

Lemma getProcCode_run ws block :
  is_Some (roleOf ws block) →
  getProcCode block ws = (ws, Return (procCode_ (getBlock ws block))).
Proof. intros [role H]. unfold getProcCode. by rewrite gets_then, H. Qed.

Lemma isProcedureBlock_role ws b : isProcedureBlock ws b = true ↔ is_Some (roleOf ws b).
Proof.
  unfold isProcedureBlock, roleOf, roleOfType,
    PROCEDURES_CALL_BLOCK_TYPE, PROCEDURES_DECLARATION_BLOCK_TYPE,
    PROCEDURES_PROTOTYPE_BLOCK_TYPE.
  repeat case_bool_decide; cbn; split; try done; by intros [? [=]].
Qed.

(** "Edit" on a call block whose procedure has no definition among the top
    blocks fails: no prototype is found, and reading its mutation throws a
    TypeError.  The workspace is unchanged. *)
Theorem editProcedureCallback_without_definition c ws :
  type (getBlock ws c) = PROCEDURES_CALL_BLOCK_TYPE →
  findDefineBlock ws (procCode_ (getBlock ws c)) (topBlocks ws) = Return None →
  editProcedureCallback c ws
  = (ws, Throw "TypeError: Cannot read properties of undefined").
Proof.
  intros Hty Hfind.
  assert (Hrole : roleOf ws c = Some Call) by (unfold roleOf; by rewrite Hty).
  unfold editProcedureCallback. rewrite gets_then, Hty.
  rewrite bool_decide_eq_false_2 by done. rewrite gets_then.
  rewrite (proj2 (isProcedureBlock_role ws c)) by by eexists.
  rewrite bool_decide_eq_true_2 by done. cbn [andb].
  rewrite (bind_return _ _ _ _ _ (getProcCode_run ws c ltac:(by eexists))).
  destruct (getPrototypeBlock_spec (procCode_ (getBlock ws c)) ws) as (r & Hrun & Hr).
  rewrite (bind_run (getPrototypeBlock _)), Hrun.
  destruct r as [[p|]|e].
  - destruct Hr as (d & input & Hd & _). congruence.
  - reflexivity.
  - congruence.
Qed.

Lemma editProcedureCallback_without_definition_witness :
  editProcedureCallback 0 Sample.sayCall
  = (Sample.sayCall, Throw "TypeError: Cannot read properties of undefined").
Proof.
  apply (editProcedureCallback_without_definition 0 Sample.sayCall); reflexivity.
Defined.

(** "Edit" on a call block of a defined procedure opens the editor on the
    same prototype, with the same mutation, as "Edit" on the definition
    block that [getDefineBlock] finds; the workspace is unchanged.
    Committing a mutation from that editor is
    [mutateCallersAndPrototype] for the procCode of the call block, and a
    cancelled edit does nothing. *)
Theorem editProcedureCallback_from_call c d p ws :
  type (getBlock ws c) = PROCEDURES_CALL_BLOCK_TYPE →
  findDefineBlock ws (procCode_ (getBlock ws c)) (topBlocks ws) = Return (Some d) →
  getInput ws d "custom_block" ≫= targetBlock = Some p →
  type (getBlock ws p) = PROCEDURES_PROTOTYPE_BLOCK_TYPE →
  editProcedureCallback c ws
  = (ws, Return (Some (definitionMutationToDom ws p false, p)))
  ∧ editProcedureCallback d ws = editProcedureCallback c ws
  ∧ (∀ m, editProcedureCallbackFactory p (Some m) ws
           = mutateCallersAndPrototype (procCode_ (getBlock ws c)) m ws)
  ∧ editProcedureCallbackFactory p None ws = (ws, Return tt).
Proof.
  intros Hty Hfind Hp Hpty.
  assert (Hrole : roleOf ws c = Some Call) by (unfold roleOf; by rewrite Hty).
  assert (Hprole : roleOf ws p = Some Prototype) by (unfold roleOf; by rewrite Hpty).
  destruct (findDefineBlock_Some _ _ _ _ Hfind) as [_ Hdef].
  destruct (definesProcedure_true _ _ _ Hdef) as (Hdty & input' & p' & Hinput' & Ht' & _ & Hcode).
  destruct (definesProcedure_input _ _ _ Hdef) as (input & p'' & Hinput & Hc & Ht).
  assert (p'' = p) as -> by (rewrite Hinput in Hp; cbn in Hp; congruence).
  assert (p' = p) as -> by congruence.
  assert (Hopen : openProcedureEditor (Some p) ws
                  = (ws, Return (Some (definitionMutationToDom ws p false, p)))).
  { unfold openProcedureEditor.
    rewrite (bind_return _ _ _ _ _ (mutationToDom_run ws p ltac:(by eexists))).
    unfold serialized. by rewrite Hprole. }
  assert (Hcall : editProcedureCallback c ws
                  = (ws, Return (Some (definitionMutationToDom ws p false, p)))).
  { unfold editProcedureCallback. rewrite gets_then, Hty.
    rewrite bool_decide_eq_false_2 by done. rewrite gets_then.
    rewrite (proj2 (isProcedureBlock_role ws c)) by by eexists.
    rewrite bool_decide_eq_true_2 by done. cbn [andb].
    rewrite (bind_return _ _ _ _ _ (getProcCode_run ws c ltac:(by eexists))).
    assert (getPrototypeBlock (procCode_ (getBlock ws c)) ws = (ws, Return (Some p))) as Hproto.
    { unfold getPrototypeBlock. rewrite bind_run. unfold getDefineBlock.
      rewrite Hfind. unfold gets. by rewrite Hp. }
    by rewrite (bind_return _ _ _ _ _ Hproto). }
  split; [done|]. split_and!.
  - rewrite Hcall. unfold editProcedureCallback. rewrite gets_then, Hdty.
    rewrite bool_decide_eq_true_2 by done. rewrite gets_then, Hinput, Hc, Ht.
    rewrite gets_then, Hpty. rewrite bool_decide_eq_false_2; [done|]. by intros H.
  - intros m. unfold editProcedureCallbackFactory. rewrite gets_then.
    rewrite (proj2 (isProcedureBlock_role ws p)) by by eexists.
    rewrite (bind_return _ _ _ _ _ (getProcCode_run ws p ltac:(by eexists))).
    by rewrite Hcode.
  - reflexivity.
Qed.

Lemma editProcedureCallback_from_call_witness :
  editProcedureCallback 4 hopProgram
  = (hopProgram, Return (Some (definitionMutationToDom hopProgram 1 false, 1)))
  ∧ editProcedureCallback 0 hopProgram = editProcedureCallback 4 hopProgram
  ∧ (∀ m, editProcedureCallbackFactory 1 (Some m) hopProgram
           = mutateCallersAndPrototype (procCode_ (getBlock hopProgram 4)) m hopProgram)
  ∧ editProcedureCallbackFactory 1 None hopProgram = (hopProgram, Return tt).
Proof.
  apply (editProcedureCallback_from_call 4 0 1 hopProgram); reflexivity.
Defined.

End EditCallbacks.

Section DeletionGuards.

Lemma getRootBlock_top ws b : parentBlock_ (getBlock ws b) = None → getRootBlock ws b = b.
Proof.
  intros Hp. unfold getRootBlock. destruct (size (blockDB ws)); [done|].
  cbn. by rewrite Hp.
Qed.

(** The two ways of deleting a definition agree.  For a definition block
    without parent that holds a procedure block as its prototype, dropping
    it on the trash is refused by [ScratchDragger.onDragEnd] exactly when
    [checkAndDelete] of the definition's mixin refuses: both count the
    callers outside the definition's own stack.  [checkAndDelete] then
    alerts and leaves the workspace as it is, and otherwise disposes of the
    definition. *)
Theorem deletion_guards_agree d input p ws :
  parentBlock_ (getBlock ws d) = None →
  getInput ws d "custom_block" = Some input →
  hasConnection input = true →
  targetBlock input = Some p →
  isProcedureBlock ws p = true →
  let blocked :=
    (0 <? List.length (getCallers (procCode_ (getBlock ws p)) ws d false))%nat in
  dragEndHasCaller d ws = (ws, Return blocked)
  ∧ definitionCheckAndDelete d ws
    = if blocked
      then (setFired (fired ws ++ [ALERT Msg_PROCEDURE_USED]) ws, Return tt)
      else (disposeState d ws, Return tt).
Proof.
  intros Hparent Hinput Hc Ht Hproc blocked.
  pose proof (proj1 (isProcedureBlock_role ws p) Hproc) as Hrole.
  split.
  - unfold dragEndHasCaller. rewrite gets_then, Hinput, Hc, Ht, gets_then, Hproc.
    rewrite (bind_return _ _ _ _ _ (getProcCode_run ws p Hrole)), gets_then.
    by rewrite (getRootBlock_top ws d Hparent).
  - unfold definitionCheckAndDelete. rewrite gets_then, Hinput, Hc, Ht.
    rewrite (bind_return _ _ _ _ _ (getProcCode_run ws p Hrole)).
    unfold deleteProcedureDefCallback. rewrite bind_assoc_run, gets_then.
    fold blocked. by destruct blocked.
Qed.

Lemma deletion_guards_agree_witness :
  dragEndHasCaller 0 hopProgram = (hopProgram, Return true)
  ∧ definitionCheckAndDelete 0 hopProgram
    = (setFired [ALERT Msg_PROCEDURE_USED] hopProgram, Return tt).
Proof.
  apply (deletion_guards_agree 0 (Sample.statementInput "custom_block" (Some 1)) 1
           hopProgram); reflexivity.
Defined.

End DeletionGuards.

(** * What a rebuild disposes of *)

(** The first three statements of [updateDisplay_]. *)
Definition rebuildInputs (self : BlockRef) : M ConnectionMap :=
  connectionMap ← disconnectOldBlocks_ self;
  removeAllInputs_ self;;
  createAllInputs_ self connectionMap.

Lemma updateDisplay_split self ws :
  updateDisplay_ self ws
  = match rebuildInputs self ws with
    | (ws3, Return cm) => deleteShadows_ cm ws3
    | (ws3, Throw e) => (ws3, Throw e)
    end.
Proof.
  unfold updateDisplay_, rebuildInputs. rewrite !bind_run.
  destruct (disconnectOldBlocks_ self ws) as [ws1 [cm|e]]; [|done].
  rewrite !bind_run. destruct (removeAllInputs_ self ws1) as [ws2 [[]|e]]; [|done].
  rewrite bind_run. by destruct (createAllInputs_ self cm ws2) as [ws3 [cm'|e]].
Qed.

(** [keepsSkeleton self ws ws']: the blocks of [ws] are still there, are
    shadows or not as before and have the next block they had, and all but
    [self] have the inputs they had. *)
Definition keepsSkeleton (self : BlockRef) (ws ws' : Workspace) : Prop :=
  ∀ x, x ∈ dom (blockDB ws) →
    x ∈ dom (blockDB ws')
    ∧ isShadow (getBlock ws' x) = isShadow (getBlock ws x)
    ∧ nextBlock (getBlock ws' x) = nextBlock (getBlock ws x)
    ∧ (x ≠ self → inputList (getBlock ws' x) = inputList (getBlock ws x)).

#[global] Instance keepsSkeleton_preorder self : PreOrder (keepsSkeleton self).
Proof.
  split; [by intros ws x|].
  intros ws1 ws2 ws3 H1 H2 x Hx.
  destruct (H1 x Hx) as (Hd1 & Hs1 & Hn1 & Hi1).
  destruct (H2 x Hd1) as (Hd2 & Hs2 & Hn2 & Hi2).
  split_and!; [done|congruence|congruence|].
  intros Hne. rewrite Hi2, Hi1; done.
Qed.

(** Updates of a block that keep its shadow flag and next block, and its
    inputs unless the block is [self]. *)
Definition skeletonSafe (self b : BlockRef) (f : Block → Block) : Prop :=
  ∀ blk, isShadow (f blk) = isShadow blk ∧ nextBlock (f blk) = nextBlock blk
         ∧ (b ≠ self → inputList (f blk) = inputList blk).

Lemma keepsSkeleton_updateBlock self b f ws :
  skeletonSafe self b f → keepsSkeleton self ws (updateBlock b f ws).
Proof.
  intros Hf x Hx. destruct (Hf (getBlock ws b)) as (Hs & Hn & Hi).
  rewrite dom_updateBlock, getBlock_updateBlock.
  split; [set_solver|]. case_decide; subst; auto.
Qed.

Lemma keepsSkeleton_store self ws ws' :
  blockDB ws' = blockDB ws → keepsSkeleton self ws ws'.
Proof. intros H x Hx. unfold getBlock. by rewrite H. Qed.

Lemma sk_modify_updateBlock self b f :
  skeletonSafe self b f → preserves (keepsSkeleton self) (modify (updateBlock b f)).
Proof. intros Hf ws. by apply keepsSkeleton_updateBlock. Qed.

Lemma skeletonSafe_setFields self b fs : skeletonSafe self b (setFields fs).
Proof. by intros []. Qed.
Lemma skeletonSafe_setParent self b p : skeletonSafe self b (setParent p).
Proof. by intros []. Qed.
Lemma skeletonSafe_self self f :
  (∀ blk, isShadow (f blk) = isShadow blk ∧ nextBlock (f blk) = nextBlock blk) →
  skeletonSafe self self f.
Proof. intros H blk. destruct (H blk). by split_and!. Qed.

Lemma sk_modify_updateInput self idx f :
  preserves (keepsSkeleton self) (modify (updateInput self idx f)).
Proof. apply sk_modify_updateBlock, skeletonSafe_self. by intros []. Qed.

Lemma sk_removeAllInputs_ self : preserves (keepsSkeleton self) (removeAllInputs_ self).
Proof. apply sk_modify_updateBlock, skeletonSafe_self. by intros []. Qed.

Lemma sk_appendInput self i : preserves (keepsSkeleton self) (appendInput self i).
Proof. intros ws. apply keepsSkeleton_updateBlock, skeletonSafe_self. by intros []. Qed.

Lemma sk_setFieldValue self b v fname :
  preserves (keepsSkeleton self) (setFieldValue b v fname).
Proof.
  destruct v; [|apply preserves_ret; apply _].
  apply sk_modify_updateBlock. by intros [].
Qed.

Lemma sk_connect self idx child : preserves (keepsSkeleton self) (connect self idx child).
Proof.
  intros ws. unfold connect, modify, connectState. cbn [fst].
  etransitivity; [apply (sk_modify_updateInput self idx)|]. cbn [fst modify].
  etransitivity; [apply keepsSkeleton_updateBlock, skeletonSafe_setParent|].
  by apply keepsSkeleton_store.
Qed.

Lemma sk_disconnect self idx child :
  preserves (keepsSkeleton self) (disconnect self idx child).
Proof.
  intros ws. unfold disconnect, modify, disconnectState. cbn [fst].
  etransitivity; [apply (sk_modify_updateInput self idx)|]. cbn [fst modify].
  etransitivity; [apply keepsSkeleton_updateBlock, skeletonSafe_setParent|].
  by apply keepsSkeleton_store.
Qed.

Lemma sk_genUid self : preserves (keepsSkeleton self) genUid.
Proof. intros ws. by apply keepsSkeleton_store. Qed.
Lemma sk_Events_fire self e : preserves (keepsSkeleton self) (Events_fire e).
Proof.
  intros ws. apply keepsSkeleton_store. unfold Events_fire, modify. cbn [fst].
  by case_bool_decide.
Qed.

#[global] Hint Resolve sk_modify_updateInput sk_removeAllInputs_ sk_appendInput
  sk_setFieldValue sk_connect sk_disconnect sk_genUid sk_Events_fire : preserves.

(** The three functions that create a block touch no block that was there. *)
Lemma sk_createArgumentReporter_ self ty n :
  preserves (keepsSkeleton self) (createArgumentReporter_ ty n).
Proof.
  intros ws. pose proof (quiet_createArgumentReporter_ ty n ws) as Hq.
  destruct (createArgumentReporter_run ty n ws) as (ws' & Hrun & Hsame & _).
  rewrite Hrun in *. cbn [fst] in *. intros x Hx.
  rewrite Hsame by (intros ->; by apply (freshRef_ne ws (freshRef ws))).
  split; [|done]. by apply (frame_in_dom ws), Hx; apply quiet_frame.
Qed.

Lemma sk_createArgumentEditor_ self ty n :
  preserves (keepsSkeleton self) (createArgumentEditor_ ty n).
Proof.
  intros ws. pose proof (quiet_createArgumentEditor_ ty n ws) as Hq.
  destruct (createArgumentEditor_run ty n ws) as (ws' & Hrun & Hsame & _).
  rewrite Hrun in *. cbn [fst] in *. intros x Hx.
  rewrite Hsame by (intros ->; by apply (freshRef_ne ws (freshRef ws))).
  split; [|done]. by apply (frame_in_dom ws), Hx; apply quiet_frame.
Qed.

Lemma sk_attachShadow_ self input ty :
  preserves (keepsSkeleton self) (attachShadow_ self input ty).
Proof.
  intros ws. destruct ty; [| |done]; unfold attachShadow_.
  all: rewrite Events_disable_then, newBlock_then, setFieldValue_then; cbv beta.
  all: unfold modify at 1; rewrite bind_run; cbv beta iota.
  all: rewrite Events_enable_then, fireCreateIfEnabled_then.
  all: change (freshRef (setDisabled (S (disabled ws)) ws)) with (freshRef ws).
  all: match goal with |- keepsSkeleton _ _ (connect _ _ _ ?w).1 =>
         transitivity w; [|apply sk_connect] end.
  all: intros x Hx; pose proof (freshRef_ne ws x Hx) as Hne.
  all: repeat first
    [ rewrite getBlock_fireCreateState | rewrite getBlock_setDisabled
    | rewrite getBlock_updateBlock_ne by done
    | rewrite getBlock_addBlock | rewrite decide_False by done ].
  all: split; [|done].
  all: unfold fireCreateState; case_bool_decide; cbn; rewrite ?dom_updateBlock.
  all: unfold addBlock; cbn; rewrite dom_insert_L; set_solver.
Qed.

#[global] Hint Resolve sk_createArgumentReporter_ sk_createArgumentEditor_
  sk_attachShadow_ : preserves.

Lemma sk_rebuildInputs self : preserves (keepsSkeleton self) (rebuildInputs self).
Proof. unfold rebuildInputs. es_auto. Qed.

(** ** What is left in the connection map *)

Section Yields.

(** [yields P m]: whatever [m] returns satisfies [P]. *)
Definition yields {A} (P : A → Prop) (m : M A) : Prop :=
  ∀ ws ws' a, m ws = (ws', Return a) → P a.

Lemma yields_ret {A} (P : A → Prop) a : P a → yields P (ret a).
Proof. intros HP ws ws' a' [= _ <-]. done. Qed.

Lemma yields_throw {A} (P : A → Prop) e : yields P (throw e).
Proof. intros ws ws' a' [=]. Qed.

Lemma yields_bind {A B} (P : B → Prop) (m : M A) (k : A → M B) :
  (∀ a, yields P (k a)) → yields P (m ≫= k).
Proof.
  intros Hk ws ws' b. rewrite bind_run.
  destruct (m ws) as [ws1 [a|e]]; [|done]. apply Hk.
Qed.

Lemma yields_forOf {A S} (I : S → Prop) (body : S → A → M S) l : ∀ acc,
  (∀ acc x, I acc → yields I (body acc x)) → I acc → yields I (forOf body acc l).
Proof.
  induction l as [|x l IH]; intros acc Hb Hacc; cbn [forOf].
  - by apply yields_ret.
  - intros ws ws' s. rewrite bind_run.
    destruct (body acc x ws) as [ws1 [acc'|e]] eqn:Hrun; [|done].
    apply IH; [done|]. by apply (Hb acc x Hacc ws ws1).
Qed.

(** [survivors cm cm']: the saved connections of [cm'] are saved
    connections of [cm]. *)
Definition survivors (cm cm' : ConnectionMap) : Prop :=
  ∀ k info, (k, Some info) ∈ cm' → (k, Some info) ∈ cm.

Lemma survivors_refl cm : survivors cm cm.
Proof. by intros k info. Qed.

Lemma survivors_null id cm : survivors cm (cmSet id None cm).
Proof. intros k info Hin. by apply cmSet_elem in Hin as [[_ [=]]|Hin]. Qed.

Lemma survivors_trans cm1 cm2 cm3 :
  survivors cm1 cm2 → survivors cm2 cm3 → survivors cm1 cm3.
Proof. intros H1 H2 k info Hin. auto. Qed.

Lemma yields_bind_with {A B} (Q : A → Prop) (P : B → Prop) (m : M A) (k : A → M B) :
  yields Q m → (∀ a, Q a → yields P (k a)) → yields P (m ≫= k).
Proof.
  intros Hm Hk ws ws' b. rewrite bind_run.
  destruct (m ws) as [ws1 [a|e]] eqn:Hrun; [|done]. apply Hk. by apply (Hm ws ws1).
Qed.

Ltac yields_auto :=
  repeat first
    [ progress cbv beta
    | apply yields_throw
    | apply yields_ret; cbn [snd]; first [apply survivors_refl | apply survivors_null]
    | apply yields_bind; intros
    | lazymatch goal with
      | |- yields _ (let '(_, _) := ?p in _) => destruct p
      | |- yields _ (if ?c then _ else _) => destruct c
      | |- yields _ (match ?x with _ => _ end) => destruct x
      end ].

Lemma survivors_populateArgumentOnCaller_ self ty index cm id input :
  yields (survivors cm) (populateArgumentOnCaller_ self ty index cm id input).
Proof. unfold populateArgumentOnCaller_. yields_auto. Qed.

Lemma survivors_populateArgumentOnPrototype_ self ty index cm id input :
  yields (survivors cm) (populateArgumentOnPrototype_ self ty index cm id input).
Proof.
  unfold populateArgumentOnPrototype_.
  apply yields_bind. intros [oldBlock oldShadow].
  apply yields_bind. intros oldTypeMatches. apply yields_bind. intros displayName.
  apply (yields_bind_with (λ p, survivors cm p.2)); [yields_auto|].
  intros [r cm1] Hcm. apply yields_bind. intros _. by apply yields_ret.
Qed.

Lemma survivors_populateArgumentOnDeclaration_ self ty index cm id input :
  yields (survivors cm) (populateArgumentOnDeclaration_ self ty index cm id input).
Proof.
  unfold populateArgumentOnDeclaration_.
  apply yields_bind. intros [oldBlock oldShadow].
  apply yields_bind. intros oldTypeMatches. apply yields_bind. intros displayName.
  apply (yields_bind_with (λ p, survivors cm p.2)); [yields_auto|].
  intros [r cm1] Hcm. apply yields_bind. intros _. by apply yields_ret.
Qed.

Lemma survivors_populateArgument_ self ty index cm id input :
  yields (survivors cm) (populateArgument_ self ty index cm id input).
Proof.
  unfold populateArgument_. apply yields_bind. intros [[| |]|].
  - apply survivors_populateArgumentOnCaller_.
  - apply survivors_populateArgumentOnPrototype_.
  - apply survivors_populateArgumentOnDeclaration_.
  - apply yields_throw.
Qed.

Lemma survivors_createInput self n cm component :
  yields (λ st, survivors cm st.2) (createInput self (n, cm) component).
Proof.
  unfold createInput. case_bool_decide.
  - destruct (argumentTypeOfString _) as [ty|]; [|apply yields_throw].
    do 3 (apply yields_bind; intros).
    apply (yields_bind_with (survivors cm)); [apply survivors_populateArgument_|].
    intros cm1 Hcm. apply yields_bind. intros _. by apply yields_ret.
  - apply yields_bind. intros _. apply yields_ret, survivors_refl.
Qed.

Lemma survivors_createAllInputs_ self cm :
  yields (survivors cm) (createAllInputs_ self cm).
Proof.
  unfold createAllInputs_. apply yields_bind. intros procCode.
  apply (yields_bind_with (λ st, survivors cm st.2)).
  - apply yields_forOf; [|apply survivors_refl].
    intros [n cm1] x Hacc ws ws' st' Hrun. cbn [snd] in *.
    apply survivors_createInput in Hrun. by apply (survivors_trans _ cm1).
  - intros st Hst. by apply yields_ret.
Qed.

End Yields.

Section Disposal.

(** A block without inputs and without a next block. *)
Definition leaf (ws : Workspace) (b : BlockRef) : Prop :=
  inputList (getBlock ws b) = [] ∧ nextBlock (getBlock ws b) = None.

Lemma getDescendants_leaf ws b :
  leaf ws b → getDescendants ws b = [] ∨ getDescendants ws b = [b].
Proof.
  intros [Hi Hn]. unfold getDescendants. cbn [getDescendantsFrom].
  unfold getBlock in Hi, Hn.
  destruct (blockDB ws !! b) as [blk|] eqn:E; [|by left]. right.
  rewrite (lookup_total_correct _ _ _ E) in Hi, Hn.
  unfold getChildren. by rewrite Hi, Hn.
Qed.

Lemma unplug_keeps b ws x :
  isShadow (getBlock (unplug b ws) x) = isShadow (getBlock ws x)
  ∧ disposed (getBlock (unplug b ws) x) = disposed (getBlock ws x)
  ∧ (leaf ws x → leaf (unplug b ws) x).
Proof.
  unfold unplug, leaf. destruct (parentBlock_ (getBlock ws b)) as [p|]; [|done].
  rewrite !getBlock_updateBlock.
  destruct (decide (b = x)) as [->|Hb], (decide (p = x)) as [->|Hp].
  all: destruct (getBlock ws x) as [? ? ? ? ? ? ? ?] eqn:E; cbn.
  all: split_and!; try done.
  all: intros [-> ->]; by rewrite ?bool_decide_eq_false_2 by done.
Qed.

Lemma marking_keeps ds ws x :
  let ws' := foldr (λ d w, updateBlock d setDisposed w) ws ds in
  isShadow (getBlock ws' x) = isShadow (getBlock ws x)
  ∧ inputList (getBlock ws' x) = inputList (getBlock ws x)
  ∧ nextBlock (getBlock ws' x) = nextBlock (getBlock ws x)
  ∧ (disposed (getBlock ws' x) = true → disposed (getBlock ws x) = true ∨ x ∈ ds).
Proof.
  induction ds as [|d ds IH]; cbn [foldr]; [by split_and!; auto|].
  cbv zeta in IH. destruct IH as (Hs & Hi & Hn & Hd).
  rewrite getBlock_updateBlock. case_decide; subst.
  - destruct (getBlock _ x); cbn in *. split_and!; try done. intros _. right. left.
  - split_and!; try done. intros [?|?]%Hd; [by left|]. right. by right.
Qed.

Lemma dispose_leaf b ws x :
  leaf ws b →
  isShadow (getBlock (disposeState b ws) x) = isShadow (getBlock ws x)
  ∧ (leaf ws x → leaf (disposeState b ws) x)
  ∧ (disposed (getBlock (disposeState b ws) x) = true →
       disposed (getBlock ws x) = true ∨ x = b).
Proof.
  intros Hleaf. unfold disposeState, leaf at 2. rewrite !getBlock_setTopBlocks.
  destruct (marking_keeps (getDescendants ws b) (unplug b ws) x) as (Hs & Hi & Hn & Hd).
  destruct (unplug_keeps b ws x) as (Hs' & Hd' & Hl').
  split_and!.
  - congruence.
  - intros Hx. destruct (Hl' Hx) as [Hi' Hn']. by rewrite Hi, Hn.
  - intros [Hx|Hx]%Hd; [left; congruence|]. right.
    destruct (getDescendants_leaf ws b Hleaf) as [E|E]; rewrite E in Hx; set_solver.
Qed.

(** [deleteShadows_] on a map whose saved shadows are leaves disposes of
    nothing but those shadows. *)
Lemma deleteShadows_leaves cm : ∀ ws,
  (∀ k info b, (k, Some info) ∈ cm → block info = Some b →
     isShadow (getBlock ws b) = true → leaf ws b) →
  ∀ x, disposed (getBlock (deleteShadows_ cm ws).1 x) = true →
    disposed (getBlock ws x) = true
    ∨ (isShadow (getBlock ws x) = true
       ∧ ∃ k info, (k, Some info) ∈ cm ∧ block info = Some x).
Proof.
  unfold deleteShadows_, forEach.
  induction cm as [|[k v] cm IH]; intros ws Hleaves x; [by left|].
  cbn [forOf]. rewrite bind_run.
  assert (∃ ws1, deleteShadow (k, v) ws = (ws1, Return tt)
            ∧ (∀ y, isShadow (getBlock ws1 y) = isShadow (getBlock ws y)
                 ∧ (leaf ws y → leaf ws1 y)
                 ∧ (disposed (getBlock ws1 y) = true →
                      disposed (getBlock ws y) = true
                      ∨ (isShadow (getBlock ws y) = true
                         ∧ ∃ info, v = Some info ∧ block info = Some y))))
    as (ws1 & -> & Hstep).
  { unfold deleteShadow. cbn [snd]. destruct v as [info|]; [|exists ws; by auto].
    destruct (block info) as [b|] eqn:Hb; [|exists ws; by auto].
    rewrite gets_then. destruct (isShadow (getBlock ws b)) eqn:Hs; [|exists ws; by auto].
    eexists. split; [reflexivity|]. intros y.
    destruct (dispose_leaf b ws y) as (Hs' & Hl' & Hd').
    { apply (Hleaves k info); [left|done|done]. }
    split_and!; [done|done|]. intros [?| ->]%Hd'; [by left|]. right. eauto. }
  intros Hx. apply IH in Hx as [Hx|(Hs & k' & info & Hin & Hb)].
  - destruct (Hstep x) as (_ & _ & Hd). destruct (Hd Hx) as [?|(? & info & -> & ?)]; [by left|].
    right. split; [done|]. exists k, info. split; [left|done].
  - right. destruct (Hstep x) as (<- & _). split; [done|].
    exists k', info. split; [by right|done].
  - intros k' info b Hin Hb Hs. destruct (Hstep b) as (Hs' & Hl' & _).
    apply Hl', (Hleaves k' info); [by right|done|congruence].
Qed.

End Disposal.

Section RebuildDisposal.

Lemma quiet_rebuildInputs self : preserves quiet (rebuildInputs self).
Proof. unfold rebuildInputs. preserves_auto. Qed.

Lemma survivors_rebuildInputs self ws ws3 cm' :
  rebuildInputs self ws = (ws3, Return cm') →
  survivors (connectionMapOf (inputList (getBlock ws self))) cm'.
Proof.
  destruct (disconnectOldBlocks_spec self ws) as (ws1 & Hrun1 & _).
  unfold rebuildInputs. rewrite (bind_return _ _ _ _ _ Hrun1).
  unfold removeAllInputs_. rewrite modify_then. apply survivors_createAllInputs_.
Qed.

(** A rebuild is safe for the blocks of the user.  When the shadow blocks
    attached to the inputs of a procedure block have no inputs and no next
    block of their own, as the shadows, argument reporters and argument
    editors of the procedure blocks have, [updateDisplay_] disposes of no
    block but such shadows, however it ends: a block that is disposed
    afterwards was disposed before, or was a shadow attached to an input of
    this block. *)
Theorem updateDisplay_disposes_only_attached_shadows self ws x :
  (∀ input c, input ∈ inputList (getBlock ws self) → hasConnection input = true →
     targetBlock input = Some c →
     c ∈ dom (blockDB ws) ∧ (isShadow (getBlock ws c) = true → leaf ws c)) →
  disposed (getBlock (updateDisplay_ self ws).1 x) = true →
  disposed (getBlock ws x) = true
  ∨ (isShadow (getBlock ws x) = true
     ∧ ∃ input, input ∈ inputList (getBlock ws self) ∧ hasConnection input = true
         ∧ targetBlock input = Some x).
Proof.
  intros Hwf. rewrite updateDisplay_split.
  pose proof (sk_rebuildInputs self ws) as Hsk.
  pose proof (quiet_rebuildInputs self ws) as [_ Hq].
  pose proof (survivors_rebuildInputs self ws) as Hsurv.
  destruct (rebuildInputs self ws) as [ws3 [cm'|e]]; cbn [fst] in *.
  2:{ intros Hd. left. by rewrite <- Hq. }
  specialize (Hsurv ws3 cm' eq_refl).
  assert (Hsaved : ∀ k info b, (k, Some info) ∈ cm' → block info = Some b →
            ∃ input, input ∈ inputList (getBlock ws self) ∧ hasConnection input = true
              ∧ targetBlock input = Some b).
  { intros k info b Hin Hb. apply Hsurv, saved_entries in Hin.
    destruct Hin as [Hin|(input & Hi & Hc & Ht)]; [by apply elem_of_nil in Hin|].
    exists input. split_and!; [done|done|congruence]. }
  intros Hd. apply deleteShadows_leaves in Hd as [Hd|(Hs & k & info & Hin & Hb)].
  - left. by rewrite <- Hq.
  - right. destruct (Hsaved k info x Hin Hb) as (input & Hi & Hc & Ht).
    destruct (Hwf input x Hi Hc Ht) as [Hdom _].
    destruct (Hsk x Hdom) as (_ & Hs' & _). split; [congruence|]. by exists input.
  - intros k info b Hin Hb Hs.
    destruct (Hsaved k info b Hin Hb) as (input & Hi & Hc & Ht).
    destruct (Hwf input b Hi Hc Ht) as [Hdom Hleaf].
    destruct (Hsk b Hdom) as (_ & Hs' & Hn' & Hi').
    destruct Hleaf as [Hbi Hbn]; [congruence|].
    assert (b ≠ self) as Hne.
    { intros ->. rewrite Hbi in Hi. by apply elem_of_nil in Hi. }
    split; [by rewrite Hi'|congruence].
Qed.

(** The rebuild of the declaration "hop %s %b" disposes of its editor
    (block 1), which was a shadow attached to one of its inputs. *)
Lemma updateDisplay_disposes_only_attached_shadows_witness :
  disposed (getBlock (updateDisplay_ 0 hopDeclaration).1 1) = true
  ∧ (disposed (getBlock hopDeclaration 1) = true
     ∨ (isShadow (getBlock hopDeclaration 1) = true
        ∧ ∃ input, input ∈ inputList (getBlock hopDeclaration 0)
            ∧ hasConnection input = true ∧ targetBlock input = Some 1)).
Proof.
  split; [by vm_compute|].
  apply (updateDisplay_disposes_only_attached_shadows 0 hopDeclaration 1);
    [|by vm_compute].
  intros input c Hi Hc Ht. vm_compute in Hi.
  repeat (apply elem_of_cons in Hi as [->|Hi]); [..|by apply elem_of_nil in Hi];
    try discriminate Hc; injection Ht as <-.
  all: split; [apply (bool_decide_unpack _); by vm_compute|intros _; by split].
Defined.

End RebuildDisposal.

(** * Saving a block and loading what was saved *)

Section SaveThenLoad.

Lemma roleOf_in_dom ws b role : roleOf ws b = Some role → b ∈ dom (blockDB ws).
Proof.
  intros Hrole. apply type_in_dom. intros Hty. unfold roleOf in Hrole.
  by rewrite Hty in Hrole.
Qed.

Lemma frame_definitionDomToMutation_rest self prevArgIds prevDisplayNames :
  preserves frame
    (updateDisplay_ self;;
     role ← gets (λ ws, roleOf ws self);
     match role with
     | Some Prototype => updateArgumentReporterNames_ self prevArgIds prevDisplayNames
     | _ => ret tt
     end).
Proof.
  assert (Hp := frame_updateDisplay_ self).
  assert (Hq := λ a b, frame_of_quiet _ (quiet_updateArgumentReporterNames_ self a b)).
  preserves_auto.
Qed.

(** The record [mutationToDom] saves of a block, loaded into the same block
    with [domToMutation]: however the load ends, a prototype or declaration
    has the mutation state it had, a call block has the procCode, argument
    ids and warp it had and a [generateShadows_] of [null] (the flag is not
    saved); the block serialises as before, and keeps its role. *)
Theorem save_then_load role self ws :
  roleOf ws self = Some role →
  let b := getBlock ws self in
  let ws' := (domToMutation self (serialized ws self) ws).1 in
  mutationState (getBlock ws' self)
  = (procCode_ b, argumentIds_ b, displayNames_ b, argumentDefaults_ b, warp_ b,
     match role with Call => None | _ => generateShadows_ b end)
  ∧ roleOf ws' self = Some role
  ∧ serialized ws' self = serialized ws self.
Proof.
  intros Hrole b ws'.
  pose proof (roleOf_in_dom _ _ _ Hrole) as Hdom.
  set (ws0 := updateBlock self (assign role (serialized ws self)) ws).
  assert (Hf : frame ws0 ws').
  { unfold ws', domToMutation. rewrite gets_then, Hrole.
    destruct role.
    - unfold callerDomToMutation. rewrite modify_then. apply frame_updateDisplay_.
    - unfold definitionDomToMutation. rewrite !gets_then, modify_then.
      apply frame_definitionDomToMutation_rest.
    - unfold definitionDomToMutation. rewrite !gets_then, modify_then.
      apply frame_definitionDomToMutation_rest. }
  assert (Hself : getBlock ws0 self = assign role (serialized ws self) b)
    by apply getBlock_updateBlock_eq.
  assert (Hdom0 : self ∈ dom (blockDB ws0)).
  { unfold ws0. rewrite dom_updateBlock. set_solver. }
  assert (Hty : type (getBlock ws' self) = type b).
  { rewrite (frame_type _ _ Hf) by done. rewrite Hself. by destruct role. }
  assert (Hstate : mutationState (getBlock ws' self)
    = (procCode_ b, argumentIds_ b, displayNames_ b, argumentDefaults_ b, warp_ b,
       match role with Call => None | _ => generateShadows_ b end)).
  { rewrite (frame_mutation _ _ Hf), Hself. unfold serialized. rewrite Hrole.
    by destruct role. }
  split_and!; [done|by unfold roleOf; rewrite Hty|].
  unfold serialized. replace (roleOf ws' self) with (Some role)
    by by unfold roleOf; rewrite Hty.
  rewrite Hrole. unfold callerMutationToDom, definitionMutationToDom.
  unfold mutationState in Hstate. subst b.
  injection Hstate as -> -> -> -> -> _. done.
Qed.

(** The call block "say %s", which generates shadows, no longer does after
    its own record is loaded into it. *)
Lemma save_then_load_witness :
  generateShadows_ (getBlock Sample.sayCall 0) = Some true
  ∧ generateShadows_
      (getBlock (domToMutation 0 (serialized Sample.sayCall 0) Sample.sayCall).1 0)
    = None.
Proof.
  split; [reflexivity|].
  destruct (save_then_load Call 0 Sample.sayCall eq_refl) as [H _].
  exact (f_equal snd H).
Defined.

End SaveThenLoad.

(** * An argument id used by two slots *)

Section RepeatedId.





End RepeatedId.

(** * The events a rebuild fires *)

(** [announces ws ws']: from [ws] to [ws'] events are as much disabled as
    they were, no block was lost, and what was fired are [BLOCK_CREATE]
    events, one for each block of a duplicate-free list of blocks that are
    new in [ws']; nothing was fired if events were disabled in [ws]. *)
Definition announces (ws ws' : Workspace) : Prop :=
  disabled ws' = disabled ws
  ∧ dom (blockDB ws) ⊆ dom (blockDB ws')
  ∧ ∃ created,
      fired ws' = fired ws ++ (BLOCK_CREATE <$> created)
      ∧ NoDup created
      ∧ (∀ b, b ∈ created → (b ∉ dom (blockDB ws)) ∧ b ∈ dom (blockDB ws'))
      ∧ (disabled ws ≠ 0 → created = []).

Lemma announces_silent ws ws' :
  disabled ws' = disabled ws → fired ws' = fired ws →
  dom (blockDB ws) ⊆ dom (blockDB ws') → announces ws ws'.
Proof.
  intros Hd Hf Hdom. split_and!; [done..|]. exists []. split_and!.
  - by rewrite Hf, app_nil_r.
  - constructor.
  - by intros b Hb%elem_of_nil.
  - done.
Qed.

#[global] Instance announces_preorder : PreOrder announces.
Proof.
  split; [intros ws; by apply announces_silent|].
  intros ws1 ws2 ws3 (Hd1 & Hdom1 & l1 & Hf1 & Hnd1 & Hnew1 & Hoff1)
    (Hd2 & Hdom2 & l2 & Hf2 & Hnd2 & Hnew2 & Hoff2).
  split_and!; [congruence|set_solver|]. exists (l1 ++ l2). split_and!.
  - by rewrite Hf2, Hf1, fmap_app, app_assoc.
  - apply NoDup_app. split_and!; [done| |done].
    intros b Hb1 Hb2. destruct (Hnew1 b Hb1), (Hnew2 b Hb2). done.
  - intros b [Hb|Hb]%elem_of_app.
    + destruct (Hnew1 b Hb). split; [done|set_solver].
    + destruct (Hnew2 b Hb). split; [set_solver|done].
  - intros Hoff. rewrite Hoff1 by done. rewrite Hoff2 by congruence. done.
Qed.

Lemma an_modify_updateBlock b f : preserves announces (modify (updateBlock b f)).
Proof.
  intros ws. apply announces_silent; [done..|].
  unfold modify. cbn [fst]. rewrite dom_updateBlock. set_solver.
Qed.

Lemma an_modify_updateInput self idx f :
  preserves announces (modify (updateInput self idx f)).
Proof. apply an_modify_updateBlock. Qed.

Lemma an_genUid : preserves announces genUid.
Proof. intros ws. by apply announces_silent. Qed.

Lemma an_setFieldValue b v fname : preserves announces (setFieldValue b v fname).
Proof. destruct v; [apply an_modify_updateBlock|by intros ws]. Qed.

Lemma an_appendInput self i : preserves announces (appendInput self i).
Proof.
  intros ws. apply announces_silent; [done..|].
  unfold appendInput. cbn [fst]. rewrite dom_updateBlock. set_solver.
Qed.

Lemma an_connect self idx child : preserves announces (connect self idx child).
Proof. intros ws. apply announces_silent; [done..|]. apply dom_connectState. Qed.

Lemma an_disconnect self idx child : preserves announces (disconnect self idx child).
Proof.
  intros ws. apply announces_silent; [done..|].
  unfold disconnect, modify, disconnectState, updateInput.
  cbn [fst blockDB setTopBlocks]. rewrite !dom_updateBlock. set_solver.
Qed.

Lemma an_dispose b : preserves announces (dispose b).
Proof.
  intros ws. pose proof (es_dispose b ws) as [Hd _].
  pose proof (frame_dispose b ws) as Hf.
  apply announces_silent; [done| |apply Hf].
  unfold dispose, modify, disposeState. cbn [fst fired setTopBlocks].
  assert (fired (unplug b ws) = fired ws) as Hu.
  { unfold unplug. by destruct (parentBlock_ (getBlock ws b)). }
  revert Hu. generalize (unplug b ws). intros ws1 Hu.
  induction (getDescendants ws b) as [|d ds IH]; cbn [foldr]; done.
Qed.

#[global] Hint Resolve an_modify_updateBlock an_modify_updateInput an_genUid
  an_setFieldValue an_appendInput an_connect an_disconnect an_dispose : preserves.

Lemma announces_created ws ws' :
  disabled ws' = disabled ws →
  dom (blockDB ws) ⊆ dom (blockDB ws') →
  freshRef ws ∈ dom (blockDB ws') →
  fired ws' = (if bool_decide (disabled ws = 0)
               then fired ws ++ [BLOCK_CREATE (freshRef ws)] else fired ws) →
  announces ws ws'.
Proof.
  intros Hd Hdom Hfresh Hf. split_and!; [done..|].
  exists (if bool_decide (disabled ws = 0) then [freshRef ws] else []).
  case_bool_decide as Hen; split_and!; try done.
  - apply NoDup_singleton.
  - intros b ->%list_elem_of_singleton. split; [|done].
    unfold freshRef. apply is_fresh.
  - by rewrite app_nil_r.
  - constructor.
  - by intros b Hb%elem_of_nil.
Qed.

(** The state a block creation ends in: events were disabled while the
    block was made and set up (the updates [fs]), and the creation is
    announced if events are enabled afterwards. *)
Lemma announces_creation ty fs ws :
  let ws1 := addBlock ty (setDisabled (S (disabled ws)) ws) in
  let ws2 := foldr (updateBlock (freshRef ws)) ws1 fs in
  announces ws (fireCreateState (freshRef ws) (setDisabled (pred (disabled ws2)) ws2)).
Proof.
  intros ws1 ws2.
  assert (Hd : disabled ws2 = S (disabled ws)).
  { unfold ws2. by induction fs. }
  assert (Hf : fired ws2 = fired ws).
  { clear Hd. unfold ws2. by induction fs. }
  assert (Hdom : dom (blockDB ws2) = {[freshRef ws]} ∪ dom (blockDB ws)).
  { clear Hd Hf. unfold ws2. induction fs as [|f fs IH]; cbn [foldr].
    - unfold ws1, addBlock. cbn. by rewrite dom_insert_L.
    - rewrite dom_updateBlock, IH. set_solver. }
  apply announces_created.
  - unfold fireCreateState. case_bool_decide; cbn; by rewrite Hd.
  - unfold fireCreateState. case_bool_decide; cbn [blockDB setFired setDisabled].
    all: rewrite Hdom; set_solver.
  - unfold fireCreateState. case_bool_decide; cbn [blockDB setFired setDisabled].
    all: rewrite Hdom; set_solver.
  - unfold fireCreateState. cbn [disabled setDisabled]. rewrite Hd. cbn [pred].
    case_bool_decide; cbn; by rewrite Hf.
Qed.

Ltac an_created fs :=
  lazymatch goal with
  | |- announces ?ws ?w' =>
      lazymatch w' with
      | context [addBlock ?ty _] =>
          let H := fresh in
          pose proof (announces_creation ty fs ws) as H;
          cbv zeta in H; cbn [foldr] in H; exact H
      end
  end.

Lemma an_createArgumentReporter_ ty n : preserves announces (createArgumentReporter_ ty n).
Proof.
  intros ws. unfold createArgumentReporter_.
  rewrite Events_disable_then, newBlock_then.
  unfold modify at 1. rewrite bind_run. cbv beta iota.
  change (freshRef (setDisabled (S (disabled ws)) ws)) with (freshRef ws).
  destruct n as [v|].
  - rewrite setFieldValue_then, Events_enable_then, fireCreateIfEnabled_then.
    match goal with |- announces _ (ret _ ?w).1 => change (announces ws w) end.
    an_created [λ blk, setFields (<["VALUE" := v]> (fields blk)) blk; setShadow true].
  - unfold setFieldValue. rewrite ret_then, Events_enable_then, fireCreateIfEnabled_then.
    match goal with |- announces _ (ret _ ?w).1 => change (announces ws w) end.
    an_created [setShadow true].
Qed.

Lemma an_createArgumentEditor_ ty n : preserves announces (createArgumentEditor_ ty n).
Proof.
  intros ws. unfold createArgumentEditor_.
  rewrite Events_disable_then, newBlock_then.
  change (freshRef (setDisabled (S (disabled ws)) ws)) with (freshRef ws).
  destruct n as [v|].
  - rewrite setFieldValue_then. cbv beta.
    unfold modify at 1. rewrite bind_run. cbv beta iota.
    rewrite Events_enable_then, fireCreateIfEnabled_then.
    match goal with |- announces _ (ret _ ?w).1 => change (announces ws w) end.
    an_created [setShadow true; λ blk, setFields (<["TEXT" := v]> (fields blk)) blk].
  - unfold setFieldValue. rewrite ret_then.
    unfold modify at 1. rewrite bind_run. cbv beta iota.
    rewrite Events_enable_then, fireCreateIfEnabled_then.
    match goal with |- announces _ (ret _ ?w).1 => change (announces ws w) end.
    an_created [setShadow true].
Qed.

Lemma an_attachShadow_ self input ty : preserves announces (attachShadow_ self input ty).
Proof.
  intros ws. destruct ty; [| |done]; unfold attachShadow_.
  all: rewrite Events_disable_then, newBlock_then, setFieldValue_then; cbv beta.
  all: unfold modify at 1; rewrite bind_run; cbv beta iota.
  all: rewrite Events_enable_then, fireCreateIfEnabled_then.
  all: change (freshRef (setDisabled (S (disabled ws)) ws)) with (freshRef ws).
  all: match goal with |- announces _ (connect _ _ _ ?w).1 =>
         transitivity w; [|apply an_connect] end.
  - an_created [setShadow true; λ blk, setFields (<["TEXT" := ""]> (fields blk)) blk].
  - an_created [setShadow true; λ blk, setFields (<["NUM" := "1"]> (fields blk)) blk].
Qed.

#[global] Hint Resolve an_createArgumentReporter_ an_createArgumentEditor_
  an_attachShadow_ : preserves.

Lemma an_domToMutation self m : preserves announces (domToMutation self m).
Proof. es_auto. Qed.

Section CreationEvents.

Lemma an_updateDisplay_ self : preserves announces (updateDisplay_ self).
Proof. es_auto. Qed.

(** The events [domToMutation] fires itself, however it ends, are
    [BLOCK_CREATE] events of blocks it created: what is fired is one event
    for each block of a duplicate-free list of blocks that were not in the
    workspace before and are in it afterwards.  With events disabled at
    the call nothing is fired. *)
Theorem domToMutation_announces self m ws :
  let ws' := (domToMutation self m ws).1 in
  ∃ created,
    fired ws' = fired ws ++ (BLOCK_CREATE <$> created)
    ∧ NoDup created
    ∧ (∀ b, b ∈ created → (b ∉ dom (blockDB ws)) ∧ b ∈ dom (blockDB ws'))
    ∧ (disabled ws ≠ 0 → created = []).
Proof.
  cbv zeta.
  assert (announces ws (domToMutation self m ws).1) as (_ & _ & Hcreated);
    [|exact Hcreated].
  unfold domToMutation. rewrite gets_then.
  destruct (roleOf ws self) as [[| |]|]; [| | |done].
  - unfold callerDomToMutation. rewrite modify_then.
    transitivity (updateBlock self (setCallerMutation m) ws).
    + apply (an_modify_updateBlock self (setCallerMutation m) ws).
    + apply an_updateDisplay_.
  - assert (preserves announces (definitionDomToMutation self m)) as H by es_auto.
    apply H.
  - assert (preserves announces (definitionDomToMutation self m)) as H by es_auto.
    apply H.
Qed.

(** Loading a mutation with a second slot into the call block "say %s",
    which generates shadows: one block is created for the new slot, and
    announced. *)
Example sayCall_announces :
  let m := Sample.mutation "say %s %s" ["a1"; "a2"] None (Some true) in
  fired (domToMutation 0 m Sample.sayCall).1 = [BLOCK_CREATE 2].
Proof. by vm_compute. Qed.

End CreationEvents.

(** * C1: blocks taken back by a rebuild *)

Section TakenBack.



(** [keepsAttached self c ws ws']: from [ws] to [ws'] the block [c] was
    not disposed and kept its parent, the value inputs of [self] kept their
    names, and the inputs of [self] that hold [c] are as they were. *)
Definition keepsAttached (self c : BlockRef) (ws ws' : Workspace) : Prop :=
  disposed (getBlock ws' c) = disposed (getBlock ws c)
  ∧ parentBlock_ (getBlock ws' c) = parentBlock_ (getBlock ws c)
  ∧ valueNames (inputList (getBlock ws' self)) = valueNames (inputList (getBlock ws self))
  ∧ ∀ vi, vi ∈ inputList (getBlock ws self) → targetBlock vi = Some c →
      vi ∈ inputList (getBlock ws' self).

#[local] Instance keepsAttached_preorder self c : PreOrder (keepsAttached self c).
Proof.
  split; [by intros ws|].
  intros ws1 ws2 ws3 (Hd1 & Hp1 & Hv1 & Hi1) (Hd2 & Hp2 & Hv2 & Hi2).
  split_and!; [congruence..|]. intros vi Hvi Ht. auto.
Qed.








End TakenBack.
